(** * mlpack: MaxVarianceNewCluster::EmptyCluster and RASearch

    A shallow embedding of the two implementation files found in
    [src/mlpack/methods/kmeans/max_variance_new_cluster_impl.hpp]:

    - [max_variance_new_cluster_impl.hpp] itself (module [KMeans]): the
      empty-cluster policy of k-means;
    - [ra_search_impl.hpp] (module [RANN]): the rank-approximate
      neighbour search engine [RASearch].

    Conventions.  [size_t] values that are counted with [++]/[--] or used
    as sentinels are integers in [Z] with the 64-bit wrap-around written
    out; loop indices are [nat].  A [double] is an abstract type with the
    operations the code applies to it; concrete runs instantiate it with
    the primitive binary64 floats.  Armadillo's bounds failures, out of
    range [operator[]] accesses and null dereferences make a function
    fail instead of returning. *)

From Stdlib Require Import ZArith Lia Bool List Floats.
From stdpp Require Import base option list strings.

Local Open Scope Z_scope.

(** ** Machine integers *)

(** Arithmetic on [size_t] is modulo [2^64]. *)
Definition wrap (z : Z) : Z := z mod 2 ^ 64.

(** [size_t() - 1], the index sentinel. *)
Definition size_t_minus_one : Z := wrap (0 - 1).

(** [v[z]] for a [std::vector<size_t>] and a [size_t] index; [None] when the
    index is out of range (undefined behaviour in C++). *)
Definition vec_at (v : list nat) (z : Z) : option nat :=
  if (0 <=? z) && (z <? Z.of_nat (length v)) then v !! Z.to_nat z else None.

(** ** Counted loops in the option monad *)

(** [for (i in idx) s = body(i, s)], stopping at the first failure. *)
Fixpoint for_each {S : Type} (body : nat -> S -> option S) (idx : list nat)
    (s : S) : option S :=
  match idx with
  | [] => Some s
  | i :: rest =>
      match body i s with
      | Some s' => for_each body rest s'
      | None => None
      end
  end.

(** [for (size_t i = 0; i < n; ++i)]. *)
Definition for_upto {S : Type} (n : nat) (body : nat -> S -> option S)
    (s : S) : option S :=
  for_each body (seq 0 n) s.

(** ** Dense column-major matrices ([arma::Mat<eT>]) *)

Record Mat (A : Type) : Type := mkMat {
  n_rows : nat;
  n_cols : nat;
  mem : list A
}.
Arguments mkMat {A} _ _ _.
Arguments n_rows {A} _.
Arguments n_cols {A} _.
Arguments mem {A} _.

Section Matrices.
Context {A : Type}.

(** A default-constructed matrix: [new arma::Mat<eT>]. *)
Definition mat_empty : Mat A := mkMat 0 0 [].

(** The storage holds [n_rows * n_cols] elements. *)
Definition mat_wf (m : Mat A) : Prop :=
  length (mem m) = (n_rows m * n_cols m)%nat.

(** [m.set_size(r, c)]: the storage is kept when the number of elements
    does not change and is fresh, uninitialised memory otherwise; [fresh]
    gives what that memory happens to hold. *)
Definition set_size (fresh : nat -> A) (r c : nat) (m : Mat A) : Mat A :=
  mkMat r c
    (if decide (length (mem m) = (r * c)%nat) then mem m
     else map fresh (seq 0 (r * c))).

(** [m.fill(v)]. *)
Definition fill (v : A) (m : Mat A) : Mat A :=
  mkMat (n_rows m) (n_cols m) (replicate (length (mem m)) v).

(** [m(j, i)] as an rvalue, with Armadillo's bounds check. *)
Definition mat_get (m : Mat A) (j i : nat) : option A :=
  if (j <? n_rows m)%nat && (i <? n_cols m)%nat
  then mem m !! (i * n_rows m + j)%nat
  else None.

(** [m(j, i) = v]. *)
Definition mat_set (m : Mat A) (j i : nat) (v : A) : option (Mat A) :=
  if (j <? n_rows m)%nat && (i <? n_cols m)%nat
  then Some (mkMat (n_rows m) (n_cols m)
               (<[(i * n_rows m + j)%nat := v]> (mem m)))
  else None.

(** [for (j = 0; j < rows; ++j) m(j, q) = value(j);] *)
Definition write_column (rows q : nat) (value : nat -> option A)
    (m : Mat A) : option (Mat A) :=
  for_upto rows
    (fun j d => match value j with
                | Some v => mat_set d j q v
                | None => None
                end) m.

(** [dst.col(q) = src.col(i)]: both columns in range, same height;
    the copy goes element by element. *)
Definition copy_col (dst : Mat A) (q : nat) (src : Mat A) (i : nat)
    : option (Mat A) :=
  if (q <? n_cols dst)%nat && (i <? n_cols src)%nat
     && (n_rows dst =? n_rows src)%nat
  then write_column (n_rows dst) q (fun j => mat_get src j i) dst
  else None.

(** The matrix is [r] by [c] and its storage has that size. *)
Definition has_shape (r c : nat) (m : Mat A) : Prop :=
  n_rows m = r /\ n_cols m = c /\ mat_wf m.

End Matrices.

(** ** k-means: the max-variance empty-cluster policy *)

Module KMeans.

(** The [double] operations the policy uses. *)
Class Float64 : Type := {
  double : Type;
  d_zero : double;
  d_one : double;
  d_infinity : double;                  (* numeric_limits<double>::infinity() *)
  d_neg_infinity : double;
  d_neg_DBL_MAX : double;               (* -DBL_MAX *)
  d_of_size_t : Z -> double;            (* double(n) for a size_t n *)
  d_add : double -> double -> double;
  d_sub : double -> double -> double;
  d_mul : double -> double -> double;
  d_div : double -> double -> double;
  d_pow2 : double -> double;            (* std::pow(x, 2.0) *)
  d_lt : double -> double -> bool;
  d_gt : double -> double -> bool
}.

(** A column ([arma::vec]) and a matrix given by its columns. *)
Definition vec `{Float64} : Type := list double.
Definition mat `{Float64} : Type := list vec.

(** The template parameter [MetricType]. *)
Class Metric `{Float64} : Type := {
  MetricType : Type;
  Evaluate : MetricType -> vec -> vec -> double
}.

(** The members of [MaxVarianceNewCluster]. *)
Record State `{Float64} : Type := mkState {
  iteration : nat;
  variances : list double;
  assignments : list nat
}.
Arguments mkState {_} _ _ _.

(** What [EmptyCluster] leaves behind: its return value, the object and
    the two arguments it takes by non-const reference. *)
Record Returned `{Float64} : Type := mkReturned {
  ret : Z;
  self : State;
  newCentroids' : mat;
  clusterCounts' : list Z
}.
Arguments mkReturned {_} _ _ _ _.

Section Policy.
Context `{M : Metric}.

(** [variances.max(index)]: Armadillo fails on an empty vector and
    otherwise scans left to right from the most negative value, keeping
    the first strictly greater element. *)
Fixpoint max_scan (xs : list double) (i : nat) (best : double * nat)
    : double * nat :=
  match xs with
  | [] => best
  | x :: rest =>
      max_scan rest (S i) (if d_gt x (fst best) then (x, i) else best)
  end.

Definition index_max (xs : list double) : option nat :=
  match xs with
  | [] => None
  | _ => Some (snd (max_scan xs 0%nat (d_neg_infinity, 0%nat)))
  end.

(** Lines 113-125: the closest centroid to [pt], scanning [cols] from
    index [j]; [best] is [(minDistance, closestCluster)]. *)
Fixpoint closest_scan (metric : MetricType) (pt : vec) (cols : mat)
    (j : nat) (best : double * nat) : double * nat :=
  match cols with
  | [] => best
  | c :: rest =>
      let distance := Evaluate metric pt c in
      closest_scan metric pt rest (S j)
        (if d_lt distance (fst best) then (distance, j) else best)
  end.

(** Lines 97-140.  [assignments.set_size] leaves the new storage
    unspecified; the first loop overwrites every element of it. *)
Definition Precalculate (data oldCentroids : mat) (clusterCounts : list Z)
    (metric : MetricType) (s : State) : option State :=
  let n_clusters := length oldCentroids in
  let variances0 := replicate n_clusters d_zero in
  let assignments0 :=
    if decide (length (assignments s) = length data) then assignments s
    else replicate (length data) n_clusters in
  match
    for_upto (length data)
      (fun i '(vs, asg) =>
         pt ← data !! i;
         let closestCluster :=
           snd (closest_scan metric pt oldCentroids 0%nat
                  (d_infinity, n_clusters)) in
         let asg' := <[i := closestCluster]> asg in
         centroid ← oldCentroids !! closestCluster;
         v ← vs !! closestCluster;
         Some (<[closestCluster :=
                   d_add v (d_pow2 (Evaluate metric pt centroid))]> vs,
               asg'))
      (variances0, assignments0)
  with
  | None => None
  | Some (vs, asg) =>
      vs' ← for_upto (length clusterCounts)
               (fun i vs =>
                  c ← clusterCounts !! i;
                  v ← vs !! i;
                  Some (<[i := if c <=? 1 then d_zero
                               else d_div v (d_of_size_t c)]> vs))
               vs;
      Some (mkState (iteration s) vs' asg)
  end.

(** Lines 38-53: the point of cluster [maxVarCluster] furthest from its
    new centroid; the accumulator is [(maxDistance, furthestPoint)]. *)
Definition furthest_scan (data : mat) (asg : list nat) (metric : MetricType)
    (centroid : option vec) (maxVarCluster : nat)
    : option (double * nat) :=
  for_upto (length data)
    (fun i '(maxDistance, furthestPoint) =>
       a ← asg !! i;
       if (a =? maxVarCluster)%nat then
         pt ← data !! i;
         c ← centroid;
         let distance := d_pow2 (Evaluate metric pt c) in
         if d_gt distance maxDistance then Some (distance, i)
         else Some (maxDistance, furthestPoint)
       else Some (maxDistance, furthestPoint))
    (d_neg_DBL_MAX, length data).

(** [col *= a] and [col -= a * v] on one column; the second fails when
    the heights differ. *)
Definition scale (a : double) (c : vec) : vec := map (fun x => d_mul x a) c.

Definition sub_scaled (a : double) (v c : vec) : option vec :=
  if decide (length c = length v)
  then Some (zip_with (fun x y => d_sub x (d_mul a y)) c v)
  else None.

(** [m.col(i) = v]. *)
Definition assign_col (m : mat) (i : nat) (v : vec) : option mat :=
  old ← m !! i;
  if decide (length old = length v) then Some (<[i := v]> m) else None.

(** [xs[i] = x] without a bounds check in the source: out of range is
    undefined behaviour. *)
Definition store {T : Type} (xs : list T) (i : nat) (x : T)
    : option (list T) :=
  if decide (i < length xs)%nat then Some (<[i := x]> xs) else None.

(** Lines 28-30: "If necessary, calculate the variances and
    assignments." *)
Definition precalculated (data oldCentroids : mat) (clusterCounts : list Z)
    (metric : MetricType) (iter : nat) (s : State) : option State :=
  if negb (iter =? iteration s)%nat
     || negb (length (assignments s) =? length data)%nat
  then Precalculate data oldCentroids clusterCounts metric s
  else Some s.

(** The number of points the counts add up to. *)
Definition total (clusterCounts : list Z) : Z := fold_right Z.add 0 clusterCounts.

(** Lines 19-79. *)
Definition EmptyCluster (data : mat) (emptyCluster : nat)
    (oldCentroids newCentroids : mat) (clusterCounts : list Z)
    (metric : MetricType) (iter : nat) (s : State) : option Returned :=
  s1 ← precalculated data oldCentroids clusterCounts metric iter s;
  (* Now find the cluster with maximum variance. *)
  maxVarCluster ← index_max (variances s1);
  (* Now, inside this cluster, find the point which is furthest away. *)
  '(maxDistance, furthestPoint) ←
    furthest_scan data (assignments s1) metric
      (newCentroids !! maxVarCluster) maxVarCluster;
  (* Take that point and add it to the empty cluster. *)
  count ← clusterCounts !! maxVarCluster;
  col ← newCentroids !! maxVarCluster;
  let col1 :=
    scale (d_div (d_of_size_t count) (d_of_size_t (wrap (count - 1)))) col in
  point ← data !! furthestPoint;
  col2 ← sub_scaled (d_div d_one (d_sub (d_of_size_t count) d_one))
            point col1;
  let centroids1 := <[maxVarCluster := col2]> newCentroids in
  let counts1 := <[maxVarCluster := wrap (count - 1)]> clusterCounts in
  emptyCount ← counts1 !! emptyCluster;
  let counts2 := <[emptyCluster := wrap (emptyCount + 1)]> counts1 in
  centroids2 ← assign_col centroids1 emptyCluster point;
  asg ← store (assignments s1) furthestPoint emptyCluster;
  (* Modify the variances, as necessary. *)
  vs1 ← store (variances s1) emptyCluster d_zero;
  count' ← counts2 !! maxVarCluster;
  v ← vs1 !! maxVarCluster;
  let vs2 :=
    <[maxVarCluster :=
        if count' <=? 1 then d_zero
        else d_mul (d_div d_one (d_of_size_t count'))
               (d_sub (d_mul (d_of_size_t (wrap (count' + 1))) v)
                  maxDistance)]> vs1 in
  (* We only changed one point. *)
  Some (mkReturned 1 (mkState iter vs2 asg) centroids2 counts2).

(** Lines 82-94: "Serialization is useless here".  A saving archive is
    given nothing; a loading one is read for nothing and the assignments
    are emptied ([assignments.set_size(0)]). *)
Definition Serialize (loading : bool) (s : State) : State :=
  if loading then mkState (iteration s) (variances s) [] else s.

(** The closest centroid as [Precalculate] finds it for one point. *)
Definition closestCluster (metric : MetricType) (oldCentroids : mat)
    (pt : vec) : nat :=
  snd (closest_scan metric pt oldCentroids 0%nat
         (d_infinity, length oldCentroids)).

(** The call recalculates (the test of line 28). *)
Definition recalculates (data : mat) (iter : nat) (s : State) : bool :=
  negb (iter =? iteration s)%nat
  || negb (length (assignments s) =? length data)%nat.

End Policy.

End KMeans.

(** ** Rank-approximate neighbour search: [RASearch] *)

Module RANN.

(** How a call ends when it does not return: the exceptions the code and
    its libraries throw, and the undefined behaviours of C++. *)
Inductive exn : Type :=
  | invalid_argument (what : string)
  | out_of_bounds
  | null_pointer
  | division_by_zero
  | archive_exception
  | thrown (what : string).

Inductive result (A : Type) : Type :=
  | Ok (a : A)
  | Throw (e : exn).
Arguments Ok {A} _.
Arguments Throw {A} _.

Definition or_throw {A : Type} (e : exn) (o : option A) : result A :=
  match o with
  | Some a => Ok a
  | None => Throw e
  end.

(** The template parameters of [RASearch<SortPolicy, MetricType, MatType,
    TreeType>], and what the code reads from them. *)
Class Template : Type := {
  double : Type;
  Point : Type;                         (* one column of a MatType *)
  MetricType : Type;
  NodeData : Type;                      (* what a tree node holds besides
                                           its statistic and children *)
  WorstDistance : double;               (* SortPolicy::WorstDistance() *)
  RearrangesDataset : bool;             (* TreeTraits<Tree>::RearrangesDataset *)
  node_dataset : NodeData -> list Point;
  node_metric : NodeData -> MetricType
}.

(** [MatType]: the points are the columns. *)
Definition MatType `{Template} : Type := list Point.

(** Modelled from the spec: [RAQueryStat], declared in a header that is
    not among these files; the spec gives each node a mutable statistic
    "{worstBoundSoFar: distance, samplesMadeSoFar: count}", which the code
    reads as [Stat().Bound()] and [Stat().NumSamplesMade()]. *)
Record RAQueryStat `{Template} : Type := mkStat {
  Bound : double;
  NumSamplesMade : nat
}.
Arguments mkStat {_} _ _.

(** Modelled from the spec: the tree type, a template parameter; the
    spec gives each node "a list of child nodes (empty for leaves)" and
    its statistic, and the root the data set and the metric. *)
#[local] Unset Elimination Schemes.
Inductive Tree `{Template} : Type :=
  | Node (stat : RAQueryStat) (data : NodeData) (children : list Tree).
#[local] Set Elimination Schemes.

Section TreeAccessors.
Context `{Template}.

Definition Stat (t : Tree) : RAQueryStat := let 'Node s _ _ := t in s.
Definition Children (t : Tree) : list Tree := let 'Node _ _ c := t in c.
Definition NumChildren (t : Tree) : nat := length (Children t).
Definition IsLeaf (t : Tree) : bool := (NumChildren t =? 0)%nat.
Definition Dataset (t : Tree) : MatType := let 'Node _ d _ := t in node_dataset d.
Definition Metric (t : Tree) : MetricType := let 'Node _ d _ := t in node_metric d.

(** All statistics of a tree, root first. *)
Fixpoint stats (t : Tree) : list RAQueryStat :=
  let 'Node s _ c := t in s :: flat_map stats c.

(** The tree without its statistics. *)
Fixpoint skeleton (t : Tree) : list NodeData * list nat :=
  let 'Node _ d c := t in
  (d :: flat_map (fun t' => fst (skeleton t')) c,
   length c :: flat_map (fun t' => snd (skeleton t')) c).

(** Lines 613-627. *)
Fixpoint ResetQueryTree (queryNode : Tree) : Tree :=
  let 'Node _ d c := queryNode in
  Node (mkStat WorstDistance 0%nat) d (map ResetQueryTree c).

(** The statistic a search is meant to start from. *)
Definition initial_stat (s : RAQueryStat) : Prop :=
  Bound s = WorstDistance /\ NumSamplesMade s = 0%nat.

Definition is_reset (t : Tree) : Prop := Forall initial_stat (stats t).
End TreeAccessors.

(** [const MatType* referenceSet]: the address of a matrix of its own, or
    of the data set inside [*referenceTree]. *)
Inductive SetPtr `{Template} : Type :=
  | AtMatrix (m : MatType)
  | AtTreeDataset.

(** The members of [RASearch]. *)
Record RASearch `{Template} : Type := mkRASearch {
  oldFromNewReferences : list nat;
  referenceTree : option Tree;          (* Tree*, None for NULL *)
  referenceSet : SetPtr;
  treeOwner : bool;
  setOwner : bool;
  naive : bool;
  singleMode : bool;
  tau : double;
  alpha : double;
  sampleAtLeaves : bool;
  firstLeafExact : bool;
  singleSampleLimit : nat;
  metric : MetricType
}.
Arguments mkRASearch {_} _ _ _ _ _ _ _ _ _ _ _ _ _.

(** [*referenceSet]. *)
Definition deref_referenceSet `{Template} (e : RASearch) : option MatType :=
  match referenceSet e with
  | AtMatrix m => Some m
  | AtTreeDataset => Dataset <$> referenceTree e
  end.

(** The arguments of the [RASearchRules] constructor, the two output
    references apart. *)
Record RuleArgs `{Template} : Type := mkRuleArgs {
  ra_referenceSet : MatType;
  ra_querySet : MatType;
  ra_metric : MetricType;
  ra_tau : double;
  ra_alpha : double;
  ra_naive : bool;
  ra_sampleAtLeaves : bool;
  ra_firstLeafExact : bool;
  ra_singleSampleLimit : nat;
  ra_sameSet : bool
}.
Arguments mkRuleArgs {_} _ _ _ _ _ _ _ _ _ _.

(** What a rules object reaches: the two matrices it was given by
    reference and the ambient state [X] of the library (random source,
    counters). *)
Record Rules `{Template} (X : Type) : Type := mkRules {
  r_neighbors : Mat Z;
  r_distances : Mat double;
  r_state : X
}.
Arguments mkRules {_ _} _ _ _.
Arguments r_neighbors {_ _} _.
Arguments r_distances {_ _} _.
Arguments r_state {_ _} _.

(** The trees a traversal walks, addressed by reference so that one tree
    passed twice is one object. *)
Inductive TreeRef : Type := the_referenceTree | the_queryTree.

Record Forest `{Template} : Type := mkForest {
  f_reference : option Tree;
  f_query : option Tree
}.
Arguments mkForest {_} _ _.

Definition tree_at `{Template} (f : Forest) (r : TreeRef) : option Tree :=
  match r with
  | the_referenceTree => f_reference f
  | the_queryTree => f_query f
  end.

(** The collaborators whose code is elsewhere: [RAUtil], [RASearchRules],
    the traversers of the tree type and the way it partitions points. *)
Class Collaborators `{Template} : Type := {
  X : Type;
  MinimumSamplesReqd : nat -> nat -> double -> double -> nat;
  ObtainDistinctSamples : nat -> nat -> X -> list Z * X;
  RASearchRules_new : RuleArgs -> Rules X -> Rules X * option exn;
  BaseCase : nat -> Z -> Rules X -> Rules X * option exn;
  SingleTreeTraverse :
    nat -> TreeRef -> Forest * Rules X -> (Forest * Rules X) * option exn;
  DualTreeTraverse :
    TreeRef -> TreeRef -> Forest * Rules X -> (Forest * Rules X) * option exn;
  partition_order : MatType -> list nat;
  grow : MatType -> Tree
}.

(** The calls a search makes to its collaborators, in order, each with
    what it handed over; a record kept next to the run, which no
    collaborator can touch. *)
Inductive Event `{Template} : Type :=
  | EvBuildTree (dataset : MatType)
  | EvRules (args : RuleArgs) (neighbors : Mat Z) (distances : Mat double)
  | EvSamples (numSamples population : nat) (distinctSamples : list Z)
  | EvBaseCase (queryIndex : nat) (referenceIndex : Z)
  | EvSingleTraverse (queryIndex : nat) (referenceNode : option Tree)
  | EvDualTraverse (queryNode referenceNode : option Tree).

Definition is_rules `{Template} (ev : Event) : bool :=
  match ev with
  | EvRules _ _ _ => true
  | _ => false
  end.

Definition is_traversal `{Template} (ev : Event) : bool :=
  match ev with
  | EvSingleTraverse _ _ | EvDualTraverse _ _ => true
  | _ => false
  end.

(** The call that starts the first traversal of a search, if any. *)
Definition first_traversal `{Template} (calls : list Event) : option Event :=
  find is_traversal calls.

(** The reference points a search ran the base case on for query [i], in
    order. *)
Definition base_cases `{Template} (i : nat) (calls : list Event) : list Z :=
  omap (fun ev => match ev with
                  | EvBaseCase q r => if (q =? i)%nat then Some r else None
                  | _ => None
                  end) calls.

(** The query points a search started a single-tree traversal for, in
    order. *)
Definition traversed_queries `{Template} (calls : list Event) : list nat :=
  omap (fun ev => match ev with
                  | EvSingleTraverse i _ => Some i
                  | _ => None
                  end) calls.

(** The samples a search drew, one list for each draw. *)
Definition samples_drawn `{Template} (calls : list Event) : list (list Z) :=
  omap (fun ev => match ev with
                  | EvSamples _ _ distinctSamples => Some distinctSamples
                  | _ => None
                  end) calls.

(** Uninitialised storage: what the [n]-th fresh block holds at each
    offset. *)
Record Junk `{Template} : Type := mkJunk {
  junk_index : nat -> nat -> Z;
  junk_distance : nat -> nat -> double
}.
Arguments mkJunk {_} _ _.

(** The state a search runs in. *)
Record World `{Template} (X : Type) : Type := mkWorld {
  rules : Rules X;
  forest : Forest;
  trace : list Event
}.
Arguments mkWorld {_ _} _ _ _.
Arguments rules {_ _} _.
Arguments forest {_ _} _.
Arguments trace {_ _} _.

(** What a call to [Search] leaves behind: how it ended, its two output
    arguments, the query argument (a matrix or a tree), the engine with
    its tree, the ambient state and the calls made. *)
Record Outcome `{Template} (X Q : Type) : Type := mkOutcome {
  ended : result unit;
  neighbors_out : Mat Z;
  distances_out : Mat double;
  query_out : Q;
  self_out : RASearch;
  state_out : X;
  calls : list Event
}.
Arguments mkOutcome {_ _ _} _ _ _ _ _ _ _.
Arguments ended {_ _ _} _.
Arguments neighbors_out {_ _ _} _.
Arguments distances_out {_ _ _} _.
Arguments query_out {_ _ _} _.
Arguments self_out {_ _ _} _.
Arguments state_out {_ _ _} _.
Arguments calls {_ _ _} _.

(** *** The final pass: mapping indices back (lines 400-457, 505-518,
    590-610) *)

(** [oldFromNewReferences[temp(j, i)]]. *)
Definition translated (oldFromNewReferences : list nat) (temp : Mat Z)
    (j i : nat) : option Z :=
  z ← mat_get temp j i;
  r ← vec_at oldFromNewReferences z;
  Some (Z.of_nat r).

(** [neighbors(j, q) = oldFromNewReferences[temp(j, i)]] for the rows
    [j < rows] of column [i] of the temporary matrix. *)
Definition map_column (oldFromNewReferences : list nat) (temp : Mat Z)
    (rows i q : nat) (neighbors : Mat Z) : option (Mat Z) :=
  write_column rows q (fun j => translated oldFromNewReferences temp j i) neighbors.

(** "We must map reference indices only." *)
Definition map_references (oldFromNewReferences : list nat) (temp : Mat Z)
    (neighbors : Mat Z) : option (Mat Z) :=
  for_upto (n_cols neighbors)
    (fun i n => map_column oldFromNewReferences temp (n_rows n) i i n)
    neighbors.

(** "We must map query indices only." *)
Definition map_queries {D : Type} (oldFromNewQueries : list nat)
    (tempN : Mat Z) (tempD : Mat D) (neighbors : Mat Z) (distances : Mat D)
    : option (Mat Z * Mat D) :=
  for_upto (n_cols distances)
    (fun i '(n, d) =>
       queryMapping ← oldFromNewQueries !! i;
       d' ← copy_col d queryMapping tempD i;
       n' ← copy_col n queryMapping tempN i;
       Some (n', d'))
    (neighbors, distances).

(** "We must map both query and reference indices."  The search of the
    reference set against itself uses the reference map on both sides. *)
Definition map_both {D : Type} (oldFromNewQueries oldFromNewReferences : list nat)
    (tempN : Mat Z) (tempD : Mat D) (neighbors : Mat Z) (distances : Mat D)
    : option (Mat Z * Mat D) :=
  for_upto (n_cols distances)
    (fun i '(n, d) =>
       q ← oldFromNewQueries !! i;
       d' ← copy_col d q tempD i;
       n' ← map_column oldFromNewReferences tempN (n_rows d') i q n;
       Some (n', d'))
    (neighbors, distances).

(** *** What the final pass is for *)

(** An old-from-new map of a tree over [n] points: each of [0 .. n-1]
    once. *)
Definition is_permutation (oldFromNew : list nat) (n : nat) : Prop :=
  length oldFromNew = n /\ NoDup oldFromNew /\
  Forall (fun old => (old < n)%nat) oldFromNew.

(** The results [(n, d)] are keyed by original indices: the column of the
    [i]-th point of the query tree is found at its original position, and
    holds the original positions of the reference points that [tempN]
    names by their positions in the reference tree, next to their
    distances. *)
Definition keyed_by_original {D : Type}
    (oldFromNewQueries oldFromNewReferences : list nat)
    (tempN : Mat Z) (tempD : Mat D) (k n_queries : nat)
    (n : Mat Z) (d : Mat D) : Prop :=
  forall i j, (i < n_queries)%nat -> (j < k)%nat ->
    exists q z r,
      oldFromNewQueries !! i = Some q /\
      mat_get tempN j i = Some z /\
      vec_at oldFromNewReferences z = Some r /\
      mat_get n j q = Some (Z.of_nat r) /\
      mat_get d j q = mat_get tempD j i.

(** The results [(n, d)] hold the columns of the temporary matrices, each
    at the original position of its query point; the reference indices
    are left as they are. *)
Definition relocated {D : Type} (oldFromNewQueries : list nat)
    (tempN : Mat Z) (tempD : Mat D) (k n_queries : nat)
    (n : Mat Z) (d : Mat D) : Prop :=
  forall i j, (i < n_queries)%nat -> (j < k)%nat ->
    exists q,
      oldFromNewQueries !! i = Some q /\
      mat_get n j q = mat_get tempN j i /\
      mat_get d j q = mat_get tempD j i.

(** Every cell of the [k] by [n_queries] matrix holds a position of the
    reference tree. *)
Definition holds_positions (oldFromNewReferences : list nat) (temp : Mat Z)
    (k n_queries : nat) : Prop :=
  forall i j, (i < n_queries)%nat -> (j < k)%nat ->
    is_Some (translated oldFromNewReferences temp j i).

Section Engine.
Context `{C : Collaborators}.

(** *** Running against the collaborators *)

(** A step of a search: it changes the world and either goes on with a
    value or throws. *)
Definition M (A : Type) : Type := World X -> World X * result A.

Definition pure {A : Type} (a : A) : M A := fun w => (w, Ok a).

Definition bind {A B : Type} (m : M A) (k : A -> M B) : M B :=
  fun w =>
    match m w with
    | (w', Ok a) => k a w'
    | (w', Throw e) => (w', Throw e)
    end.

Definition throw {A : Type} (e : exn) : M A := fun w => (w, Throw e).

Definition from_option {A : Type} (e : exn) (o : option A) : M A :=
  fun w => (w, or_throw e o).

Notation "'do' x <- m ; k" := (bind m (fun x => k))
  (at level 10, x name, m at level 100, k at level 200).

Definition raised (e : option exn) : result unit :=
  match e with
  | None => Ok tt
  | Some ex => Throw ex
  end.

(** A call through the rules object, logged with [ev]. *)
Definition call_rules (ev : World X -> Event)
    (op : Rules X -> Rules X * option exn) : M unit :=
  fun w =>
    let '(r, e) := op (rules w) in
    (mkWorld r (forest w) (trace w ++ [ev w]), raised e).

(** A call of a traverser, which also reaches the trees. *)
Definition call_traverser (ev : World X -> Event)
    (op : Forest * Rules X -> (Forest * Rules X) * option exn) : M unit :=
  fun w =>
    let '((f, r), e) := op (forest w, rules w) in
    (mkWorld r f (trace w ++ [ev w]), raised e).

(** [for (i in idx) body(i);] *)
Fixpoint for_each_M {T : Type} (body : T -> M unit) (idx : list T)
    : M unit :=
  match idx with
  | [] => pure tt
  | i :: rest => do _ <- body i; for_each_M body rest
  end.

Definition for_upto_M (n : nat) (body : nat -> M unit) : M unit :=
  for_each_M body (seq 0 n).

(** [RuleType rules(referenceSet, querySet, neighbors, distances,
    metric, tau, alpha, naive, sampleAtLeaves, firstLeafExact,
    singleSampleLimit, sameSet)]. *)
Definition rule_args (e : RASearch) (referenceSet querySet : MatType)
    (sameSet : bool) : RuleArgs :=
  mkRuleArgs referenceSet querySet (metric e) (tau e) (alpha e) (naive e)
    (sampleAtLeaves e) (firstLeafExact e) (singleSampleLimit e) sameSet.

Definition new_rules (args : RuleArgs) : M unit :=
  call_rules
    (fun w => EvRules args (r_neighbors (rules w)) (r_distances (rules w)))
    (RASearchRules_new args).

Definition base_case (queryIndex : nat) (referenceIndex : Z) : M unit :=
  call_rules (fun _ => EvBaseCase queryIndex referenceIndex)
    (BaseCase queryIndex referenceIndex).

(** [RAUtil::ObtainDistinctSamples(numSamples, n, distinctSamples)]. *)
Definition obtain_distinct_samples (numSamples n : nat) : M (list Z) :=
  fun w =>
    let '(distinctSamples, x) :=
      ObtainDistinctSamples numSamples n (r_state (rules w)) in
    (mkWorld (mkRules (r_neighbors (rules w)) (r_distances (rules w)) x)
       (forest w) (trace w ++ [EvSamples numSamples n distinctSamples]),
     Ok distinctSamples).

(** [traverser.Traverse(i, *referenceTree)]. *)
Definition single_traverse (i : nat) : M unit :=
  fun w =>
    match f_reference (forest w) with
    | None => (w, Throw null_pointer)
    | Some _ =>
        call_traverser
          (fun w => EvSingleTraverse i (f_reference (forest w)))
          (SingleTreeTraverse i the_referenceTree) w
    end.

(** [traverser.Traverse] on the trees at [q] and [r]. *)
Definition dual_traverse (q r : TreeRef) : M unit :=
  fun w =>
    match tree_at (forest w) q, tree_at (forest w) r with
    | Some _, Some _ =>
        call_traverser
          (fun w => EvDualTraverse (tree_at (forest w) q)
                      (tree_at (forest w) r))
          (DualTreeTraverse q r) w
    | _, _ => (w, Throw null_pointer)
    end.

(** The average printed after a traversal:
    [rules.NumDistComputations() / querySet.n_cols] on [size_t]. *)
Definition log_average (n_queries : nat) : M unit :=
  if (n_queries =? 0)%nat then throw division_by_zero else pure tt.

(** *** Building trees (lines 163-189) *)

(** Modelled from the spec: the constructors of the tree type,
    [TreeType(dataset, oldFromNew)] and [TreeType(dataset)], whose code
    is not among these files.  The spec has the tree hold "a
    possibly-permuted copy of the input points with an old-to-new index
    map" and leaves the geometry of the partition open, so the order
    [partition_order] and the nodes [grow] are collaborators.  The results
    are the tree, the map and the caller's matrix as the constructor
    leaves it. *)
Definition TreeType_new_mapping (dataset : MatType)
    : Tree * list nat * MatType :=
  let oldFromNew := partition_order dataset in
  let copy := omap (fun old => dataset !! old) oldFromNew in
  (grow copy, oldFromNew, dataset).

(** Modelled from the spec: the constructor without a map, which takes
    its data set by reference to const and copies it. *)
Definition TreeType_new (dataset : MatType) : Tree := grow dataset.

(** The two overloads of [aux::BuildTree], chosen by the tree traits. *)
Definition BuildTree (dataset : MatType) (oldFromNew : list nat)
    : Tree * list nat * MatType :=
  if RearrangesDataset then TreeType_new_mapping dataset
  else (TreeType_new dataset, oldFromNew, dataset).

(** *** Constructors (lines 198-254) *)

(** From a reference set.  The second component is the caller's matrix
    after the call. *)
Definition RASearch_fromSet (referenceSetIn : MatType)
    (naive singleMode : bool) (tau alpha : double)
    (sampleAtLeaves firstLeafExact : bool) (singleSampleLimit : nat)
    (metric : MetricType) : RASearch * MatType :=
  let '(referenceTree, oldFromNewReferences, referenceSetIn') :=
    if naive then (None, [], referenceSetIn)
    else let '(t, m, d) := BuildTree referenceSetIn [] in (Some t, m, d) in
  (mkRASearch oldFromNewReferences referenceTree
     (if naive then AtMatrix referenceSetIn else AtTreeDataset)
     (negb naive) false naive
     (negb naive && singleMode) (* No single mode if naive. *)
     tau alpha sampleAtLeaves firstLeafExact singleSampleLimit metric,
   referenceSetIn').

(** From a tree built by the caller. *)
Definition RASearch_fromTree (referenceTree : Tree) (singleMode : bool)
    (tau alpha : double) (sampleAtLeaves firstLeafExact : bool)
    (singleSampleLimit : nat) (metric : MetricType) : RASearch :=
  mkRASearch [] (Some referenceTree) AtTreeDataset false false false
    singleMode tau alpha sampleAtLeaves firstLeafExact singleSampleLimit
    metric.

(** The engine after a traversal has written into its tree. *)
Definition with_tree (e : RASearch) (t : option Tree) : RASearch :=
  mkRASearch (oldFromNewReferences e) t (referenceSet e) (treeOwner e)
    (setOwner e) (naive e) (singleMode e) (tau e) (alpha e)
    (sampleAtLeaves e) (firstLeafExact e) (singleSampleLimit e) (metric e).

(** *** Search with a query set (lines 285-458) *)

(** Lines 324-343: the naive branch. *)
Definition naive_search (e : RASearch) (querySet : MatType) (k : nat)
    : M unit :=
  do referenceSet <- from_option null_pointer (deref_referenceSet e);
  do _ <- new_rules (rule_args e referenceSet querySet false);
  (* Find how many samples from the reference set we need and sample
     uniformly from the reference set without replacement. *)
  let numSamples :=
    MinimumSamplesReqd (length referenceSet) k (tau e) (alpha e) in
  do distinctSamples <-
    obtain_distinct_samples numSamples (length referenceSet);
  (* Run the base case on each combination of query point and sampled
     reference point. *)
  for_upto_M (length querySet)
    (fun i => for_each_M (fun sample => base_case i sample) distinctSamples).

(** Lines 344-368: the single-tree branch. *)
Definition single_search (e : RASearch) (querySet : MatType) : M unit :=
  do referenceSet <- from_option null_pointer (deref_referenceSet e);
  do _ <- new_rules (rule_args e referenceSet querySet false);
  do root <- (fun w => (w, or_throw null_pointer (f_reference (forest w))));
  if IsLeaf root then pure tt
  else
    do _ <- for_upto_M (length querySet) single_traverse;
    log_average (length querySet).

(** Lines 381-393: the dual-tree branch, once the query tree is built. *)
Definition dual_search (e : RASearch) (queryTree : Tree) (n_queries : nat)
    : M unit :=
  do referenceSet <- from_option null_pointer (deref_referenceSet e);
  do _ <- new_rules (rule_args e referenceSet (Dataset queryTree) false);
  do _ <- dual_traverse the_queryTree the_referenceTree;
  log_average n_queries.

(** Where a search stands once its traversal is over (line 398, 503,
    588): the world, how the traversal ended, the map of the query tree
    the engine built (empty otherwise) and the caller's query set. *)
Record Traversed : Type := mkTraversed {
  t_world : World X;
  t_ended : result unit;
  t_oldFromNewQueries : list nat;
  t_querySet : MatType
}.

Definition t_neighbors (t : Traversed) : Mat Z := r_neighbors (rules (t_world t)).
Definition t_distances (t : Traversed) : Mat double :=
  r_distances (rules (t_world t)).

Definition is_dual (e : RASearch) : bool := negb (singleMode e) && negb (naive e).

(** Lines 291-398. *)
Definition Search_querySet_traverse (e : RASearch) (querySet : MatType)
    (k : nat) (neighbors : Mat Z) (distances : Mat double) (junk : Junk)
    (x : X) : Traversed :=
  let n_queries := length querySet in
  (* Mapping is only required if this tree type rearranges points and we
     are not in naive mode. *)
  let tempDistances := RearrangesDataset && is_dual e in
  let tempNeighbors := RearrangesDataset && (is_dual e || treeOwner e) in
  (* Set the size of the neighbor and distance matrices. *)
  let neighborPtr :=
    set_size (junk_index junk 0) k n_queries
      (if tempNeighbors then mat_empty else neighbors) in
  let distancePtr :=
    fill WorstDistance
      (set_size (junk_distance junk 0) k n_queries
         (if tempDistances then mat_empty else distances)) in
  (* Build the query tree. *)
  let '(queryTree, oldFromNewQueries, querySet') :=
    if is_dual e
    then let '(t, m, q) := BuildTree querySet [] in (Some t, m, q)
    else (None, [], querySet) in
  let w0 :=
    mkWorld (mkRules neighborPtr distancePtr x)
      (mkForest (referenceTree e) queryTree)
      (if is_dual e then [EvBuildTree querySet] else []) in
  let '(w1, r) :=
    (if naive e then naive_search e querySet k
     else if singleMode e then single_search e querySet
     else match queryTree with
          | Some t => dual_search e t n_queries
          | None => throw null_pointer
          end) w0 in
  mkTraversed w1 r oldFromNewQueries querySet'.

Definition Search_querySet (e : RASearch) (querySet : MatType) (k : nat)
    (neighbors : Mat Z) (distances : Mat double) (junk : Junk) (x : X)
    : Outcome X MatType :=
  let n_queries := length querySet in
  let t := Search_querySet_traverse e querySet k neighbors distances junk x in
  let tempDistances := RearrangesDataset && is_dual e in
  let tempNeighbors := RearrangesDataset && (is_dual e || treeOwner e) in
  let finish st n d :=
    mkOutcome st n d (t_querySet t)
      (with_tree e (f_reference (forest (t_world t))))
      (r_state (rules (t_world t))) (trace (t_world t)) in
  let neighbors1 := if tempNeighbors then neighbors else t_neighbors t in
  let distances1 := if tempDistances then distances else t_distances t in
  match t_ended t with
  | Throw ex => finish (Throw ex) neighbors1 distances1
  | Ok _ =>
      (* Map points back to original indices, if necessary. *)
      if RearrangesDataset then
        if is_dual e && treeOwner e then
          let n := set_size (junk_index junk 1) k n_queries neighbors in
          let d := set_size (junk_distance junk 1) k n_queries distances in
          match map_both (t_oldFromNewQueries t) (oldFromNewReferences e)
                  (t_neighbors t) (t_distances t) n d with
          | Some (n', d') => finish (Ok tt) n' d'
          | None => finish (Throw out_of_bounds) n d
          end
        else if is_dual e then
          let n := set_size (junk_index junk 1) k n_queries neighbors in
          let d := set_size (junk_distance junk 1) k n_queries distances in
          match map_queries (t_oldFromNewQueries t)
                  (t_neighbors t) (t_distances t) n d with
          | Some (n', d') => finish (Ok tt) n' d'
          | None => finish (Throw out_of_bounds) n d
          end
        else if treeOwner e then
          let n := set_size (junk_index junk 1) k n_queries neighbors in
          match map_references (oldFromNewReferences e) (t_neighbors t) n with
          | Some n' => finish (Ok tt) n' distances1
          | None => finish (Throw out_of_bounds) n distances1
          end
        else finish (Ok tt) neighbors1 distances1
      else finish (Ok tt) neighbors1 distances1
  end.

(** *** Search with a query tree (lines 466-519) *)

Definition invalid_mode : exn :=
  invalid_argument
    "cannot call NeighborSearch::Search() with a query tree when naive or singleMode are set to true".

(** Lines 482-503, once the mode has been checked. *)
Definition Search_queryTree_traverse (e : RASearch) (queryTree : Tree)
    (k : nat) (neighbors : Mat Z) (distances : Mat double) (junk : Junk)
    (x : X) : Traversed :=
  (* Get a reference to the query set. *)
  let querySet := Dataset queryTree in
  let temp := treeOwner e && RearrangesDataset in
  let neighborPtr :=
    fill size_t_minus_one
      (set_size (junk_index junk 0) k (length querySet)
         (if temp then mat_empty else neighbors)) in
  let distances0 :=
    fill WorstDistance
      (set_size (junk_distance junk 0) k (length querySet) distances) in
  let w0 :=
    mkWorld (mkRules neighborPtr distances0 x)
      (mkForest (referenceTree e) (Some queryTree)) [] in
  let '(w1, r) :=
    (do referenceSet <- from_option null_pointer (deref_referenceSet e);
     do _ <- new_rules (rule_args e referenceSet (Dataset queryTree) false);
     dual_traverse the_queryTree the_referenceTree) w0 in
  mkTraversed w1 r [] querySet.

Definition Search_queryTree (e : RASearch) (queryTree : Tree) (k : nat)
    (neighbors : Mat Z) (distances : Mat double) (junk : Junk) (x : X)
    : Outcome X Tree :=
  (* Make sure we are in dual-tree mode. *)
  if singleMode e || naive e then
    mkOutcome (Throw invalid_mode) neighbors distances queryTree e x []
  else
    let n_queries := length (Dataset queryTree) in
    let t := Search_queryTree_traverse e queryTree k neighbors distances junk x in
    let temp := treeOwner e && RearrangesDataset in
    let finish st n :=
      mkOutcome st n (t_distances t)
        (default queryTree (f_query (forest (t_world t))))
        (with_tree e (f_reference (forest (t_world t))))
        (r_state (rules (t_world t))) (trace (t_world t)) in
    match t_ended t with
    | Throw ex => finish (Throw ex) (if temp then neighbors else t_neighbors t)
    | Ok _ =>
        (* Do we need to map indices? *)
        if temp then
          let n := set_size (junk_index junk 1) k n_queries neighbors in
          match map_references (oldFromNewReferences e) (t_neighbors t) n with
          | Some n' => finish (Ok tt) n'
          | None => finish (Throw out_of_bounds) n
          end
        else finish (Ok tt) (t_neighbors t)
    end.

(** *** Search of the reference set against itself (lines 527-611) *)

(** Lines 550-586. *)
Definition self_search (e : RASearch) (referenceSet : MatType) (k : nat)
    : M unit :=
  do _ <- new_rules (rule_args e referenceSet referenceSet true);
  let n := length referenceSet in
  if naive e then
    (* Find how many samples from the reference set we need and sample
       uniformly from the reference set without replacement. *)
    let numSamples := MinimumSamplesReqd n k (tau e) (alpha e) in
    do distinctSamples <- obtain_distinct_samples numSamples n;
    (* The naive brute-force solution. *)
    for_upto_M n
      (fun i => for_upto_M n (fun j => base_case i (Z.of_nat j)))
  else if singleMode e then for_upto_M n single_traverse
  else dual_traverse the_referenceTree the_referenceTree.

(** Lines 532-588, for a reference set that can be read. *)
Definition Search_self_traverse (e : RASearch) (referenceSet : MatType)
    (k : nat) (neighbors : Mat Z) (distances : Mat double) (junk : Junk)
    (x : X) : Traversed :=
  let n := length referenceSet in
  let temp := RearrangesDataset && treeOwner e in
  (* Initialize results. *)
  let neighborPtr :=
    fill size_t_minus_one
      (set_size (junk_index junk 0) k n
         (if temp then mat_empty else neighbors)) in
  let distancePtr :=
    fill WorstDistance
      (set_size (junk_distance junk 0) k n
         (if temp then mat_empty else distances)) in
  let w0 :=
    mkWorld (mkRules neighborPtr distancePtr x)
      (mkForest (referenceTree e) None) [] in
  let '(w1, r) := self_search e referenceSet k w0 in
  mkTraversed w1 r [] referenceSet.

Definition Search_self (e : RASearch) (k : nat) (neighbors : Mat Z)
    (distances : Mat double) (junk : Junk) (x : X) : Outcome X unit :=
  match deref_referenceSet e with
  | None => mkOutcome (Throw null_pointer) neighbors distances tt e x []
  | Some referenceSet =>
      let n := length referenceSet in
      let t := Search_self_traverse e referenceSet k neighbors distances junk x in
      let temp := RearrangesDataset && treeOwner e in
      let finish st n d :=
        mkOutcome st n d tt
          (with_tree e (f_reference (forest (t_world t))))
          (r_state (rules (t_world t))) (trace (t_world t)) in
      match t_ended t with
      | Throw ex =>
          if temp then finish (Throw ex) neighbors distances
          else finish (Throw ex) (t_neighbors t) (t_distances t)
      | Ok _ =>
          (* Do we need to map the reference indices? *)
          if temp then
            let n0 := set_size (junk_index junk 1) k n neighbors in
            let d0 := set_size (junk_distance junk 1) k n distances in
            match map_both (oldFromNewReferences e)
                    (oldFromNewReferences e) (t_neighbors t) (t_distances t)
                    n0 d0
            with
            | Some (n', d') => finish (Ok tt) n' d'
            | None => finish (Throw out_of_bounds) n0 d0
            end
          else finish (Ok tt) (t_neighbors t) (t_distances t)
      end
  end.

(** *** Serialization (lines 674-750) *)

(** What an archive stores under a name. *)
Inductive Value : Type :=
  | VBool (b : bool)
  | VDouble (d : double)
  | VSize (n : nat)
  | VMatrix (m : MatType)
  | VMetric (m : MetricType)
  | VTree (t : option Tree)
  | VIndices (l : list nat).

Definition Archive : Type := list (string * Value).

(** The types [ar & CreateNVP(x, name)] is used at. *)
Class Archivable (T : Type) : Type := {
  to_value : T -> Value;
  of_value : Value -> option T
}.

#[local] Instance bool_archivable : Archivable bool :=
  {| to_value := VBool;
     of_value v := match v with VBool b => Some b | _ => None end |}.
#[local] Instance double_archivable : Archivable double :=
  {| to_value := VDouble;
     of_value v := match v with VDouble d => Some d | _ => None end |}.
#[local] Instance size_archivable : Archivable nat :=
  {| to_value := VSize;
     of_value v := match v with VSize n => Some n | _ => None end |}.
#[local] Instance metric_archivable : Archivable MetricType :=
  {| to_value := VMetric;
     of_value v := match v with VMetric m => Some m | _ => None end |}.
#[local] Instance tree_archivable : Archivable (option Tree) :=
  {| to_value := VTree;
     of_value v := match v with VTree t => Some t | _ => None end |}.
#[local] Instance indices_archivable : Archivable (list nat) :=
  {| to_value := VIndices;
     of_value v := match v with VIndices l => Some l | _ => None end |}.

(** Reading or writing, with the archive threaded through. *)
Definition Ar (T : Type) : Type := Archive -> result (T * Archive).

Definition ar_bind {T U : Type} (m : Ar T) (k : T -> Ar U) : Ar U :=
  fun a =>
    match m a with
    | Ok (t, a') => k t a'
    | Throw e => Throw e
    end.

Notation "'ar&' x <- m ; k" := (ar_bind m (fun x => k))
  (at level 10, x name, m at level 100, k at level 200).

(** [ar & CreateNVP(x, name)]: a saving archive appends the value and
    leaves [x] alone; a loading archive takes the next value, whatever
    its name, and stores it in [x]. *)
Definition nvp {T : Type} `{Archivable T} (loading : bool) (x : T)
    (name : string) : Ar T :=
  fun a =>
    if loading then
      match a with
      | (_, v) :: rest => or_throw archive_exception
                            ((fun y => (y, rest)) <$> of_value v)
      | [] => Throw archive_exception
      end
    else Ok (x, a ++ [(name, to_value x)]).

(** The same through the pointer [referenceSet]: saving writes the
    matrix it points to, loading makes it point to a new matrix. *)
Definition nvp_referenceSet (loading : bool) (e : RASearch) (name : string)
    : Ar SetPtr :=
  fun a =>
    if loading then
      match a with
      | (_, VMatrix m) :: rest => Ok (AtMatrix m, rest)
      | _ => Throw archive_exception
      end
    else
      match deref_referenceSet e with
      | Some m => Ok (referenceSet e, a ++ [(name, VMatrix m)])
      | None => Throw null_pointer
      end.

Definition Serialize (loading : bool) (e : RASearch) : Ar RASearch :=
  (* Serialize preferences for search. *)
  ar& naive <- nvp loading (naive e) "naive";
  ar& singleMode <- nvp loading (singleMode e) "singleMode";
  ar& tau <- nvp loading (tau e) "tau";
  ar& alpha <- nvp loading (alpha e) "alpha";
  ar& sampleAtLeaves <- nvp loading (sampleAtLeaves e) "sampleAtLeaves";
  ar& firstLeafExact <- nvp loading (firstLeafExact e) "firstLeafExact";
  ar& singleSampleLimit <-
    nvp loading (singleSampleLimit e) "singleSampleLimit";
  (* If we are doing naive search, we serialize the dataset.  Otherwise
     we serialize the tree. *)
  if naive then
    let setOwner1 := if loading then true else setOwner e in
    ar& referenceSet <- nvp_referenceSet loading e "referenceSet";
    ar& metric <- nvp loading (metric e) "metric";
    (* If we are loading, set the tree to NULL. *)
    let '(referenceTree, oldFromNewReferences, treeOwner1) :=
      if loading then (None, [], false)
      else (referenceTree e, oldFromNewReferences e, treeOwner e) in
    fun a =>
      Ok (mkRASearch oldFromNewReferences referenceTree referenceSet
            treeOwner1 setOwner1 naive singleMode tau alpha sampleAtLeaves
            firstLeafExact singleSampleLimit metric, a)
  else
    (* After we load the tree, we will own it. *)
    let treeOwner1 := if loading then true else treeOwner e in
    ar& referenceTree <- nvp loading (referenceTree e) "referenceTree";
    ar& oldFromNewReferences <-
      nvp loading (oldFromNewReferences e) "oldFromNewReferences";
    (* If we are loading, set the dataset accordingly. *)
    fun a =>
      if loading then
        match referenceTree with
        | Some t =>
            Ok (mkRASearch oldFromNewReferences referenceTree AtTreeDataset
                  treeOwner1 false naive singleMode tau alpha
                  sampleAtLeaves firstLeafExact singleSampleLimit
                  (Metric t), a)
        | None => Throw null_pointer
        end
      else
        Ok (mkRASearch oldFromNewReferences referenceTree (referenceSet e)
              treeOwner1 (setOwner e) naive singleMode tau alpha
              sampleAtLeaves firstLeafExact singleSampleLimit (metric e), a).

(** The names stored in an archive. *)
Definition names (a : Archive) : list string := map fst a.

(** The seven configuration scalars of an engine, as an archive holds
    them. *)
Definition scalars (e : RASearch) : Archive :=
  [("naive", VBool (naive e)); ("singleMode", VBool (singleMode e));
   ("tau", VDouble (tau e)); ("alpha", VDouble (alpha e));
   ("sampleAtLeaves", VBool (sampleAtLeaves e));
   ("firstLeafExact", VBool (firstLeafExact e));
   ("singleSampleLimit", VSize (singleSampleLimit e))].

Definition config (e : RASearch)
    : bool * bool * double * double * bool * bool * nat :=
  (naive e, singleMode e, tau e, alpha e, sampleAtLeaves e,
   firstLeafExact e, singleSampleLimit e).

(** *** Ownership (lines 256-273, and the [delete]s of lines 699-749) *)

(** What a [delete] expression of the engine is applied to. *)
Inductive Freed : Type :=
  | delete_referenceTree (t : Tree)
  | delete_referenceSet (p : SetPtr).

Definition owned_tree (e : RASearch) : list Freed :=
  if treeOwner e then
    match referenceTree e with
    | Some t => [delete_referenceTree t]
    | None => []
    end
  else [].

Definition owned_set (e : RASearch) : list Freed :=
  if setOwner e then [delete_referenceSet (referenceSet e)] else [].

(** Lines 266-273, the destructor: "The tree is the only member we may be
    responsible for deleting". *)
Definition RASearch_destroy (e : RASearch) : list Freed :=
  (* if (treeOwner && referenceTree) delete referenceTree; *)
  owned_tree e ++
  (* if (setOwner) delete referenceSet; *)
  owned_set e.

(** What a loading [Serialize] deletes of the engine it loads into, in
    order, when the archive holds [naive'] for [naive]: the set before the
    new one is read and the tree after it (lines 703-704 and 715-716), or
    the tree before the new one is read and the set after it (lines
    728-729 and 742-743). *)
Definition Serialize_deletes (e : RASearch) (naive' : bool) : list Freed :=
  if naive' then owned_set e ++ owned_tree e
  else owned_tree e ++ owned_set e.

(** The engines a program can hold: made by a constructor, and then
    searched with, saved, or loaded into by a [Serialize] that returns. *)
Inductive in_use : RASearch -> Prop :=
  | made_fromSet referenceSetIn naive singleMode tau alpha sampleAtLeaves
        firstLeafExact singleSampleLimit metric :
      in_use (fst (RASearch_fromSet referenceSetIn naive singleMode tau alpha
                     sampleAtLeaves firstLeafExact singleSampleLimit metric))
  | made_fromTree referenceTree singleMode tau alpha sampleAtLeaves
        firstLeafExact singleSampleLimit metric :
      in_use (RASearch_fromTree referenceTree singleMode tau alpha
                sampleAtLeaves firstLeafExact singleSampleLimit metric)
  | after_Search_querySet e querySet k neighbors distances junk x :
      in_use e ->
      in_use (self_out (Search_querySet e querySet k neighbors distances
                          junk x))
  | after_Search_queryTree e queryTree k neighbors distances junk x :
      in_use e ->
      in_use (self_out (Search_queryTree e queryTree k neighbors distances
                          junk x))
  | after_Search_self e k neighbors distances junk x :
      in_use e ->
      in_use (self_out (Search_self e k neighbors distances junk x))
  | after_Serialize loading e a e' a' :
      in_use e -> Serialize loading e a = Ok (e', a') -> in_use e'.

(** The members that decide what the engine deletes. *)
Definition ownership (e : RASearch) : bool * bool * bool * SetPtr :=
  (naive e, treeOwner e, setOwner e, referenceSet e).

(** What keeps the two [delete]s of the destructor apart: an engine
    that owns its tree is not naive and owns no set, and an engine that
    owns its set is naive and points to a matrix of its own. *)
Definition owns_one_thing (e : RASearch) : Prop :=
  (treeOwner e = true -> naive e = false /\ setOwner e = false) /\
  (setOwner e = true ->
     naive e = true /\ exists m, referenceSet e = AtMatrix m).

(** *** Temporaries (the [new] and [delete] expressions of the three
    [Search], lines 300-315, 376, 395, 423-455, 483-486, 517, 537-542,
    608-609) *)

(** The free store: the next address to hand out and the objects alive. *)
Record Store : Type := mkStore {
  next : nat;
  alive : list nat
}.

Definition new (h : Store) : nat * Store :=
  (next h, mkStore (S (next h)) (next h :: alive h)).

(** A pointer to a matrix: the caller's, or a temporary at an address. *)
Inductive MatPtr : Type :=
  | caller's
  | temporary (a : nat).

(** [delete p]: the object must be alive, and is not the caller's. *)
Definition delete (p : MatPtr) (h : Store) : option Store :=
  match p with
  | caller's => None
  | temporary a =>
      if decide (a ∈ alive h)
      then Some (mkStore (next h)
                   (filter (fun b => negb (b =? a)%nat) (alive h)))
      else None
  end.

(** The store when [Search(querySet, ...)] returns, for a traversal that
    returns. *)
Definition Search_querySet_temporaries (e : RASearch) (h : Store)
    : option Store :=
  let neighborPtr := caller's in
  let distancePtr := caller's in
  let '(neighborPtr, distancePtr, h) :=
    if RearrangesDataset then
      let '(neighborPtr, distancePtr, h) :=
        if is_dual e then
          let '(d, h) := new h in         (* distancePtr = new arma::mat *)
          let '(n, h) := new h in         (* neighborPtr = new arma::Mat *)
          (temporary n, temporary d, h)
        else (neighborPtr, distancePtr, h) in
      if treeOwner e then
        let '(n, h) := new h in           (* neighborPtr = new arma::Mat *)
        (temporary n, distancePtr, h)
      else (neighborPtr, distancePtr, h)
    else (neighborPtr, distancePtr, h) in
  h ← (if is_dual e then
         let '(queryTree, h) := new h in  (* aux::BuildTree *)
         delete (temporary queryTree) h   (* delete queryTree *)
       else Some h);
  if RearrangesDataset then
    if is_dual e && treeOwner e then
      h ← delete neighborPtr h; delete distancePtr h
    else if is_dual e then
      h ← delete neighborPtr h; delete distancePtr h
    else if treeOwner e then delete neighborPtr h
    else Some h
  else Some h.

(** The same for [Search(queryTree, ...)]; in naive or single-tree mode
    the call throws before it allocates. *)
Definition Search_queryTree_temporaries (e : RASearch) (h : Store)
    : option Store :=
  if singleMode e || naive e then Some h
  else
    let '(neighborPtr, h) :=
      if treeOwner e && RearrangesDataset then
        let '(n, h) := new h in (temporary n, h)
      else (caller's, h) in
    if treeOwner e && RearrangesDataset then delete neighborPtr h
    else Some h.

(** The same for [Search(k, ...)]. *)
Definition Search_self_temporaries (e : RASearch) (h : Store)
    : option Store :=
  let '(neighborPtr, distancePtr, h) :=
    if RearrangesDataset && treeOwner e then
      let '(d, h) := new h in
      let '(n, h) := new h in
      (temporary n, temporary d, h)
    else (caller's, caller's, h) in
  if treeOwner e && RearrangesDataset then
    h ← delete neighborPtr h; delete distancePtr h
  else Some h.

(** Every object alive was handed out, once. *)
Definition store_ok (h : Store) : Prop :=
  NoDup (alive h) /\ Forall (fun a => (a < next h)%nat) (alive h).

(** *** Speaking of runs *)

(** Whatever way [m] ends, it only appends calls, all of them in [P]. *)
Definition appends {A : Type} (P : Event -> Prop) (m : M A) : Prop :=
  forall w, exists evs,
    trace (fst (m w)) = trace w ++ evs /\ Forall P evs.

(** Calls that are no traversal, and calls that construct no rules. *)
Definition quiet (ev : Event) : Prop := is_traversal ev = false.
Definition not_rules (ev : Event) : Prop := is_rules ev = false.

(** Run in a world whose trees are [f], the first traversal that [m]
    starts, if any, is one of [ok]. *)
Definition starts_from {A : Type} (f : Forest) (ok : Event -> Prop)
    (m : M A) : Prop :=
  forall w, forest w = f -> exists evs,
    trace (fst (m w)) = trace w ++ evs /\
    (forall ev, first_traversal evs = Some ev -> ok ev).

Definition keeps_forest {A : Type} (m : M A) : Prop :=
  forall w, forest (fst (m w)) = forest w.

End Engine.
End RANN.

(** ** Concrete runs *)

(** The instances the runs below use: binary64 arithmetic, the Euclidean
    metric, and small stand-ins for the collaborators of the search. *)
Module Scenario.

Definition DBL_MAX : float := 0x1.fffffffffffffp+1023%float.

(** [double(n)] for [0 <= n < 2^64]: exact below [2^63], and above it by
    halving with the lost bit kept sticky. *)
Definition double_of_size_t (z : Z) : float :=
  if z <? 2 ^ 63 then PrimFloat.of_uint63 (Uint63.of_Z z)
  else PrimFloat.mul
         (PrimFloat.of_uint63
            (Uint63.of_Z (Z.lor (Z.shiftr z 1) (Z.land z 1))))
         2%float.

#[export] Instance binary64 : KMeans.Float64 := {|
  KMeans.double := float;
  KMeans.d_zero := 0%float;
  KMeans.d_one := 1%float;
  KMeans.d_infinity := PrimFloat.infinity;
  KMeans.d_neg_infinity := PrimFloat.neg_infinity;
  KMeans.d_neg_DBL_MAX := PrimFloat.opp DBL_MAX;
  KMeans.d_of_size_t := double_of_size_t;
  KMeans.d_add := PrimFloat.add;
  KMeans.d_sub := PrimFloat.sub;
  KMeans.d_mul := PrimFloat.mul;
  KMeans.d_div := PrimFloat.div;
  KMeans.d_pow2 x := PrimFloat.mul x x;
  KMeans.d_lt := PrimFloat.ltb;
  KMeans.d_gt x y := PrimFloat.ltb y x
|}.

(** [metric::EuclideanDistance]. *)
Definition euclidean (a b : list float) : float :=
  PrimFloat.sqrt
    (fold_left PrimFloat.add
       (zip_with (fun x y => PrimFloat.mul (PrimFloat.sub x y) (PrimFloat.sub x y))
          a b)
       0%float).

#[export] Instance EuclideanDistance : KMeans.Metric := {|
  KMeans.MetricType := unit;
  KMeans.Evaluate _ := euclidean
|}.

(** A policy object that has not been used yet. *)
Definition unused : KMeans.State := KMeans.mkState 0 [] [].

(** Three points on a line, two centroids of which the second has no
    point, and a policy object left over from another clustering. *)
Definition three_points : KMeans.mat := [[0%float]; [1%float]; [10%float]].
Definition two_centroids : KMeans.mat := [[0%float]; [50%float]].
Definition moved_centroids : KMeans.mat := [[3.5%float]; [0%float]].
Definition stale : KMeans.State :=
  KMeans.mkState 7 [1%float; 2%float] [1; 1; 1]%nat.

Import RANN.

(** Nearest-neighbour search over points with [float] coordinates, with a
    tree type that rearranges its data set; a node keeps the data set. *)
#[export] Instance nearest_kd : Template := {|
  double := float;
  Point := list float;
  MetricType := unit;
  NodeData := list (list float);
  WorstDistance := DBL_MAX;
  RearrangesDataset := true;
  node_dataset d := d;
  node_metric _ := tt
|}.

(** Stand-ins for the collaborators.  The ambient state counts base
    cases.  A base case records its reference point as the first
    candidate of the query.  A single-tree traversal records position 0
    for its query; a dual-tree traversal records position 0 for every
    query and counts one sample on the root of the query side.  The
    sampling policy asks for [k] samples and the sampler returns the first
    positions.  A tree is a root over one leaf, and the order of its
    points is the reverse of the caller's. *)
Definition record_candidate (i : nat) (z : Z) (r : Rules nat) : Rules nat :=
  mkRules (default (r_neighbors r) (mat_set (r_neighbors r) 0 i z))
    (default (r_distances r) (mat_set (r_distances r) 0 i 0%float))
    (S (r_state r)).

Definition count_sample (t : Tree) : Tree :=
  let 'Node s d c := t in Node (mkStat (Bound s) (S (NumSamplesMade s))) d c.

Definition touch (f : Forest) (r : TreeRef) : Forest :=
  match r with
  | the_referenceTree => mkForest (count_sample <$> f_reference f) (f_query f)
  | the_queryTree => mkForest (f_reference f) (count_sample <$> f_query f)
  end.

#[export] Instance stand_ins : Collaborators := {|
  X := nat;
  MinimumSamplesReqd n k _ _ := Nat.min n k;
  ObtainDistinctSamples m n x := (map Z.of_nat (seq 0 (Nat.min m n)), x);
  RASearchRules_new _ r := (r, None);
  BaseCase i z r := (record_candidate i z r, None);
  SingleTreeTraverse i _ fr := ((fst fr, record_candidate i 0 (snd fr)), None);
  DualTreeTraverse q _ fr :=
    ((touch (fst fr) q,
      mkRules (fill 0 (r_neighbors (snd fr)))
        (fill 0%float (r_distances (snd fr))) (r_state (snd fr))),
     None);
  partition_order d := rev (seq 0 (length d));
  grow d := Node (mkStat DBL_MAX 0) d [Node (mkStat DBL_MAX 0) d []]
|}.

(** Fresh memory that happens to hold zeros. *)
Definition zeroed : Junk := mkJunk (fun _ _ => 0) (fun _ _ => 0%float).

Definition tau_half : float := 0.5%float.
Definition alpha_95 : float := 0x1.e666666666666p-1%float.

Definition points : MatType := [[0%float]; [1%float]; [2%float]; [100%float]].
Definition queries : MatType := [[1.5%float]; [50%float]].

(** Engines over [points] in the three modes, and a naive one over no
    points at all. *)
Definition naive_engine : RASearch :=
  fst (RASearch_fromSet points true false tau_half alpha_95 false false 20 tt).
Definition single_engine : RASearch :=
  fst (RASearch_fromSet points false true tau_half alpha_95 false false 20 tt).
Definition dual_engine : RASearch :=
  fst (RASearch_fromSet points false false tau_half alpha_95 false false 20 tt).
Definition naive_engine_no_points : RASearch :=
  fst (RASearch_fromSet [] true false tau_half alpha_95 false false 20 tt).

(** A tree of the caller over [points], a root over one leaf, and the
    engine made from it in dual-tree mode; a tree that is a single leaf,
    and the engine made from it in single-tree mode. *)
Definition caller_tree : Tree :=
  Node (mkStat DBL_MAX 0) points [Node (mkStat DBL_MAX 0) points []].
Definition borrowing_engine : RASearch :=
  RASearch_fromTree caller_tree false tau_half alpha_95 false false 20 tt.
Definition leaf_tree : Tree := Node (mkStat DBL_MAX 0) points [].
Definition leaf_engine : RASearch :=
  RASearch_fromTree leaf_tree true tau_half alpha_95 false false 20 tt.

(** A query tree a caller built over [queries] and has searched with
    before: its root has five samples on record. *)
Definition used_queryTree : Tree :=
  Node (mkStat 3%float 5) queries [].

(** What the engine over [points] in dual-tree mode writes when saved. *)
Definition saved_dual_engine : Archive :=
  scalars dual_engine ++
  [("referenceTree", VTree (referenceTree dual_engine));
   ("oldFromNewReferences", VIndices [3; 2; 1; 0]%nat)].

End Scenario.

(** * Facts *)

Section LoopFacts.
Context {S : Type}.

Lemma for_each_app (body : nat -> S -> option S) (l1 l2 : list nat) (s : S) :
  for_each body (l1 ++ l2) s =
  match for_each body l1 s with
  | Some s' => for_each body l2 s'
  | None => None
  end.
Proof.
  revert s. induction l1 as [|i l1 IH]; intros s; simpl; [reflexivity|].
  destruct (body i s); [apply IH | reflexivity].
Qed.

Lemma for_upto_S (n : nat) (body : nat -> S -> option S) (s : S) :
  for_upto (Datatypes.S n) body s =
  match for_upto n body s with
  | Some s' => body n s'
  | None => None
  end.
Proof.
  unfold for_upto. rewrite seq_S, for_each_app. simpl.
  destruct (for_each body (seq 0 n) s); [|reflexivity].
  destruct (body n s0); reflexivity.
Qed.

(** A loop that keeps an invariant at every step runs to its end. *)
Lemma for_upto_invariant (P : nat -> S -> Prop) (n : nat)
    (body : nat -> S -> option S) (s : S) :
  P 0%nat s ->
  (forall i t, (i < n)%nat -> P i t ->
     exists t', body i t = Some t' /\ P (Datatypes.S i) t') ->
  exists s', for_upto n body s = Some s' /\ P n s'.
Proof.
  intros H0 Hstep. induction n as [|n IH].
  - exists s. split; [reflexivity | exact H0].
  - destruct IH as (t & Ht & HP).
    { intros i u Hi. apply Hstep. lia. }
    destruct (Hstep n t (Nat.lt_succ_diag_r n) HP) as (t' & Hb & HP').
    exists t'. rewrite for_upto_S, Ht. split; assumption.
Qed.

End LoopFacts.

Section MatrixFacts.
Context {A : Type}.
Implicit Types m : Mat A.

Lemma set_size_wf fresh r c m : mat_wf (set_size fresh r c m).
Proof.
  unfold mat_wf, set_size; simpl. case_decide as H; [exact H|].
  rewrite length_map, length_seq. reflexivity.
Qed.

Lemma fill_wf v m : mat_wf m -> mat_wf (fill v m).
Proof. unfold mat_wf, fill; simpl. rewrite length_replicate. auto. Qed.

Lemma cell_in_storage (r c j i : nat) :
  (j < r)%nat -> (i < c)%nat -> (i * r + j < r * c)%nat.
Proof. nia. Qed.

Lemma cell_injective (r j i j' i' : nat) :
  (j < r)%nat -> (j' < r)%nat -> (i * r + j = i' * r + j')%nat ->
  i = i' /\ j = j'.
Proof.
  intros Hj Hj' Heq.
  destruct (Nat.lt_trichotomy i i') as [Hlt | [-> | Hgt]]; [| lia |].
  - assert (Datatypes.S i * r <= i' * r)%nat by (apply Nat.mul_le_mono_r; lia).
    simpl in *. lia.
  - assert (Datatypes.S i' * r <= i * r)%nat by (apply Nat.mul_le_mono_r; lia).
    simpl in *. lia.
Qed.

Lemma mat_get_fill v m j i :
  mat_wf m -> (j < n_rows m)%nat -> (i < n_cols m)%nat ->
  mat_get (fill v m) j i = Some v.
Proof.
  intros Hwf Hj Hi. unfold mat_get, fill; simpl.
  rewrite (proj2 (Nat.ltb_lt _ _) Hj), (proj2 (Nat.ltb_lt _ _) Hi). simpl.
  apply lookup_replicate_2. rewrite Hwf. apply cell_in_storage; lia.
Qed.

(** Writing a cell keeps the shape, shows at that cell and nowhere else. *)
Lemma mat_set_spec m j i v :
  mat_wf m -> (j < n_rows m)%nat -> (i < n_cols m)%nat ->
  exists m', mat_set m j i v = Some m' /\
    n_rows m' = n_rows m /\ n_cols m' = n_cols m /\ mat_wf m' /\
    mat_get m' j i = Some v /\
    (forall j' i', (j', i') <> (j, i) -> mat_get m' j' i' = mat_get m j' i').
Proof.
  intros Hwf Hj Hi. unfold mat_set.
  rewrite (proj2 (Nat.ltb_lt _ _) Hj), (proj2 (Nat.ltb_lt _ _) Hi). simpl.
  eexists. split; [reflexivity|]. simpl.
  assert (Hin : (i * n_rows m + j < length (mem m))%nat).
  { rewrite Hwf. apply cell_in_storage; assumption. }
  repeat split.
  - unfold mat_wf; simpl. rewrite length_insert. exact Hwf.
  - unfold mat_get; simpl.
    rewrite (proj2 (Nat.ltb_lt _ _) Hj), (proj2 (Nat.ltb_lt _ _) Hi). simpl.
    apply list_lookup_insert_eq. exact Hin.
  - intros j' i' Hne. unfold mat_get; simpl.
    destruct (j' <? n_rows m)%nat eqn:Hj'; [|reflexivity].
    destruct (i' <? n_cols m)%nat eqn:Hi'; [|reflexivity]. simpl.
    apply list_lookup_insert_ne. intros Heq.
    apply Nat.ltb_lt in Hj'.
    destruct (cell_injective _ _ _ _ _ Hj Hj' Heq) as [-> ->].
    apply Hne. reflexivity.
Qed.

Lemma mat_get_in_range m r c j i :
  has_shape r c m -> (j < r)%nat -> (i < c)%nat -> is_Some (mat_get m j i).
Proof.
  intros (Hr & Hc & Hwf) Hj Hi. unfold mat_get. subst r c.
  rewrite (proj2 (Nat.ltb_lt _ _) Hj), (proj2 (Nat.ltb_lt _ _) Hi). simpl.
  apply lookup_lt_is_Some. rewrite Hwf. apply cell_in_storage; assumption.
Qed.

(** The loop over the rows of one column. *)
Lemma write_column_spec m r c rows q value :
  has_shape r c m -> (rows <= r)%nat -> (q < c)%nat ->
  (forall j, (j < rows)%nat -> is_Some (value j)) ->
  exists m', write_column rows q value m = Some m' /\
    has_shape r c m' /\
    (forall j, (j < rows)%nat -> mat_get m' j q = value j) /\
    (forall j i, i <> q \/ (rows <= j)%nat -> mat_get m' j i = mat_get m j i).
Proof.
  intros Hm Hrows Hq Hval. unfold write_column.
  apply (for_upto_invariant
           (fun n d => has_shape r c d /\
              (forall j, (j < n)%nat -> mat_get d j q = value j) /\
              (forall j i, i <> q \/ (n <= j)%nat ->
                 mat_get d j i = mat_get m j i))).
  - split; [exact Hm|]. split; [intros j Hj; lia | reflexivity].
  - intros n d Hn (Hd & Hdone & Hrest).
    destruct (Hval n Hn) as [v Hv]. rewrite Hv.
    destruct Hd as (Hr & Hc & Hwf).
    destruct (mat_set_spec d n q v Hwf) as (d' & Hset & Hr' & Hc' & Hwf' & Hget & Hoth);
      [lia | lia |].
    exists d'. split; [exact Hset|]. split; [|split].
    + repeat split; [congruence | congruence | exact Hwf'].
    + intros j Hj. destruct (decide (j = n)) as [->|Hne].
      * rewrite Hget. symmetry. exact Hv.
      * rewrite Hoth by congruence. apply Hdone. lia.
    + intros j i Hji. rewrite Hoth.
      * apply Hrest. destruct Hji; [left; assumption | right; lia].
      * intros Heq. inversion Heq. subst. destruct Hji; [congruence | lia].
Qed.

Lemma copy_col_spec (dst src : Mat A) k c c' q i :
  has_shape k c dst -> has_shape k c' src -> (q < c)%nat -> (i < c')%nat ->
  exists dst', copy_col dst q src i = Some dst' /\
    has_shape k c dst' /\
    (forall j, (j < k)%nat -> mat_get dst' j q = mat_get src j i) /\
    (forall j i', i' <> q -> mat_get dst' j i' = mat_get dst j i').
Proof.
  intros Hdst Hsrc Hq Hi. unfold copy_col.
  pose proof Hdst as (Hr & Hc & _). pose proof Hsrc as (Hr' & Hc' & _).
  rewrite Hr, Hc, Hr', Hc'.
  rewrite (proj2 (Nat.ltb_lt _ _) Hq), (proj2 (Nat.ltb_lt _ _) Hi), Nat.eqb_refl.
  simpl.
  destruct (write_column_spec dst k c k q (fun j => mat_get src j i) Hdst)
    as (dst' & Hw & Hs & Hcol & Hrest); [lia | exact Hq | |].
  { intros j Hj. eapply mat_get_in_range; eauto. }
  exists dst'. repeat split; try apply Hs; try assumption.
  intros j i' Hne. apply Hrest. left. exact Hne.
Qed.



End MatrixFacts.

Import RANN.

Section MappingFacts.
Context {D : Type}.

Lemma translated_Some ofn temp j i v :
  translated ofn temp j i = Some v ->
  exists z r, mat_get temp j i = Some z /\ vec_at ofn z = Some r /\ v = Z.of_nat r.
Proof.
  unfold translated. intros Hv.
  destruct (mat_get temp j i) as [z|]; simpl in Hv; [|discriminate].
  destruct (vec_at ofn z) as [r|] eqn:Hr; simpl in Hv; [|discriminate].
  injection Hv as <-. exists z, r. auto.
Qed.

Lemma permutation_lookup ofn n i :
  is_permutation ofn n -> (i < n)%nat ->
  exists q, ofn !! i = Some q /\ (q < n)%nat.
Proof.
  intros (Hlen & _ & Hall) Hi.
  destruct (lookup_lt_is_Some_2 ofn i) as [q Hq]; [lia|].
  exists q. split; [exact Hq|].
  rewrite Forall_forall in Hall. apply Hall.
  eapply list_elem_of_lookup_2. exact Hq.
Qed.

Lemma permutation_injective ofn n i i' q :
  is_permutation ofn n -> ofn !! i = Some q -> ofn !! i' = Some q -> i = i'.
Proof. intros (_ & Hnd & _). eapply NoDup_lookup. exact Hnd. Qed.

(** Both maps applied: every column lands at its original position. *)
Lemma map_both_spec ofnQ ofnR (tempN : Mat Z) (tempD : Mat D) k nq
    (n : Mat Z) (d : Mat D) :
  has_shape k nq n -> has_shape k nq d -> has_shape k nq tempD ->
  holds_positions ofnR tempN k nq -> is_permutation ofnQ nq ->
  exists n' d', map_both ofnQ ofnR tempN tempD n d = Some (n', d') /\
    has_shape k nq n' /\ has_shape k nq d' /\
    keyed_by_original ofnQ ofnR tempN tempD k nq n' d'.
Proof.
  intros Hn Hd HtD Hpos Hperm. unfold map_both.
  destruct (for_upto_invariant
    (fun m (nd : Mat Z * Mat D) =>
       has_shape k nq (fst nd) /\ has_shape k nq (snd nd) /\
       keyed_by_original ofnQ ofnR tempN tempD k m (fst nd) (snd nd))
    (n_cols d)
    (fun i '(n, d) =>
       q ← ofnQ !! i;
       d' ← copy_col d q tempD i;
       n' ← map_column ofnR tempN (n_rows d') i q n;
       Some (n', d'))
    (n, d)) as ([n' d'] & Hrun & Hn' & Hd' & Hkey).
  - simpl. repeat split; try apply Hn; try apply Hd.
    intros i j Hi. lia.
  - intros i [n1 d1] Hi (Hn1 & Hd1 & Hkey). simpl in Hn1, Hd1, Hkey.
    assert (Hi' : (i < nq)%nat) by (destruct Hd as (_ & <- & _); exact Hi).
    destruct (permutation_lookup ofnQ nq i Hperm Hi') as (q & Hq & Hqn).
    rewrite Hq. simpl.
    destruct (copy_col_spec d1 tempD k nq nq q i Hd1 HtD Hqn Hi')
      as (d2 & Hcopy & Hd2 & Hcol & Hrest).
    rewrite Hcopy. simpl.
    unfold map_column.
    destruct (write_column_spec n1 k nq (n_rows d2) q
                (fun j => translated ofnR tempN j i) Hn1)
      as (n2 & Hw & Hn2 & Hwcol & Hwrest).
    { destruct Hd2 as (-> & _). lia. }
    { exact Hqn. }
    { intros j Hj. apply Hpos; [exact Hi'|]. destruct Hd2 as (<- & _). exact Hj. }
    rewrite Hw. simpl. eexists. split; [reflexivity|]. simpl.
    split; [exact Hn2|]. split; [exact Hd2|].
    intros i0 j Hi0 Hj.
    destruct (decide (i0 = i)) as [->|Hne].
    + destruct (Hpos i j Hi' Hj) as [v Hv].
      destruct (translated_Some _ _ _ _ _ Hv) as (z & r & Hz & Hr & ->).
      exists q, z, r. repeat split; try assumption.
      * rewrite Hwcol; [exact Hv|]. destruct Hd2 as (-> & _). exact Hj.
      * apply Hcol. exact Hj.
    + destruct (Hkey i0 j) as (q0 & z & r & Hq0 & Hz & Hr & Hgn & Hgd); [lia | exact Hj |].
      exists q0, z, r. repeat split; try assumption.
      * rewrite Hwrest; [exact Hgn|]. left. intros ->.
        apply Hne. eapply permutation_injective; eauto.
      * rewrite Hrest; [exact Hgd|]. intros ->.
        apply Hne. eapply permutation_injective; eauto.
  - exists n', d'. destruct Hd as (_ & Hc & _). rewrite Hc in *.
    repeat split; try assumption; try apply Hn'; try apply Hd'.
Qed.

(** Only the reference map applied: columns stay where they are. *)
Lemma map_references_spec ofnR (tempN : Mat Z) (tempD : Mat D) k nq (n : Mat Z) :
  has_shape k nq n -> holds_positions ofnR tempN k nq ->
  exists n', map_references ofnR tempN n = Some n' /\
    has_shape k nq n' /\
    keyed_by_original (seq 0 nq) ofnR tempN tempD k nq n' tempD.
Proof.
  intros Hn Hpos. unfold map_references.
  destruct (for_upto_invariant
    (fun m (n' : Mat Z) =>
       has_shape k nq n' /\
       keyed_by_original (seq 0 nq) ofnR tempN tempD k m n' tempD)
    (n_cols n)
    (fun i n0 => map_column ofnR tempN (n_rows n0) i i n0) n)
    as (n' & Hrun & Hn' & Hkey).
  - split; [exact Hn|]. intros i j Hi. lia.
  - intros i n1 Hi (Hn1 & Hkey).
    assert (Hi' : (i < nq)%nat) by (destruct Hn as (_ & <- & _); exact Hi).
    unfold map_column.
    destruct (write_column_spec n1 k nq (n_rows n1) i
                (fun j => translated ofnR tempN j i) Hn1)
      as (n2 & Hw & Hn2 & Hwcol & Hwrest).
    { destruct Hn1 as (-> & _). lia. }
    { exact Hi'. }
    { intros j Hj. apply Hpos; [exact Hi'|]. destruct Hn1 as (<- & _). exact Hj. }
    exists n2. split; [exact Hw|]. split; [exact Hn2|].
    intros i0 j Hi0 Hj.
    destruct (decide (i0 = i)) as [->|Hne].
    + destruct (Hpos i j Hi' Hj) as [v Hv].
      destruct (translated_Some _ _ _ _ _ Hv) as (z & r & Hz & Hr & ->).
      exists i, z, r. repeat split; try assumption.
      * apply lookup_seq_lt. exact Hi'.
      * rewrite Hwcol; [exact Hv|]. destruct Hn1 as (-> & _). exact Hj.
    + destruct (Hkey i0 j) as (q0 & z & r & Hq0 & Hz & Hr & Hgn & Hgd); [lia | exact Hj |].
      exists q0, z, r. repeat split; try assumption.
      rewrite Hwrest; [exact Hgn|]. left. intros ->.
      apply lookup_seq in Hq0 as [Hq0 _]. simpl in Hq0. lia.
  - exists n'. destruct Hn as (_ & Hc & _). rewrite Hc in *.
    repeat split; try assumption; try apply Hn'.
Qed.

(** Only the query map applied: columns move, indices stay. *)
Lemma map_queries_spec ofnQ (tempN : Mat Z) (tempD : Mat D) k nq
    (n : Mat Z) (d : Mat D) :
  has_shape k nq n -> has_shape k nq d ->
  has_shape k nq tempN -> has_shape k nq tempD ->
  is_permutation ofnQ nq ->
  exists n' d', map_queries ofnQ tempN tempD n d = Some (n', d') /\
    has_shape k nq n' /\ has_shape k nq d' /\
    relocated ofnQ tempN tempD k nq n' d'.
Proof.
  intros Hn Hd HtN HtD Hperm. unfold map_queries.
  destruct (for_upto_invariant
    (fun m (nd : Mat Z * Mat D) =>
       has_shape k nq (fst nd) /\ has_shape k nq (snd nd) /\
       relocated ofnQ tempN tempD k m (fst nd) (snd nd))
    (n_cols d)
    (fun i '(n, d) =>
       queryMapping ← ofnQ !! i;
       d' ← copy_col d queryMapping tempD i;
       n' ← copy_col n queryMapping tempN i;
       Some (n', d'))
    (n, d)) as ([n' d'] & Hrun & Hn' & Hd' & Hrel).
  - simpl. repeat split; try apply Hn; try apply Hd.
    intros i j Hi. lia.
  - intros i [n1 d1] Hi (Hn1 & Hd1 & Hrel). simpl in Hn1, Hd1, Hrel.
    assert (Hi' : (i < nq)%nat) by (destruct Hd as (_ & <- & _); exact Hi).
    destruct (permutation_lookup ofnQ nq i Hperm Hi') as (q & Hq & Hqn).
    rewrite Hq. simpl.
    destruct (copy_col_spec d1 tempD k nq nq q i Hd1 HtD Hqn Hi')
      as (d2 & Hcopy & Hd2 & Hcol & Hrest).
    rewrite Hcopy. simpl.
    destruct (copy_col_spec n1 tempN k nq nq q i Hn1 HtN Hqn Hi')
      as (n2 & Hcopy' & Hn2 & Hcol' & Hrest').
    rewrite Hcopy'. simpl. eexists. split; [reflexivity|]. simpl.
    split; [exact Hn2|]. split; [exact Hd2|].
    intros i0 j Hi0 Hj.
    destruct (decide (i0 = i)) as [->|Hne].
    + exists q. split; [exact Hq|]. split; [apply Hcol' | apply Hcol]; exact Hj.
    + destruct (Hrel i0 j) as (q0 & Hq0 & Hgn & Hgd); [lia | exact Hj |].
      exists q0. split; [exact Hq0|].
      assert (Hqq : q0 <> q).
      { intros ->. apply Hne. eapply permutation_injective; eauto. }
      rewrite Hrest', Hrest by exact Hqq. split; assumption.
  - exists n', d'. destruct Hd as (_ & Hc & _). rewrite Hc in *.
    repeat split; try assumption; try apply Hn'; try apply Hd'.
Qed.


End MappingFacts.

Section TreeFacts.
Context `{T : Template}.

(** Induction on trees, with the property available for every child. *)
Lemma Tree_induction (P : Tree -> Prop) :
  (forall s d c, Forall P c -> P (Node s d c)) -> forall t, P t.
Proof.
  intros Hnode. fix IH 1. intros [s d c]. apply Hnode.
  induction c as [|t c IHc]; constructor; [apply IH | exact IHc].
Qed.

Lemma ResetQueryTree_is_reset (t : Tree) : is_reset (ResetQueryTree t).
Proof.
  unfold is_reset. induction t as [s d c IH] using Tree_induction. simpl.
  constructor; [split; reflexivity|].
  apply Forall_flat_map. rewrite Forall_map. exact IH.
Qed.

Lemma ResetQueryTree_skeleton (t : Tree) :
  skeleton (ResetQueryTree t) = skeleton t.
Proof.
  induction t as [s d c IH] using Tree_induction. simpl.
  rewrite length_map. f_equal; f_equal.
  - induction IH as [|t c Ht _ IHc]; simpl; [reflexivity|].
    rewrite Ht, IHc. reflexivity.
  - induction IH as [|t c Ht _ IHc]; simpl; [reflexivity|].
    rewrite Ht, IHc. reflexivity.
Qed.

(** X16.  Resetting twice is resetting once, and the trees that a reset
    leaves as they are are exactly those in which every statistic has its
    initial value. *)
Theorem ResetQueryTree_idempotent (t : Tree) :
  ResetQueryTree (ResetQueryTree t) = ResetQueryTree t /\
  (is_reset t <-> ResetQueryTree t = t).
Proof.
  assert (Hfix : forall u : Tree, is_reset u -> ResetQueryTree u = u).
  { intros u. induction u as [s d c IH] using Tree_induction.
    unfold is_reset. simpl. intros Hall.
    apply Forall_cons in Hall as [[Hb Hn] Hc].
    destruct s as [b n]. simpl in Hb, Hn. subst b n. f_equal.
    apply Forall_flat_map in Hc.
    induction c as [|u c IHc]; [reflexivity|].
    apply Forall_cons in IH as [IHu IH].
    apply Forall_cons in Hc as [Hu Hc].
    simpl. rewrite (IHu Hu), (IHc IH Hc). reflexivity. }
  split; [|split].
  - apply Hfix, ResetQueryTree_is_reset.
  - apply Hfix.
  - intros <-. apply ResetQueryTree_is_reset.
Qed.
End TreeFacts.

Section SearchFacts.
Context `{C : Collaborators}.

(** *** What a run adds to the list of calls *)

Lemma appends_pure {A : Type} P (a : A) : appends P (pure a).
Proof. intros w. exists []. simpl. rewrite app_nil_r. auto. Qed.

Lemma appends_throw {A : Type} P ex : appends P (@throw _ _ A ex).
Proof. intros w. exists []. simpl. rewrite app_nil_r. auto. Qed.

Lemma appends_from_option {A : Type} P ex (o : option A) :
  appends P (from_option ex o).
Proof. intros w. exists []. simpl. rewrite app_nil_r. auto. Qed.

Lemma appends_bind {A B : Type} P (m : M A) (k : A -> M B) :
  appends P m -> (forall a, appends P (k a)) -> appends P (bind m k).
Proof.
  intros Hm Hk w. unfold bind. destruct (Hm w) as (evs & Htr & HP).
  destruct (m w) as [w' [a|ex]]; simpl in *.
  - destruct (Hk a w') as (evs' & Htr' & HP').
    exists (evs ++ evs'). rewrite Htr', Htr, app_assoc.
    split; [reflexivity | apply Forall_app; auto].
  - exists evs. auto.
Qed.

Lemma appends_call_rules P ev op :
  (forall w, P (ev w)) -> appends P (call_rules ev op).
Proof.
  intros HP w. unfold call_rules. destruct (op (rules w)) as [r ex]. simpl.
  exists [ev w]. auto.
Qed.

Lemma appends_call_traverser P ev op :
  (forall w, P (ev w)) -> appends P (call_traverser ev op).
Proof.
  intros HP w. unfold call_traverser.
  destruct (op (forest w, rules w)) as [[f r] ex]. simpl.
  exists [ev w]. auto.
Qed.

Lemma appends_for_each {T : Type} P (body : T -> M unit) (idx : list T) :
  (forall t, appends P (body t)) -> appends P (for_each_M body idx).
Proof.
  intros Hb. induction idx as [|t idx IH]; simpl.
  - apply appends_pure.
  - apply appends_bind; [apply Hb | intros _; exact IH].
Qed.

Lemma appends_obtain_distinct_samples P m n :
  (forall l, P (EvSamples m n l)) -> appends P (obtain_distinct_samples m n).
Proof.
  intros HP w. unfold obtain_distinct_samples.
  destruct (ObtainDistinctSamples m n (r_state (rules w))) as [l x']. simpl.
  exists [EvSamples m n l]. auto.
Qed.

Lemma appends_single_traverse (P : Event -> Prop) i :
  (forall t, P (EvSingleTraverse i t)) -> appends P (single_traverse i).
Proof.
  intros HP w. unfold single_traverse. destruct (f_reference (forest w)).
  - apply appends_call_traverser. auto.
  - exists []. simpl. rewrite app_nil_r. auto.
Qed.

Lemma appends_dual_traverse (P : Event -> Prop) q r :
  (forall a b, P (EvDualTraverse a b)) -> appends P (dual_traverse q r).
Proof.
  intros HP w. unfold dual_traverse.
  destruct (tree_at (forest w) q); [destruct (tree_at (forest w) r)|];
    try solve [exists []; simpl; rewrite app_nil_r; auto].
  apply appends_call_traverser. auto.
Qed.

Lemma first_traversal_app (l1 l2 : list Event) :
  first_traversal (l1 ++ l2) =
  match first_traversal l1 with
  | Some ev => Some ev
  | None => first_traversal l2
  end.
Proof.
  unfold first_traversal. induction l1 as [|ev l1 IH]; simpl; [reflexivity|].
  destruct (is_traversal ev); [reflexivity | exact IH].
Qed.

Lemma first_traversal_quiet (l : list Event) :
  Forall quiet l -> first_traversal l = None.
Proof.
  unfold first_traversal. induction 1 as [|ev l Hq _ IH]; simpl; [reflexivity|].
  rewrite Hq. exact IH.
Qed.

(** The rules object cannot reach the trees. *)
Lemma call_rules_forest ev op w : forest (fst (call_rules ev op w)) = forest w.
Proof. unfold call_rules. destruct (op (rules w)) as [r ex]. reflexivity. Qed.

Lemma call_rules_trace ev op w :
  trace (fst (call_rules ev op w)) = trace w ++ [ev w].
Proof. unfold call_rules. destruct (op (rules w)) as [r ex]. reflexivity. Qed.

(** A dual-tree traversal, if it starts, starts from the trees of the
    world it is run in. *)
Lemma dual_traverse_first q r w :
  exists evs,
    trace (fst (dual_traverse q r w)) = trace w ++ evs /\
    (evs = [] \/
     evs = [EvDualTraverse (tree_at (forest w) q) (tree_at (forest w) r)]).
Proof.
  unfold dual_traverse.
  destruct (tree_at (forest w) q) as [tq|] eqn:Hq;
    [destruct (tree_at (forest w) r) as [tr|] eqn:Hr|];
    try solve [exists []; simpl; rewrite app_nil_r; auto].
  unfold call_traverser.
  destruct (DualTreeTraverse q r (forest w, rules w)) as [[f r'] ex]. simpl.
  eexists. split; [reflexivity|]. right. rewrite Hq, Hr. reflexivity.
Qed.

(** A sequence of single-tree traversals, if it starts, starts with
    query 0 on the reference tree of the world it is run in. *)
Lemma single_traversals_first n w :
  exists evs,
    trace (fst (for_upto_M n single_traverse w)) = trace w ++ evs /\
    (evs = [] \/
     exists rest, evs = EvSingleTraverse 0 (f_reference (forest w)) :: rest).
Proof.
  unfold for_upto_M. destruct n as [|n]; simpl.
  { exists []. rewrite app_nil_r. auto. }
  unfold bind at 1. unfold single_traverse at 1.
  destruct (f_reference (forest w)) as [t|] eqn:Ht.
  - unfold call_traverser.
    destruct (SingleTreeTraverse 0 the_referenceTree (forest w, rules w))
      as [[f r] ex]. destruct ex as [ex|]; simpl.
    + eexists. split; [reflexivity|]. right. rewrite Ht. eauto.
    + destruct (appends_for_each (fun _ => True) single_traverse (seq 1 n)
                  (fun i => appends_single_traverse _ i (fun _ => I))
                  (mkWorld r f (trace w ++ [EvSingleTraverse 0 (f_reference (forest w))])))
        as (evs & Htr & _).
      simpl in Htr. rewrite Ht in *. rewrite Htr, <- app_assoc. simpl.
      eexists. split; [reflexivity|]. right. eauto.
  - exists []. simpl. rewrite app_nil_r. auto.
Qed.

Lemma starts_from_quiet {A : Type} f ok (m : M A) :
  appends quiet m -> starts_from f ok m.
Proof.
  intros Hm w _. destruct (Hm w) as (evs & Htr & Hq).
  exists evs. split; [exact Htr|].
  intros ev. rewrite (first_traversal_quiet evs Hq). discriminate.
Qed.

Lemma starts_from_after {A B : Type} f ok (m : M A) (k : A -> M B) :
  appends quiet m -> keeps_forest m ->
  (forall a, starts_from f ok (k a)) -> starts_from f ok (bind m k).
Proof.
  intros Hm Hf Hk w Hw. unfold bind.
  destruct (Hm w) as (evs & Htr & Hq). specialize (Hf w).
  destruct (m w) as [w' [a|ex]]; simpl in *.
  - destruct (Hk a w') as (evs' & Htr' & Hok); [congruence|].
    exists (evs ++ evs'). rewrite Htr', Htr, app_assoc. split; [reflexivity|].
    intros ev. rewrite first_traversal_app, (first_traversal_quiet evs Hq).
    apply Hok.
  - exists evs. split; [exact Htr|].
    intros ev. rewrite (first_traversal_quiet evs Hq). discriminate.
Qed.

Lemma starts_from_before {A B : Type} f ok (m : M A) (k : A -> M B) :
  starts_from f ok m -> (forall a, appends quiet (k a)) ->
  starts_from f ok (bind m k).
Proof.
  intros Hm Hk w Hw. unfold bind.
  destruct (Hm w Hw) as (evs & Htr & Hok).
  destruct (m w) as [w' [a|ex]]; simpl in *.
  - destruct (Hk a w') as (evs' & Htr' & Hq).
    exists (evs ++ evs'). rewrite Htr', Htr, app_assoc. split; [reflexivity|].
    intros ev. rewrite first_traversal_app, (first_traversal_quiet evs' Hq).
    destruct (first_traversal evs); [apply Hok | discriminate].
  - exists evs. split; [exact Htr | exact Hok].
Qed.

Lemma starts_from_dual f q r :
  starts_from f
    (fun ev => ev = EvDualTraverse (tree_at f q) (tree_at f r))
    (dual_traverse q r).
Proof.
  intros w <-. destruct (dual_traverse_first q r w) as (evs & Htr & [-> | ->]).
  - exists []. split; [exact Htr | discriminate].
  - eexists. split; [exact Htr|]. simpl. intros ev [= <-]. reflexivity.
Qed.

Lemma starts_from_singles f n :
  starts_from f (fun ev => ev = EvSingleTraverse 0 (f_reference f))
    (for_upto_M n single_traverse).
Proof.
  intros w <-.
  destruct (single_traversals_first n w) as (evs & Htr & [-> | [rest ->]]).
  - exists []. split; [exact Htr | discriminate].
  - eexists. split; [exact Htr|]. simpl. intros ev [= <-]. reflexivity.
Qed.

Lemma starts_from_weaken {A : Type} f (ok ok' : Event -> Prop) (m : M A) :
  (forall ev, ok ev -> ok' ev) -> starts_from f ok m -> starts_from f ok' m.
Proof.
  intros Himp Hm w Hw. destruct (Hm w Hw) as (evs & Htr & Hok).
  exists evs. split; [exact Htr|]. intros ev Hev. apply Himp, Hok, Hev.
Qed.

Lemma appends_new_rules args : appends quiet (new_rules args).
Proof. apply appends_call_rules. reflexivity. Qed.

Lemma keeps_forest_new_rules args : keeps_forest (new_rules args).
Proof. intros w. apply call_rules_forest. Qed.

Lemma keeps_forest_from_option {A : Type} ex (o : option A) :
  keeps_forest (from_option ex o).
Proof. intros w. reflexivity. Qed.

Lemma appends_base_case i z : appends quiet (base_case i z).
Proof. apply appends_call_rules. reflexivity. Qed.

Lemma appends_log_average n : appends quiet (log_average n).
Proof.
  unfold log_average. destruct (n =? 0)%nat;
    [apply appends_throw | apply appends_pure].
Qed.

Lemma appends_naive_search e querySet k :
  appends quiet (naive_search e querySet k).
Proof.
  unfold naive_search.
  apply appends_bind; [apply appends_from_option | intros referenceSet].
  apply appends_bind; [apply appends_new_rules | intros _].
  apply appends_bind;
    [apply appends_obtain_distinct_samples; reflexivity | intros samples].
  apply appends_for_each. intros i.
  apply appends_for_each. intros z. apply appends_base_case.
Qed.

Lemma starts_from_single_search f e querySet :
  starts_from f (fun ev => ev = EvSingleTraverse 0 (f_reference f))
    (single_search e querySet).
Proof.
  unfold single_search.
  apply starts_from_after;
    [apply appends_from_option | apply keeps_forest_from_option | intros rs].
  apply starts_from_after;
    [apply appends_new_rules | apply keeps_forest_new_rules | intros _].
  apply starts_from_after.
  { intros w. exists []. simpl. rewrite app_nil_r. auto. }
  { intros w. reflexivity. }
  intros root. destruct (IsLeaf root).
  - apply starts_from_quiet, appends_pure.
  - apply starts_from_before; [apply starts_from_singles | intros _].
    apply appends_log_average.
Qed.

Lemma starts_from_dual_search f e queryTree n :
  starts_from f (fun ev => ev = EvDualTraverse (f_query f) (f_reference f))
    (dual_search e queryTree n).
Proof.
  unfold dual_search.
  apply starts_from_after;
    [apply appends_from_option | apply keeps_forest_from_option | intros rs].
  apply starts_from_after;
    [apply appends_new_rules | apply keeps_forest_new_rules | intros _].
  apply starts_from_before; [| intros _; apply appends_log_average].
  apply (starts_from_dual f the_queryTree the_referenceTree).
Qed.

Lemma starts_from_self_search f e referenceSet k :
  starts_from f
    (fun ev => ev = EvSingleTraverse 0 (f_reference f) \/
               ev = EvDualTraverse (f_reference f) (f_reference f))
    (self_search e referenceSet k).
Proof.
  unfold self_search.
  apply starts_from_after;
    [apply appends_new_rules | apply keeps_forest_new_rules | intros _].
  destruct (naive e); [|destruct (singleMode e)].
  - apply starts_from_quiet.
    apply appends_bind;
      [apply appends_obtain_distinct_samples; reflexivity | intros samples].
    apply appends_for_each. intros i.
    apply appends_for_each. intros j. apply appends_base_case.
  - eapply starts_from_weaken; [|apply starts_from_singles]. auto.
  - eapply starts_from_weaken;
      [|apply (starts_from_dual f the_referenceTree the_referenceTree)].
    auto.
Qed.

(** The calls of a search are those of its traversal: the final pass
    calls nobody. *)
Lemma Search_querySet_calls e querySet k neighbors distances junk x :
  calls (Search_querySet e querySet k neighbors distances junk x) =
  trace (t_world (Search_querySet_traverse e querySet k neighbors distances
                    junk x)).
Proof.
  unfold Search_querySet.
  destruct (t_ended _); [|reflexivity].
  repeat match goal with
         | |- context [if ?b then _ else _] => destruct b; simpl
         | |- context [match ?o with Some _ => _ | None => _ end] =>
             destruct o as [[? ?]|] || destruct o; simpl
         end; reflexivity.
Qed.

Lemma Search_queryTree_calls e queryTree k neighbors distances junk x :
  singleMode e || naive e = false ->
  calls (Search_queryTree e queryTree k neighbors distances junk x) =
  trace (t_world (Search_queryTree_traverse e queryTree k neighbors distances
                    junk x)).
Proof.
  intros Hmode. unfold Search_queryTree. rewrite Hmode.
  destruct (t_ended _); [|reflexivity].
  repeat match goal with
         | |- context [if ?b then _ else _] => destruct b; simpl
         | |- context [match ?o with Some _ => _ | None => _ end] =>
             destruct o; simpl
         end; reflexivity.
Qed.

Lemma Search_self_calls e referenceSet k neighbors distances junk x :
  deref_referenceSet e = Some referenceSet ->
  calls (Search_self e k neighbors distances junk x) =
  trace (t_world (Search_self_traverse e referenceSet k neighbors distances
                    junk x)).
Proof.
  intros Hset. unfold Search_self. rewrite Hset.
  destruct (t_ended _).
  - repeat match goal with
           | |- context [if ?b then _ else _] => destruct b; simpl
           | |- context [match ?o with Some _ => _ | None => _ end] =>
               destruct o as [[? ?]|]; simpl
           end; reflexivity.
  - destruct (RearrangesDataset && treeOwner e); reflexivity.
Qed.

Lemma Search_queryTree_first e queryTree k neighbors distances junk x ev :
  first_traversal
    (calls (Search_queryTree e queryTree k neighbors distances junk x))
    = Some ev ->
  ev = EvDualTraverse (Some queryTree) (referenceTree e).
Proof.
  destruct (singleMode e || naive e) eqn:Hmode.
  { unfold Search_queryTree. rewrite Hmode. discriminate. }
  rewrite Search_queryTree_calls by exact Hmode.
  unfold Search_queryTree_traverse.
  match goal with |- context [?m ?w] =>
    match type of (m w) with (World X * result unit)%type =>
      assert (Hs : starts_from (forest w)
                     (fun ev => ev = EvDualTraverse (Some queryTree)
                                       (referenceTree e)) m);
      [| destruct (Hs w eq_refl) as (evs & Htr & Hok);
         destruct (m w) as [w1 r]; simpl in *; rewrite Htr; apply Hok]
    end end.
  apply starts_from_after;
    [apply appends_from_option | apply keeps_forest_from_option | intros rs].
  apply starts_from_after;
    [apply appends_new_rules | apply keeps_forest_new_rules | intros _].
  apply (starts_from_dual (mkForest (referenceTree e) (Some queryTree))
           the_queryTree the_referenceTree).
Qed.

Lemma Search_querySet_first e querySet k neighbors distances junk x ev :
  first_traversal
    (calls (Search_querySet e querySet k neighbors distances junk x))
    = Some ev ->
  ev = EvSingleTraverse 0 (referenceTree e) \/
  ev = EvDualTraverse (Some (fst (fst (BuildTree querySet []))))
         (referenceTree e).
Proof.
  rewrite Search_querySet_calls. unfold Search_querySet_traverse.
  destruct (BuildTree querySet []) as [[tq m] q]. simpl.
  destruct (is_dual e) eqn:Hd; unfold is_dual in Hd.
  - destruct (naive e); [destruct (singleMode e); discriminate Hd|].
    destruct (singleMode e); [discriminate Hd|].
    match goal with |- context [dual_search ?a ?b ?c ?w] =>
      destruct (starts_from_dual_search (forest w) a b c w eq_refl)
        as (evs & Htr & Hok);
      destruct (dual_search a b c w) as [w1 r]; simpl in *
    end.
    rewrite Htr. simpl. intros Hev. right. apply Hok. exact Hev.
  - destruct (naive e).
    + match goal with |- context [naive_search ?a ?b ?c ?w] =>
        destruct (appends_naive_search a b c w) as (evs & Htr & Hq);
        destruct (naive_search a b c w) as [w1 r]; simpl in *
      end.
      rewrite Htr. simpl. rewrite (first_traversal_quiet evs Hq). discriminate.
    + destruct (singleMode e); [|discriminate Hd].
      match goal with |- context [single_search ?a ?b ?w] =>
        destruct (starts_from_single_search (forest w) a b w eq_refl)
          as (evs & Htr & Hok);
        destruct (single_search a b w) as [w1 r]; simpl in *
      end.
      rewrite Htr. simpl. intros Hev. left. apply Hok. exact Hev.
Qed.

Lemma Search_self_first e k neighbors distances junk x ev :
  first_traversal (calls (Search_self e k neighbors distances junk x))
    = Some ev ->
  ev = EvSingleTraverse 0 (referenceTree e) \/
  ev = EvDualTraverse (referenceTree e) (referenceTree e).
Proof.
  destruct (deref_referenceSet e) as [referenceSet|] eqn:Hset.
  2: { unfold Search_self. rewrite Hset. discriminate. }
  rewrite (Search_self_calls e referenceSet) by exact Hset.
  unfold Search_self_traverse.
  match goal with |- context [self_search ?a ?b ?c ?w] =>
    destruct (starts_from_self_search (forest w) a b c w eq_refl)
      as (evs & Htr & Hok);
    destruct (self_search a b c w) as [w1 r]; simpl in *
  end.
  rewrite Htr. simpl. apply Hok.
Qed.

(** C6, as the code has it.  [ResetQueryTree] applied to a node leaves
    every node of that subtree with [Bound] at the worst sentinel and
    [NumSamplesMade] at 0, and changes nothing else in it.  No [Search]
    entry point applies it: the first traversal of a search is handed
    the reference tree as the engine holds it and the query tree as the
    caller passed it (or as [BuildTree] returned it), statistics
    included. *)
Theorem reset_is_left_to_the_caller :
  (forall t : Tree,
     is_reset (ResetQueryTree t) /\
     skeleton (ResetQueryTree t) = skeleton t) /\
  (forall e queryTree k neighbors distances junk x ev,
     first_traversal
       (calls (Search_queryTree e queryTree k neighbors distances junk x))
       = Some ev ->
     ev = EvDualTraverse (Some queryTree) (referenceTree e)) /\
  (forall e querySet k neighbors distances junk x ev,
     first_traversal
       (calls (Search_querySet e querySet k neighbors distances junk x))
       = Some ev ->
     ev = EvSingleTraverse 0 (referenceTree e) \/
     ev = EvDualTraverse (Some (fst (fst (BuildTree querySet []))))
            (referenceTree e)) /\
  (forall e k neighbors distances junk x ev,
     first_traversal (calls (Search_self e k neighbors distances junk x))
       = Some ev ->
     ev = EvSingleTraverse 0 (referenceTree e) \/
     ev = EvDualTraverse (referenceTree e) (referenceTree e)).
Proof.
  split; [|split; [|split]].
  - intros t. split;
      [apply ResetQueryTree_is_reset | apply ResetQueryTree_skeleton].
  - intros. eapply Search_queryTree_first. eassumption.
  - intros. eapply Search_querySet_first. eassumption.
  - intros. eapply Search_self_first. eassumption.
Qed.

(** Search with a query set, over a tree type that rearranges points and
    a reference tree the engine owns: reference indices go through the
    reference map, and in dual-tree mode columns go to the positions the
    map of the query tree gives. *)
Lemma Search_querySet_keyed (e : RASearch) (querySet : MatType) (k : nat)
    (neighbors : Mat Z) (distances : Mat double) (junk : Junk) (x : X) :
  let t := Search_querySet_traverse e querySet k neighbors distances junk x in
  let o := Search_querySet e querySet k neighbors distances junk x in
  let nq := length querySet in
  RearrangesDataset = true -> treeOwner e = true ->
  t_ended t = Ok tt ->
  holds_positions (oldFromNewReferences e) (t_neighbors t) k nq ->
  (is_dual e = true ->
     has_shape k nq (t_distances t) /\
     is_permutation (t_oldFromNewQueries t) nq) ->
  ended o = Ok tt /\
  keyed_by_original
    (if is_dual e then t_oldFromNewQueries t else seq 0 nq)
    (oldFromNewReferences e) (t_neighbors t) (t_distances t) k nq
    (neighbors_out o) (distances_out o).
Proof.
  intros t o nq HR Hown Hok Hpos Hdual.
  subst o. unfold Search_querySet. fold t. rewrite Hok, HR, Hown. simpl.
  destruct (is_dual e) eqn:Hd; simpl.
  - destruct (Hdual eq_refl) as (HtD & Hperm).
    destruct (map_both_spec (t_oldFromNewQueries t) (oldFromNewReferences e)
                (t_neighbors t) (t_distances t) k nq
                (set_size (junk_index junk 1) k nq neighbors)
                (set_size (junk_distance junk 1) k nq distances))
      as (n' & d' & Hmap & _ & _ & Hkey); try assumption.
    { repeat split. apply set_size_wf. }
    { repeat split. apply set_size_wf. }
    fold nq. rewrite Hmap. simpl. split; [reflexivity | exact Hkey].
  - destruct (map_references_spec (oldFromNewReferences e) (t_neighbors t)
                (t_distances t) k nq
                (set_size (junk_index junk 1) k nq neighbors))
      as (n' & Hmap & _ & Hkey); try assumption.
    { repeat split. apply set_size_wf. }
    fold nq. rewrite Hmap. simpl.
    split; [reflexivity | exact Hkey].
Qed.

(** X14.  The same search over a reference tree of the caller: the
    columns still go to the positions the map of the query tree gives,
    and the reference indices are those of the caller's tree. *)
Lemma Search_querySet_relocated (e : RASearch) (querySet : MatType) (k : nat)
    (neighbors : Mat Z) (distances : Mat double) (junk : Junk) (x : X) :
  let t := Search_querySet_traverse e querySet k neighbors distances junk x in
  let o := Search_querySet e querySet k neighbors distances junk x in
  let nq := length querySet in
  RearrangesDataset = true -> treeOwner e = false -> is_dual e = true ->
  t_ended t = Ok tt ->
  has_shape k nq (t_neighbors t) -> has_shape k nq (t_distances t) ->
  is_permutation (t_oldFromNewQueries t) nq ->
  ended o = Ok tt /\
  relocated (t_oldFromNewQueries t) (t_neighbors t) (t_distances t) k nq
    (neighbors_out o) (distances_out o).
Proof.
  intros t o nq HR Hown Hd Hok HtN HtD Hperm.
  subst o. unfold Search_querySet. fold t. rewrite Hok, HR, Hown, Hd. simpl.
  destruct (map_queries_spec (t_oldFromNewQueries t)
              (t_neighbors t) (t_distances t) k nq
              (set_size (junk_index junk 1) k nq neighbors)
              (set_size (junk_distance junk 1) k nq distances))
    as (n' & d' & Hmap & _ & _ & Hrel); try assumption.
  { repeat split. apply set_size_wf. }
  { repeat split. apply set_size_wf. }
  fold nq. rewrite Hmap. simpl. split; [reflexivity | exact Hrel].
Qed.

(** Search with a query tree of the caller: only reference indices are
    translated. *)
Lemma Search_queryTree_keyed (e : RASearch) (queryTree : Tree) (k : nat)
    (neighbors : Mat Z) (distances : Mat double) (junk : Junk) (x : X) :
  let t := Search_queryTree_traverse e queryTree k neighbors distances junk x in
  let o := Search_queryTree e queryTree k neighbors distances junk x in
  let nq := length (Dataset queryTree) in
  RearrangesDataset = true -> treeOwner e = true ->
  singleMode e = false -> naive e = false ->
  t_ended t = Ok tt ->
  holds_positions (oldFromNewReferences e) (t_neighbors t) k nq ->
  ended o = Ok tt /\
  keyed_by_original (seq 0 nq) (oldFromNewReferences e)
    (t_neighbors t) (t_distances t) k nq
    (neighbors_out o) (distances_out o).
Proof.
  intros t o nq HR Hown Hs Hn Hok Hpos.
  subst o. unfold Search_queryTree. fold t. rewrite Hs, Hn, Hok, HR, Hown. simpl.
  destruct (map_references_spec (oldFromNewReferences e) (t_neighbors t)
              (t_distances t) k nq
              (set_size (junk_index junk 1) k nq neighbors))
    as (n' & Hmap & _ & Hkey); try assumption.
  { repeat split. apply set_size_wf. }
  fold nq. rewrite Hmap. simpl. split; [reflexivity | exact Hkey].
Qed.

(** Search of the reference set against itself: the reference map is
    applied to the indices and to the columns. *)
Lemma Search_self_keyed (e : RASearch) (referenceSet : MatType) (k : nat)
    (neighbors : Mat Z) (distances : Mat double) (junk : Junk) (x : X) :
  let t := Search_self_traverse e referenceSet k neighbors distances junk x in
  let o := Search_self e k neighbors distances junk x in
  let n := length referenceSet in
  RearrangesDataset = true -> treeOwner e = true ->
  deref_referenceSet e = Some referenceSet ->
  t_ended t = Ok tt ->
  holds_positions (oldFromNewReferences e) (t_neighbors t) k n ->
  has_shape k n (t_distances t) ->
  is_permutation (oldFromNewReferences e) n ->
  ended o = Ok tt /\
  keyed_by_original (oldFromNewReferences e) (oldFromNewReferences e)
    (t_neighbors t) (t_distances t) k n
    (neighbors_out o) (distances_out o).
Proof.
  intros t o n HR Hown Hset Hok Hpos HtD Hperm.
  subst o. unfold Search_self. rewrite Hset. fold t. rewrite Hok, HR, Hown. simpl.
  destruct (map_both_spec (oldFromNewReferences e) (oldFromNewReferences e)
              (t_neighbors t) (t_distances t) k n
              (set_size (junk_index junk 1) k n neighbors)
              (set_size (junk_distance junk 1) k n distances))
    as (n' & d' & Hmap & _ & _ & Hkey); try assumption.
  { repeat split. apply set_size_wf. }
  { repeat split. apply set_size_wf. }
  fold n. rewrite Hmap. simpl. split; [reflexivity | exact Hkey].
Qed.

(** In dual-tree mode the map used for the columns is the one
    [BuildTree] filled for the query tree. *)
Lemma Search_querySet_query_map (e : RASearch) (querySet : MatType) (k : nat)
    (neighbors : Mat Z) (distances : Mat double) (junk : Junk) (x : X) :
  is_dual e = true ->
  t_oldFromNewQueries
    (Search_querySet_traverse e querySet k neighbors distances junk x) =
  snd (fst (BuildTree querySet [])).
Proof.
  intros Hd. unfold Search_querySet_traverse. rewrite Hd.
  destruct (BuildTree querySet []) as [[tq m] q]. simpl.
  unfold is_dual in Hd.
  destruct (singleMode e), (naive e); try discriminate Hd.
  destruct (dual_search _ _ _ _) as [w r]. reflexivity.
Qed.

(** C1.  Over a tree type that rearranges its points and with a
    reference tree the engine owns, each of the three [Search] entry
    points ends with a final pass over the results of its traversal:
    every reference position in the neighbor output is replaced by
    [oldFromNewReferences] of it, and, in the dual-tree mode of the
    search with a query set, where the engine builds the query tree,
    every column of neighbors and distances is moved to the position the
    old-from-new map of that tree gives (the search of the reference set
    against itself moves columns by the reference map); what the caller
    receives is keyed by original indices. *)
Theorem Search_index_remapping (e : RASearch) (k : nat)
    (neighbors : Mat Z) (distances : Mat double) (junk : Junk) (x : X) :
  RearrangesDataset = true -> treeOwner e = true ->
  (forall querySet,
     let t := Search_querySet_traverse e querySet k neighbors distances junk x in
     let o := Search_querySet e querySet k neighbors distances junk x in
     let nq := length querySet in
     t_ended t = Ok tt ->
     holds_positions (oldFromNewReferences e) (t_neighbors t) k nq ->
     (is_dual e = true ->
        has_shape k nq (t_distances t) /\
        is_permutation (t_oldFromNewQueries t) nq) ->
     ended o = Ok tt /\
     keyed_by_original
       (if is_dual e then t_oldFromNewQueries t else seq 0 nq)
       (oldFromNewReferences e) (t_neighbors t) (t_distances t) k nq
       (neighbors_out o) (distances_out o) /\
     (is_dual e = true ->
        t_oldFromNewQueries t = snd (fst (BuildTree querySet [])))) /\
  (forall queryTree,
     let t := Search_queryTree_traverse e queryTree k neighbors distances junk x in
     let o := Search_queryTree e queryTree k neighbors distances junk x in
     let nq := length (Dataset queryTree) in
     singleMode e = false -> naive e = false ->
     t_ended t = Ok tt ->
     holds_positions (oldFromNewReferences e) (t_neighbors t) k nq ->
     ended o = Ok tt /\
     keyed_by_original (seq 0 nq) (oldFromNewReferences e)
       (t_neighbors t) (t_distances t) k nq
       (neighbors_out o) (distances_out o)) /\
  (forall referenceSet,
     let t := Search_self_traverse e referenceSet k neighbors distances junk x in
     let o := Search_self e k neighbors distances junk x in
     let n := length referenceSet in
     deref_referenceSet e = Some referenceSet ->
     t_ended t = Ok tt ->
     holds_positions (oldFromNewReferences e) (t_neighbors t) k n ->
     has_shape k n (t_distances t) ->
     is_permutation (oldFromNewReferences e) n ->
     ended o = Ok tt /\
     keyed_by_original (oldFromNewReferences e) (oldFromNewReferences e)
       (t_neighbors t) (t_distances t) k n
       (neighbors_out o) (distances_out o)).
Proof.
  intros HR Hown. split; [|split].
  - intros querySet t o nq Hok Hpos Hdual.
    destruct (Search_querySet_keyed e querySet k neighbors distances junk x
                HR Hown Hok Hpos Hdual) as [Hend Hkey].
    split; [exact Hend|]. split; [exact Hkey|].
    apply Search_querySet_query_map.
  - intros queryTree. apply Search_queryTree_keyed; assumption.
  - intros referenceSet. apply Search_self_keyed; assumption.
Qed.

(** *** The matrices handed to the rules *)

Lemma fill_set_size {A : Type} (v : A) fresh r c (m : Mat A) :
  fill v (set_size fresh r c m) = mkMat r c (replicate (r * c) v).
Proof.
  unfold fill, set_size. simpl. f_equal.
  case_decide as Hlen; [rewrite Hlen; reflexivity|].
  rewrite length_map, length_seq. reflexivity.
Qed.

(** The rules object is constructed once, on the matrices of the world it
    is constructed in. *)
Lemma rules_handed {A : Type} args (rest : unit -> M A) w a n d :
  Forall not_rules (trace w) ->
  (forall u, appends not_rules (rest u)) ->
  In (EvRules a n d) (trace (fst (bind (new_rules args) rest w))) ->
  a = args /\ n = r_neighbors (rules w) /\ d = r_distances (rules w).
Proof.
  intros Hpre Hrest. unfold bind, new_rules, call_rules.
  destruct (RASearchRules_new args (rules w)) as [r [ex|]]; simpl.
  - rewrite in_app_iff. intros [Hin | [Heq | []]].
    + rewrite Forall_forall in Hpre. apply list_elem_of_In, Hpre in Hin.
      discriminate Hin.
    + injection Heq as <- <- <-. auto.
  - match goal with |- context [rest tt ?w1] =>
      destruct (Hrest tt w1) as (evs & Htr & Hq);
      destruct (rest tt w1) as [w2 res]; simpl in *
    end.
    rewrite Htr, !in_app_iff. intros [[Hin | [Heq | []]] | Hin].
    + rewrite Forall_forall in Hpre. apply list_elem_of_In, Hpre in Hin.
      discriminate Hin.
    + injection Heq as <- <- <-. auto.
    + rewrite Forall_forall in Hq. apply list_elem_of_In, Hq in Hin.
      discriminate Hin.
Qed.

Lemma rules_handed_after_deref {A : Type} ex (o : option MatType)
    (args : MatType -> RuleArgs) (rest : MatType -> unit -> M A) w a n d :
  Forall not_rules (trace w) ->
  (forall rs u, appends not_rules (rest rs u)) ->
  In (EvRules a n d)
    (trace (fst (bind (from_option ex o)
                   (fun rs => bind (new_rules (args rs)) (rest rs)) w))) ->
  n = r_neighbors (rules w) /\ d = r_distances (rules w).
Proof.
  intros Hpre Hrest. unfold bind at 1. unfold from_option.
  destruct o as [rs|]; simpl.
  - intros Hin. eapply rules_handed in Hin; [tauto | exact Hpre | apply Hrest].
  - intros Hin. rewrite Forall_forall in Hpre.
    apply list_elem_of_In, Hpre in Hin. discriminate Hin.
Qed.

(** X7.  Every entry point hands its rules matrices of [k] rows and one
    column for each query, the distances all at the worst distance; the
    two entry points other than the one with a query set also hand over
    neighbors all at [size_t(-1)]. *)
Lemma Search_buffers_prepared (e : RASearch) (k : nat) (neighbors : Mat Z)
    (distances : Mat double) (junk : Junk) (x : X) :
  (forall querySet a n d,
     In (EvRules a n d)
       (calls (Search_querySet e querySet k neighbors distances junk x)) ->
     has_shape k (length querySet) n /\
     d = mkMat k (length querySet)
           (replicate (k * length querySet) WorstDistance)) /\
  (forall queryTree a n d,
     In (EvRules a n d)
       (calls (Search_queryTree e queryTree k neighbors distances junk x)) ->
     let nq := length (Dataset queryTree) in
     n = mkMat k nq (replicate (k * nq) size_t_minus_one) /\
     d = mkMat k nq (replicate (k * nq) WorstDistance)) /\
  (forall referenceSet a n d,
     deref_referenceSet e = Some referenceSet ->
     In (EvRules a n d)
       (calls (Search_self e k neighbors distances junk x)) ->
     let nq := length referenceSet in
     n = mkMat k nq (replicate (k * nq) size_t_minus_one) /\
     d = mkMat k nq (replicate (k * nq) WorstDistance)).
Proof.
  split; [|split].
  - intros querySet a n d. rewrite Search_querySet_calls.
    unfold Search_querySet_traverse.
    destruct (BuildTree querySet []) as [[tq m] q].
    destruct (is_dual e) eqn:Hd; simpl;
      (destruct (naive e); [|destruct (singleMode e)]);
      match goal with |- context [?run (mkWorld ?r0 ?f0 ?t0)] =>
        match type of (run (mkWorld r0 f0 t0)) with
        | (World X * result unit)%type =>
            assert (Hrun : In (EvRules a n d)
                             (trace (fst (run (mkWorld r0 f0 t0)))) ->
                      n = r_neighbors r0 /\ d = r_distances r0);
            [| destruct (run (mkWorld r0 f0 t0)) as [w1 r]; simpl in *;
               intros Hin; destruct (Hrun Hin) as [-> ->];
               split; [repeat split; apply set_size_wf | apply fill_set_size] ]
        end
      end.
    all: try (unfold naive_search; apply rules_handed_after_deref;
              [repeat constructor | intros rs _];
              apply appends_bind;
              [apply appends_obtain_distinct_samples; reflexivity | intros l];
              apply appends_for_each; intros i; apply appends_for_each;
              intros z; apply appends_call_rules; reflexivity).
    all: try (unfold single_search; apply rules_handed_after_deref;
              [repeat constructor | intros rs _];
              apply appends_bind;
              [intros w; exists []; simpl; rewrite app_nil_r; auto | intros root];
              destruct (IsLeaf root); [apply appends_pure|];
              apply appends_bind;
              [apply appends_for_each; intros i;
               apply appends_single_traverse; reflexivity
              | intros _; unfold log_average;
                destruct (_ =? _)%nat; [apply appends_throw | apply appends_pure]]).
    all: try (unfold dual_search; apply rules_handed_after_deref;
              [repeat constructor | intros rs _];
              apply appends_bind;
              [apply appends_dual_traverse; reflexivity
              | intros _; unfold log_average;
                destruct (_ =? _)%nat; [apply appends_throw | apply appends_pure]]).
    all: simpl; intros Hin;
      repeat (destruct Hin as [Hin | Hin]; try discriminate Hin); contradiction.
  - intros queryTree a n d.
    destruct (singleMode e || naive e) eqn:Hmode.
    { unfold Search_queryTree. rewrite Hmode. simpl. contradiction. }
    rewrite Search_queryTree_calls by exact Hmode.
    unfold Search_queryTree_traverse.
    match goal with |- context [?run ?w0] =>
      match type of (run w0) with (World X * result unit)%type =>
        assert (Hrun : In (EvRules a n d) (trace (fst (run w0))) ->
                  n = r_neighbors (rules w0) /\ d = r_distances (rules w0));
        [| destruct (run w0) as [w1 r]; simpl in *; intros Hin;
           destruct (Hrun Hin) as [-> ->]; split; apply fill_set_size ]
      end end.
    apply rules_handed_after_deref; [constructor | intros rs _].
    apply appends_dual_traverse. reflexivity.
  - intros referenceSet a n d Hset.
    rewrite (Search_self_calls e referenceSet) by exact Hset.
    unfold Search_self_traverse.
    match goal with |- context [self_search ?a1 ?a2 ?a3 ?w0] =>
      assert (Hrun : In (EvRules a n d)
                       (trace (fst (self_search a1 a2 a3 w0))) ->
                n = r_neighbors (rules w0) /\ d = r_distances (rules w0));
      [| destruct (self_search a1 a2 a3 w0) as [w1 r]; simpl in *; intros Hin;
         destruct (Hrun Hin) as [-> ->]; split; apply fill_set_size ]
    end.
    unfold self_search. intros Hin.
    eapply rules_handed in Hin; [tauto | constructor | intros _].
    destruct (naive e); [|destruct (singleMode e)].
    + apply appends_bind;
        [apply appends_obtain_distinct_samples; reflexivity | intros l].
      apply appends_for_each; intros i; apply appends_for_each;
        intros z; apply appends_call_rules; reflexivity.
    + apply appends_for_each; intros i.
      apply appends_single_traverse; reflexivity.
    + apply appends_dual_traverse. reflexivity.
Qed.

(** *** The base cases of the naive mode *)

Lemma bind_Ok {A B : Type} (m : M A) (k : A -> M B) w w' b :
  bind m k w = (w', Ok b) ->
  exists a w1, m w = (w1, Ok a) /\ k a w1 = (w', Ok b).
Proof.
  unfold bind. destruct (m w) as [w1 [a|ex]]; [eauto | discriminate].
Qed.

Lemma for_each_M_Ok {T : Type} (body : T -> M unit) (evs : T -> list Event)
    (idx : list T) :
  (forall t w w', body t w = (w', Ok tt) -> trace w' = trace w ++ evs t) ->
  forall w w', for_each_M body idx w = (w', Ok tt) ->
    trace w' = trace w ++ flat_map evs idx.
Proof.
  intros Hbody. induction idx as [|t idx IH]; intros w w' Hrun; simpl in *.
  - injection Hrun as <-. rewrite app_nil_r. reflexivity.
  - apply bind_Ok in Hrun as ([] & w1 & H1 & H2).
    rewrite (IH _ _ H2), (Hbody _ _ _ H1), app_assoc. reflexivity.
Qed.

Lemma base_case_Ok i z w w' :
  base_case i z w = (w', Ok tt) -> trace w' = trace w ++ [EvBaseCase i z].
Proof.
  intros Hrun. pose proof (call_rules_trace (fun _ => EvBaseCase i z)
                             (BaseCase i z) w) as Htr.
  unfold base_case in Hrun. rewrite Hrun in Htr. exact Htr.
Qed.

Lemma new_rules_Ok args w w' :
  new_rules args w = (w', Ok tt) ->
  trace w' =
  trace w ++ [EvRules args (r_neighbors (rules w)) (r_distances (rules w))].
Proof.
  intros Hrun. pose proof (call_rules_trace
    (fun w => EvRules args (r_neighbors (rules w)) (r_distances (rules w)))
    (RASearchRules_new args) w) as Htr.
  unfold new_rules in Hrun. rewrite Hrun in Htr. exact Htr.
Qed.

Lemma obtain_distinct_samples_Ok m n w w' l :
  obtain_distinct_samples m n w = (w', Ok l) ->
  trace w' = trace w ++ [EvSamples m n l].
Proof.
  unfold obtain_distinct_samples.
  destruct (ObtainDistinctSamples m n (r_state (rules w))) as [l' x'].
  intros [= <- <-]. reflexivity.
Qed.

Lemma base_cases_app i (l1 l2 : list Event) :
  base_cases i (l1 ++ l2) = base_cases i l1 ++ base_cases i l2.
Proof. unfold base_cases. apply omap_app. Qed.

Lemma samples_drawn_app (l1 l2 : list Event) :
  samples_drawn (l1 ++ l2) = samples_drawn l1 ++ samples_drawn l2.
Proof. unfold samples_drawn. apply omap_app. Qed.

(** The base cases of one query row by row. *)
Lemma base_cases_row i q (zs : list Z) :
  base_cases i (map (EvBaseCase q) zs) = if (q =? i)%nat then zs else [].
Proof.
  unfold base_cases, omap. induction zs as [|z zs IH]; simpl.
  - destruct (q =? i)%nat; reflexivity.
  - rewrite IH. destruct (q =? i)%nat; reflexivity.
Qed.

Lemma samples_drawn_row q (zs : list Z) :
  samples_drawn (map (EvBaseCase q) zs) = [].
Proof. induction zs as [|z zs IH]; [reflexivity | exact IH]. Qed.

Lemma base_cases_grid i (row : nat -> list Z) (start n : nat) :
  base_cases i (flat_map (fun q => map (EvBaseCase q) (row q)) (seq start n)) =
  if decide (start <= i < start + n)%nat then row i else [].
Proof.
  revert start. induction n as [|n IH]; intros start; simpl.
  - case_decide; [lia | reflexivity].
  - rewrite base_cases_app, base_cases_row, IH.
    destruct (start =? i)%nat eqn:Hs.
    + apply Nat.eqb_eq in Hs as ->.
      rewrite decide_False by lia. rewrite decide_True by lia.
      apply app_nil_r.
    + apply Nat.eqb_neq in Hs. simpl.
      repeat case_decide; try reflexivity; lia.
Qed.

Lemma samples_drawn_grid (row : nat -> list Z) (qs : list nat) :
  samples_drawn (flat_map (fun q => map (EvBaseCase q) (row q)) qs) = [].
Proof.
  induction qs as [|q qs IH]; simpl; [reflexivity|].
  rewrite samples_drawn_app, samples_drawn_row, IH. reflexivity.
Qed.

(** The two loops of base cases, when they run to their end. *)
Lemma base_case_loops_Ok (n : nat) (row : nat -> list Z) w w' :
  for_upto_M n (fun i => for_each_M (fun z => base_case i z) (row i)) w
    = (w', Ok tt) ->
  trace w' =
  trace w ++ flat_map (fun q => map (EvBaseCase q) (row q)) (seq 0 n).
Proof.
  apply (for_each_M_Ok _ (fun q => map (EvBaseCase q) (row q))).
  intros i w1 w2 Hrow.
  rewrite (for_each_M_Ok (fun z => base_case i z) (fun z => [EvBaseCase i z])
             (row i) (base_case_Ok i) _ _ Hrow).
  f_equal. all: clear; induction (row i) as [|z zs IH]; simpl; congruence.
Qed.

Lemma Search_querySet_ended_Ok e querySet k neighbors distances junk x :
  ended (Search_querySet e querySet k neighbors distances junk x) = Ok tt ->
  t_ended (Search_querySet_traverse e querySet k neighbors distances junk x)
    = Ok tt.
Proof.
  unfold Search_querySet. destruct (t_ended _) as [[]|ex]; [reflexivity|].
  simpl. discriminate.
Qed.

Lemma Search_self_ended_Ok e referenceSet k neighbors distances junk x :
  deref_referenceSet e = Some referenceSet ->
  ended (Search_self e k neighbors distances junk x) = Ok tt ->
  t_ended (Search_self_traverse e referenceSet k neighbors distances junk x)
    = Ok tt.
Proof.
  intros Hset. unfold Search_self. rewrite Hset.
  destruct (t_ended _) as [[]|ex]; [reflexivity|].
  destruct (RearrangesDataset && treeOwner e); simpl; discriminate.
Qed.

(** X9.  With a query set, a naive search that returns has drawn its
    samples once and has run the base case of every query on exactly
    those. *)
Lemma Search_querySet_naive_samples (e : RASearch) (querySet : MatType)
    (k : nat) (neighbors : Mat Z) (distances : Mat double) (junk : Junk)
    (x : X) :
  let o := Search_querySet e querySet k neighbors distances junk x in
  naive e = true -> ended o = Ok tt ->
  exists referenceSet samples,
    deref_referenceSet e = Some referenceSet /\
    In (EvSamples
          (MinimumSamplesReqd (length referenceSet) k (tau e) (alpha e))
          (length referenceSet) samples) (calls o) /\
    samples_drawn (calls o) = [samples] /\
    forall i, (i < length querySet)%nat -> base_cases i (calls o) = samples.
Proof.
  intros o Hn Hend. subst o.
  apply Search_querySet_ended_Ok in Hend.
  rewrite Search_querySet_calls.
  unfold Search_querySet_traverse in *. unfold is_dual in *.
  rewrite Hn in *. rewrite andb_false_r in *. simpl in *.
  match type of Hend with context [naive_search ?a ?b ?c ?w] =>
    destruct (naive_search a b c w) as [w1 r] eqn:Hrun
  end.
  simpl in *. subst r. unfold naive_search in Hrun.
  apply bind_Ok in Hrun as (referenceSet & wa & Ha & Hrun).
  unfold from_option in Ha.
  destruct (deref_referenceSet e) as [rs|]; [|discriminate Ha].
  injection Ha as <- <-.
  apply bind_Ok in Hrun as ([] & wb & Hb & Hrun).
  apply bind_Ok in Hrun as (samples & wc & Hc & Hrun).
  apply new_rules_Ok in Hb. apply obtain_distinct_samples_Ok in Hc.
  apply (base_case_loops_Ok _ (fun _ => samples)) in Hrun.
  exists rs, samples. split; [reflexivity|].
  rewrite Hrun, Hc, Hb. simpl. split; [|split].
  - right. left. reflexivity.
  - rewrite samples_drawn_grid. reflexivity.
  - intros i Hi. rewrite (base_cases_grid i (fun _ => samples) 0).
    rewrite decide_True by lia. reflexivity.
Qed.

(** Against itself, a naive search that returns has drawn its samples
    once too, and has run the base case of every point on every point. *)
Lemma Search_self_naive_all_pairs (e : RASearch) (referenceSet : MatType)
    (k : nat) (neighbors : Mat Z) (distances : Mat double) (junk : Junk)
    (x : X) :
  let o := Search_self e k neighbors distances junk x in
  let n := length referenceSet in
  naive e = true -> deref_referenceSet e = Some referenceSet ->
  ended o = Ok tt ->
  exists samples,
    In (EvSamples (MinimumSamplesReqd n k (tau e) (alpha e)) n samples)
      (calls o) /\
    samples_drawn (calls o) = [samples] /\
    forall i, (i < n)%nat ->
      base_cases i (calls o) = map Z.of_nat (seq 0 n).
Proof.
  intros o n Hn Hset Hend. subst o.
  apply (Search_self_ended_Ok e referenceSet) in Hend; [|exact Hset].
  rewrite (Search_self_calls e referenceSet) by exact Hset.
  unfold Search_self_traverse in *.
  match type of Hend with context [self_search ?a ?b ?c ?w] =>
    destruct (self_search a b c w) as [w1 r] eqn:Hrun
  end.
  simpl in *. subst r. unfold self_search in Hrun. rewrite Hn in Hrun.
  apply bind_Ok in Hrun as ([] & wb & Hb & Hrun).
  apply bind_Ok in Hrun as (samples & wc & Hc & Hrun).
  apply new_rules_Ok in Hb. apply obtain_distinct_samples_Ok in Hc.
  assert (Hloops :
    trace w1 = trace wc ++
      flat_map (fun q => map (EvBaseCase q) (map Z.of_nat (seq 0 n)))
        (seq 0 n)).
  { revert Hrun. fold n.
    apply (for_each_M_Ok _ (fun q => map (EvBaseCase q) (map Z.of_nat (seq 0 n)))).
    intros i w2 w3 Hrow.
    rewrite (for_each_M_Ok (fun j => base_case i (Z.of_nat j))
               (fun j => [EvBaseCase i (Z.of_nat j)])
               (seq 0 n) (fun j => base_case_Ok i (Z.of_nat j)) _ _ Hrow).
    f_equal. all: clear; induction (seq 0 n) as [|j js IH]; simpl; congruence. }
  exists samples. rewrite Hloops, Hc, Hb. simpl. split; [|split].
  - right. left. reflexivity.
  - rewrite samples_drawn_grid. reflexivity.
  - intros i Hi.
    rewrite (base_cases_grid i (fun _ => map Z.of_nat (seq 0 n)) 0).
    rewrite decide_True by lia. reflexivity.
Qed.

(** C4.  With a query tree and an engine in naive or single-tree mode,
    [Search] throws [std::invalid_argument]; nothing has been called by
    then, and the neighbor and distance matrices, the query tree, the
    engine and the ambient state are as they were. *)
Theorem Search_queryTree_invalid_mode (e : RASearch) (queryTree : Tree)
    (k : nat) (neighbors : Mat Z) (distances : Mat double) (junk : Junk)
    (x : X) :
  singleMode e = true \/ naive e = true ->
  let o := Search_queryTree e queryTree k neighbors distances junk x in
  (exists what, ended o = Throw (invalid_argument what)) /\
  calls o = [] /\
  neighbors_out o = neighbors /\ distances_out o = distances /\
  query_out o = queryTree /\ self_out o = e /\ state_out o = x.
Proof.
  intros Hmode o. subst o. unfold Search_queryTree.
  assert (Hguard : singleMode e || naive e = true).
  { destruct Hmode as [-> | ->]; [reflexivity | apply orb_true_r]. }
  rewrite Hguard. simpl. repeat split. eexists. reflexivity.
Qed.

(** C7.  The matrices of the caller are left as they were: the reference
    matrix by the constructor, the query matrix by [Search], however the
    search ends. *)
Theorem caller_matrices_unchanged (referenceSetIn querySet : MatType)
    (naive singleMode : bool) (tau alpha : double)
    (sampleAtLeaves firstLeafExact : bool) (singleSampleLimit : nat)
    (metric : MetricType) (e : RASearch) (k : nat) (neighbors : Mat Z)
    (distances : Mat double) (junk : Junk) (x : X) :
  snd (RASearch_fromSet referenceSetIn naive singleMode tau alpha
         sampleAtLeaves firstLeafExact singleSampleLimit metric)
    = referenceSetIn /\
  query_out (Search_querySet e querySet k neighbors distances junk x)
    = querySet.
Proof.
  split.
  - unfold RASearch_fromSet, BuildTree, TreeType_new_mapping.
    destruct naive; [reflexivity|]. destruct RearrangesDataset; reflexivity.
  - assert (Ht : t_querySet (Search_querySet_traverse e querySet k neighbors
                               distances junk x) = querySet).
    { unfold Search_querySet_traverse, BuildTree, TreeType_new_mapping.
      destruct (is_dual e), RearrangesDataset; simpl;
        match goal with |- context [?m ?w] =>
          match type of (m w) with (World X * result unit)%type =>
            destruct (m w) end end; reflexivity. }
    unfold Search_querySet.
    destruct (t_ended _); [destruct RearrangesDataset|]; simpl;
      repeat match goal with
             | |- context [if ?b then _ else _] => destruct b; simpl
             | |- context [match ?o with Some _ => _ | None => _ end] =>
                 destruct o as [[? ?]|] || destruct o; simpl
             end; exact Ht.
Qed.

(** C9.  After construction at most one of [naive] and [singleMode] is
    set: [naive = true] switches [singleMode] off whatever was asked,
    and an engine constructed from a tree is never naive. *)
Theorem modes_exclusive (referenceSetIn : MatType) (referenceTree : Tree)
    (naive singleMode : bool) (tau alpha : double)
    (sampleAtLeaves firstLeafExact : bool) (singleSampleLimit : nat)
    (metric : MetricType) :
  let from_set n :=
    fst (RASearch_fromSet referenceSetIn n singleMode tau alpha
           sampleAtLeaves firstLeafExact singleSampleLimit metric) in
  let from_tree :=
    RASearch_fromTree referenceTree singleMode tau alpha sampleAtLeaves
      firstLeafExact singleSampleLimit metric in
  RANN.naive (from_set naive) && RANN.singleMode (from_set naive) = false /\
  RANN.naive from_tree && RANN.singleMode from_tree = false /\
  RANN.singleMode (from_set true) = false /\
  RANN.naive (from_set true) = true /\
  RANN.naive from_tree = false.
Proof.
  unfold RASearch_fromSet. simpl.
  destruct naive; simpl; [repeat split|].
  destruct (BuildTree referenceSetIn []) as [[t m] d]. simpl.
  repeat split.
Qed.

(** *** Serialization *)

Lemma Serialize_saves_naive (e : RASearch) (m : MatType) :
  naive e = true -> deref_referenceSet e = Some m ->
  Serialize false e [] =
  Ok (e, scalars e ++
         [("referenceSet", VMatrix m); ("metric", VMetric (metric e))]).
Proof.
  intros Hn Hm. destruct e. simpl in *. subst.
  unfold Serialize, ar_bind, nvp, nvp_referenceSet. simpl.
  rewrite Hm. reflexivity.
Qed.

Lemma Serialize_saves_tree (e : RASearch) :
  naive e = false ->
  Serialize false e [] =
  Ok (e, scalars e ++
         [("referenceTree", VTree (referenceTree e));
          ("oldFromNewReferences", VIndices (oldFromNewReferences e))]).
Proof.
  intros Hn. destruct e. simpl in *. subst. reflexivity.
Qed.

Lemma ar_bind_Ok {T U : Type} (m : Ar T) (k : T -> Ar U) a r :
  ar_bind m k a = Ok r -> exists t a', m a = Ok (t, a') /\ k t a' = Ok r.
Proof.
  unfold ar_bind. destruct (m a) as [[t a']|ex]; [eauto | discriminate].
Qed.

Lemma nvp_loads {T : Type} `{Archivable T} (x y : T) name a rest :
  nvp true x name a = Ok (y, rest) ->
  exists n v, a = (n, v) :: rest /\ of_value v = Some y.
Proof.
  unfold nvp. destruct a as [|[n v] a']; [discriminate|].
  destruct (of_value v) as [y'|] eqn:Hv; simpl; [|discriminate].
  intros [= <- <-]. exists n, v. split; [reflexivity | exact Hv].
Qed.

(** What loading leaves in the engine, whatever the archive. *)
Lemma Serialize_loads (e e' : RASearch) (a rest : Archive) :
  Serialize true e a = Ok (e', rest) ->
  (naive e' = true ->
     exists n m, a !! 7%nat = Some (n, VMatrix m) /\
       referenceSet e' = AtMatrix m /\ referenceTree e' = None /\
       setOwner e' = true /\ treeOwner e' = false) /\
  (naive e' = false ->
     exists n t, a !! 7%nat = Some (n, VTree (Some t)) /\
       referenceTree e' = Some t /\ referenceSet e' = AtTreeDataset /\
       deref_referenceSet e' = Some (Dataset t) /\
       treeOwner e' = true /\ setOwner e' = false).
Proof.
  unfold Serialize. intros Hload.
  repeat match type of Hload with
         | ar_bind (nvp true _ _) _ _ = Ok _ =>
             let t := fresh "v" in let a' := fresh "a" in
             let H1 := fresh "H" in let n := fresh "n" in
             let w := fresh "w" in let Ha := fresh "Ha" in
             apply ar_bind_Ok in Hload as (t & a' & H1 & Hload);
             apply nvp_loads in H1 as (n & w & Ha & _); subst
         end.
  destruct v.
  - apply ar_bind_Ok in Hload as (p & a' & Hp & Hload).
    unfold nvp_referenceSet in Hp.
    destruct a0 as [|[n6 [ | | |m| | | ]] a6]; try discriminate Hp.
    injection Hp as <- <-.
    apply ar_bind_Ok in Hload as (mt & a' & H1 & Hload).
    injection Hload as <- <-. simpl.
    split; [intros _ | discriminate]. exists n6, m. repeat split.
  - apply ar_bind_Ok in Hload as (t & a' & H1 & Hload).
    apply nvp_loads in H1 as (n6 & w6 & -> & Hw6).
    apply ar_bind_Ok in Hload as (l & a'' & H1 & Hload).
    destruct w6 as [ | | | | |ot| ]; try discriminate Hw6.
    injection Hw6 as ->.
    destruct t as [t|]; [|discriminate Hload].
    injection Hload as <- <-. simpl.
    split; [discriminate | intros _]. exists n6, t. repeat split.
Qed.

Lemma Serialize_saved_names (e : RASearch) (a : Archive) :
  Serialize false e [] = Ok (e, a) ->
  firstn 7 a = scalars e /\
  (In "referenceSet" (names a) <-> naive e = true) /\
  (In "referenceTree" (names a) <-> naive e = false) /\
  (In "oldFromNewReferences" (names a) <-> naive e = false).
Proof.
  intros Hsave. destruct (naive e) eqn:Hn.
  - destruct (deref_referenceSet e) as [m|] eqn:Hm.
    + rewrite (Serialize_saves_naive e m Hn Hm) in Hsave.
      injection Hsave as <-. simpl.
      repeat split; try reflexivity; intros; try discriminate;
        simpl in *; intuition congruence.
    + exfalso. destruct e. simpl in *. subst.
      unfold Serialize, ar_bind, nvp, nvp_referenceSet in Hsave.
      simpl in Hsave. rewrite Hm in Hsave. discriminate Hsave.
  - rewrite (Serialize_saves_tree e Hn) in Hsave.
    injection Hsave as <-. simpl.
    repeat split; try reflexivity; intros; try discriminate;
      simpl in *; intuition congruence.
Qed.

(** Loading what an engine saved gives back its configuration and its
    data. *)
Lemma Serialize_round_trip (saved e : RASearch) (a : Archive) :
  Serialize false saved [] = Ok (saved, a) ->
  (naive saved = false -> is_Some (referenceTree saved)) ->
  exists e', Serialize true e a = Ok (e', []) /\
    config e' = config saved /\
    (naive saved = true ->
       deref_referenceSet e' = deref_referenceSet saved /\
       metric e' = metric saved) /\
    (naive saved = false ->
       referenceTree e' = referenceTree saved /\
       oldFromNewReferences e' = oldFromNewReferences saved /\
       deref_referenceSet e' = Dataset <$> referenceTree saved).
Proof.
  intros Hsave Htree. destruct (naive saved) eqn:Hn.
  - destruct (deref_referenceSet saved) as [m|] eqn:Hm.
    + rewrite (Serialize_saves_naive saved m Hn Hm) in Hsave.
      injection Hsave as <-.
      unfold Serialize, ar_bind, nvp, nvp_referenceSet, config. simpl.
      eexists. split; [rewrite Hn; simpl; reflexivity|]. simpl.
      rewrite Hn. repeat split; try discriminate; auto.
    + exfalso. destruct saved. simpl in *. subst.
      unfold Serialize, ar_bind, nvp, nvp_referenceSet in Hsave.
      simpl in Hsave. rewrite Hm in Hsave. discriminate Hsave.
  - rewrite (Serialize_saves_tree saved Hn) in Hsave.
    injection Hsave as <-.
    destruct (Htree eq_refl) as [t Ht].
    unfold Serialize, ar_bind, nvp, config. simpl.
    eexists. split; [rewrite Hn, Ht; simpl; reflexivity|]. simpl.
    rewrite Hn, Ht. unfold deref_referenceSet. simpl.
    repeat split; try discriminate; auto.
Qed.

(** C5.  Saving writes the seven configuration scalars and then, in
    naive mode, the reference set (with the metric) and no tree, and
    otherwise the reference tree with its old-from-new map and no set.
    Loading leaves [referenceSet] at the matrix just loaded, with
    [setOwner] set and [treeOwner] cleared, in naive mode, and at the
    data set of the tree just loaded, with [treeOwner] set and
    [setOwner] cleared, otherwise; loading what was saved succeeds and
    brings back the configuration and the data. *)
Theorem Serialize_persists_one_of_set_and_tree (saved e : RASearch)
    (a : Archive) :
  Serialize false saved [] = Ok (saved, a) ->
  (naive saved = false -> is_Some (referenceTree saved)) ->
  (firstn 7 a = scalars saved /\
   (naive saved = true ->
      exists m, deref_referenceSet saved = Some m /\
        skipn 7 a = [("referenceSet", VMatrix m);
                     ("metric", VMetric (metric saved))]) /\
   (naive saved = false ->
      skipn 7 a = [("referenceTree", VTree (referenceTree saved));
                   ("oldFromNewReferences",
                    VIndices (oldFromNewReferences saved))]) /\
   (In "referenceSet" (names a) <-> naive saved = true) /\
   (In "referenceTree" (names a) <-> naive saved = false) /\
   (In "oldFromNewReferences" (names a) <-> naive saved = false)) /\
  (exists e', Serialize true e a = Ok (e', []) /\
     config e' = config saved /\
     (naive saved = true ->
        deref_referenceSet e' = deref_referenceSet saved /\
        metric e' = metric saved) /\
     (naive saved = false ->
        referenceTree e' = referenceTree saved /\
        oldFromNewReferences e' = oldFromNewReferences saved /\
        deref_referenceSet e' = Dataset <$> referenceTree saved)) /\
  (forall other e' rest,
     Serialize true e other = Ok (e', rest) ->
     (naive e' = true ->
        exists n m, other !! 7%nat = Some (n, VMatrix m) /\
          referenceSet e' = AtMatrix m /\ referenceTree e' = None /\
          setOwner e' = true /\ treeOwner e' = false) /\
     (naive e' = false ->
        exists n t, other !! 7%nat = Some (n, VTree (Some t)) /\
          referenceTree e' = Some t /\ referenceSet e' = AtTreeDataset /\
          deref_referenceSet e' = Some (Dataset t) /\
          treeOwner e' = true /\ setOwner e' = false)).
Proof.
  intros Hsave Htree. split; [|split].
  - destruct (Serialize_saved_names saved a Hsave) as (H7 & Hset & Htr & Hmap).
    repeat split; try assumption; try apply Hset; try apply Htr; try apply Hmap.
    + intros Hn. destruct (deref_referenceSet saved) as [m|] eqn:Hm.
      * exists m. split; [reflexivity|].
        rewrite (Serialize_saves_naive saved m Hn Hm) in Hsave.
        injection Hsave as <-. reflexivity.
      * exfalso. destruct saved. simpl in *. subst.
        unfold Serialize, ar_bind, nvp, nvp_referenceSet in Hsave.
        simpl in Hsave. rewrite Hm in Hsave. discriminate Hsave.
    + intros Hn. rewrite (Serialize_saves_tree saved Hn) in Hsave.
      injection Hsave as <-. reflexivity.
  - apply Serialize_round_trip; assumption.
  - intros other e' rest. apply Serialize_loads.
Qed.

(** *** Trees that are left alone *)

Lemma keeps_forest_bind {A B : Type} (m : M A) (k : A -> M B) :
  keeps_forest m -> (forall a, keeps_forest (k a)) -> keeps_forest (bind m k).
Proof.
  intros Hm Hk w. unfold bind. specialize (Hm w).
  destruct (m w) as [w1 [a|ex]]; simpl in *; [|exact Hm].
  rewrite Hk. exact Hm.
Qed.

Lemma keeps_forest_for_each {T : Type} (body : T -> M unit) (idx : list T) :
  (forall t, keeps_forest (body t)) -> keeps_forest (for_each_M body idx).
Proof.
  intros Hbody. induction idx as [|t idx IH]; simpl.
  - intros w. reflexivity.
  - apply keeps_forest_bind; [apply Hbody | intros _; exact IH].
Qed.

Lemma keeps_forest_base_case i z : keeps_forest (base_case i z).
Proof. intros w. apply call_rules_forest. Qed.

Lemma keeps_forest_obtain_distinct_samples m n :
  keeps_forest (obtain_distinct_samples m n).
Proof.
  intros w. unfold obtain_distinct_samples.
  destruct (ObtainDistinctSamples m n _). reflexivity.
Qed.

Lemma keeps_forest_naive_search e querySet k :
  keeps_forest (naive_search e querySet k).
Proof.
  unfold naive_search.
  apply keeps_forest_bind; [apply keeps_forest_from_option | intros rs].
  apply keeps_forest_bind; [apply keeps_forest_new_rules | intros _].
  apply keeps_forest_bind;
    [apply keeps_forest_obtain_distinct_samples | intros samples].
  apply keeps_forest_for_each. intros i.
  apply keeps_forest_for_each. intros z. apply keeps_forest_base_case.
Qed.

Lemma keeps_forest_self_search_naive e referenceSet k :
  naive e = true -> keeps_forest (self_search e referenceSet k).
Proof.
  intros Hn. unfold self_search. rewrite Hn.
  apply keeps_forest_bind; [apply keeps_forest_new_rules | intros _].
  apply keeps_forest_bind;
    [apply keeps_forest_obtain_distinct_samples | intros samples].
  apply keeps_forest_for_each. intros i.
  apply keeps_forest_for_each. intros j. apply keeps_forest_base_case.
Qed.

Lemma appends_self_search_naive e referenceSet k :
  naive e = true -> appends quiet (self_search e referenceSet k).
Proof.
  intros Hn. unfold self_search. rewrite Hn.
  apply appends_bind; [apply appends_new_rules | intros _].
  apply appends_bind;
    [apply appends_obtain_distinct_samples; reflexivity | intros samples].
  apply appends_for_each. intros i.
  apply appends_for_each. intros j. apply appends_base_case.
Qed.

Lemma with_tree_same (e : RASearch) : with_tree e (referenceTree e) = e.
Proof. destruct e. reflexivity. Qed.

(** The engine a search leaves: the one it was called on, with the
    reference tree as the traversal left it. *)
Lemma Search_querySet_self_out e querySet k neighbors distances junk x :
  self_out (Search_querySet e querySet k neighbors distances junk x) =
  with_tree e
    (f_reference
       (forest (t_world (Search_querySet_traverse e querySet k neighbors
                           distances junk x)))).
Proof.
  unfold Search_querySet.
  destruct (t_ended _) as [[]|ex]; [|reflexivity].
  destruct RearrangesDataset; [|reflexivity].
  destruct (is_dual e), (treeOwner e); simpl;
    repeat match goal with
           | |- context [match ?o with Some _ => _ | None => _ end] =>
               destruct o as [[? ?]|] || destruct o
           end; reflexivity.
Qed.

Lemma Search_queryTree_self_out e queryTree k neighbors distances junk x :
  exists t,
    self_out (Search_queryTree e queryTree k neighbors distances junk x)
    = with_tree e t.
Proof.
  unfold Search_queryTree.
  destruct (singleMode e || naive e).
  - exists (referenceTree e). simpl. symmetry. apply with_tree_same.
  - eexists.
    destruct (t_ended _) as [[]|ex]; [|reflexivity].
    destruct (treeOwner e && RearrangesDataset); [|reflexivity].
    destruct (map_references _ _ _); reflexivity.
Qed.

Lemma Search_self_self_out e k neighbors distances junk x :
  exists t,
    self_out (Search_self e k neighbors distances junk x) = with_tree e t.
Proof.
  unfold Search_self.
  destruct (deref_referenceSet e) as [rs|].
  - eexists.
    destruct (t_ended _) as [[]|ex];
      destruct (RearrangesDataset && treeOwner e); try reflexivity.
    destruct (map_both _ _ _ _ _ _) as [[? ?]|]; reflexivity.
  - exists (referenceTree e). simpl. symmetry. apply with_tree_same.
Qed.

(** X10.  A search in naive mode touches no tree: it starts no traversal,
    and the engine it leaves is the engine it was called on, whether the
    search returns or not. *)
Theorem naive_search_keeps_engine (e : RASearch) (k : nat)
    (neighbors : Mat Z) (distances : Mat double) (junk : Junk) (x : X) :
  naive e = true ->
  (forall querySet,
     let o := Search_querySet e querySet k neighbors distances junk x in
     self_out o = e /\ first_traversal (calls o) = None) /\
  (let o := Search_self e k neighbors distances junk x in
   self_out o = e /\ first_traversal (calls o) = None).
Proof.
  intros Hn. split.
  - intros querySet o. subst o.
    rewrite Search_querySet_self_out, Search_querySet_calls.
    unfold Search_querySet_traverse, is_dual.
    rewrite Hn, andb_false_r. simpl.
    match goal with |- context [naive_search ?a ?b ?c ?w] =>
      pose proof (keeps_forest_naive_search a b c w) as Hf;
      destruct (appends_naive_search a b c w) as (evs & Htr & Hq);
      destruct (naive_search a b c w) as [w1 r]
    end.
    simpl in *. rewrite Hf, Htr. simpl.
    split; [apply with_tree_same | apply first_traversal_quiet; exact Hq].
  - intros o. subst o. unfold Search_self.
    destruct (deref_referenceSet e) as [rs|] eqn:Hrs;
      [|split; reflexivity].
    assert (Hgoal :
      f_reference (forest (t_world (Search_self_traverse e rs k neighbors
                                      distances junk x)))
        = referenceTree e /\
      first_traversal (trace (t_world (Search_self_traverse e rs k neighbors
                                         distances junk x))) = None).
    { unfold Search_self_traverse.
      match goal with |- context [self_search ?a ?b ?c ?w] =>
        pose proof (keeps_forest_self_search_naive a b c Hn w) as Hf;
        destruct (appends_self_search_naive a b c Hn w) as (evs & Htr & Hq);
        destruct (self_search a b c w) as [w1 r]
      end.
      simpl in *. rewrite Hf, Htr. simpl.
      split; [reflexivity | apply first_traversal_quiet; exact Hq]. }
    destruct Hgoal as [Htree Hfirst].
    destruct (t_ended _) as [[]|ex];
      destruct (RearrangesDataset && treeOwner e); simpl;
      try destruct (map_both _ _ _ _ _ _) as [[? ?]|]; simpl;
      rewrite Htree; (split; [apply with_tree_same | exact Hfirst]).
Qed.

(** *** Single-tree searches *)

Lemma new_rules_returns args w :
  (forall a r, snd (RASearchRules_new a r) = None) ->
  exists r,
    new_rules args w =
    (mkWorld r (forest w)
       (trace w ++ [EvRules args (r_neighbors (rules w))
                      (r_distances (rules w))]), Ok tt).
Proof.
  intros Hnew. unfold new_rules, call_rules.
  specialize (Hnew args (rules w)).
  destruct (RASearchRules_new args (rules w)) as [r ex]. simpl in Hnew.
  subst ex. exists r. reflexivity.
Qed.

Lemma for_upto_M_0 (body : nat -> M unit) : for_upto_M 0 body = pure tt.
Proof. reflexivity. Qed.

(** X13.  With a query set that has no points, a search that reaches the
    end of its traversal in single-tree mode (over a root that is not a
    leaf) or in dual-tree mode does not return: the average it then
    prints divides by the number of query points.  In naive mode the same
    call returns. *)
Theorem Search_querySet_no_queries (e : RASearch) (k : nat)
    (neighbors : Mat Z) (distances : Mat double) (junk : Junk) (x : X)
    (referenceSet : MatType) :
  deref_referenceSet e = Some referenceSet ->
  (forall a r, snd (RASearchRules_new a r) = None) ->
  let o := Search_querySet e [] k neighbors distances junk x in
  (naive e = true -> ended o = Ok tt) /\
  (naive e = false -> singleMode e = true ->
   (exists root, referenceTree e = Some root /\ IsLeaf root = false) ->
   ended o = Throw division_by_zero /\ first_traversal (calls o) = None) /\
  (naive e = false -> singleMode e = false -> is_Some (referenceTree e) ->
   (forall q r fr, snd (DualTreeTraverse q r fr) = None) ->
   ended o = Throw division_by_zero).
Proof.
  intros Hrs Hnew o. subst o. split; [|split].
  - intros Hn. unfold Search_querySet, Search_querySet_traverse, is_dual.
    rewrite Hn, andb_false_r. simpl.
    unfold naive_search, bind, from_option. rewrite Hrs. simpl.
    match goal with |- context [new_rules ?a ?w] =>
      destruct (new_rules_returns a w Hnew) as (r & ->)
    end.
    unfold obtain_distinct_samples. simpl.
    destruct (ObtainDistinctSamples _ _ _) as [samples x']. simpl.
    destruct RearrangesDataset; simpl; [|reflexivity].
    destruct (treeOwner e); reflexivity.
  - intros Hn Hs (root & Hroot & Hleaf).
    rewrite Search_querySet_calls.
    unfold Search_querySet, Search_querySet_traverse, is_dual.
    rewrite Hn, Hs. simpl.
    unfold single_search, bind, from_option. rewrite Hrs. simpl.
    match goal with |- context [new_rules ?a ?w] =>
      destruct (new_rules_returns a w Hnew) as (r & ->)
    end.
    simpl. rewrite Hroot. simpl. rewrite Hleaf. simpl.
    split; reflexivity.
  - intros Hn Hs [root Hroot] Hdual.
    unfold Search_querySet, Search_querySet_traverse, is_dual.
    rewrite Hn, Hs. simpl.
    destruct (BuildTree [] []) as [[t m] q]. simpl.
    unfold dual_search, bind, from_option. rewrite Hrs. simpl.
    match goal with |- context [new_rules ?a ?w] =>
      destruct (new_rules_returns a w Hnew) as (r & ->)
    end.
    simpl. unfold dual_traverse. simpl. rewrite Hroot.
    unfold call_traverser. simpl.
    match goal with |- context [DualTreeTraverse ?a ?b ?c] =>
      specialize (Hdual a b c);
      destruct (DualTreeTraverse a b c) as [[f r'] ex]
    end.
    simpl in Hdual. subst ex. reflexivity.
Qed.

Lemma traversed_queries_app (l1 l2 : list Event) :
  traversed_queries (l1 ++ l2) = traversed_queries l1 ++ traversed_queries l2.
Proof. unfold traversed_queries. apply omap_app. Qed.

Lemma single_traverse_Ok i w w' :
  single_traverse i w = (w', Ok tt) ->
  exists t, trace w' = trace w ++ [EvSingleTraverse i t].
Proof.
  unfold single_traverse, call_traverser.
  destruct (f_reference (forest w)) as [t|]; [|discriminate].
  destruct (SingleTreeTraverse _ _ _) as [[f r] ex].
  intros [= <- _]. eexists. reflexivity.
Qed.

Lemma single_traversals_Ok (idx : list nat) w w' :
  for_each_M single_traverse idx w = (w', Ok tt) ->
  exists evs,
    trace w' = trace w ++ evs /\ traversed_queries evs = idx /\
    forall i, base_cases i evs = [].
Proof.
  revert w. induction idx as [|i idx IH]; intros w Hrun; simpl in Hrun.
  - injection Hrun as <-. exists []. rewrite app_nil_r. auto.
  - apply bind_Ok in Hrun as ([] & w1 & H1 & Hrun).
    apply single_traverse_Ok in H1 as (t & H1).
    apply IH in Hrun as (evs & Htr & Hq & Hb).
    exists (EvSingleTraverse i t :: evs).
    rewrite Htr, H1, <- app_assoc. simpl.
    split; [reflexivity|]. split; [rewrite Hq; reflexivity|].
    intros j. apply Hb.
Qed.

(** X11.  In single-tree mode, a search with a query set whose reference
    root is a leaf calls nothing but the constructor of the rules, which
    it hands the prepared matrices: no traversal, no base case ("the
    sampling has already been done in the RASearchRules constructor"). *)
Theorem Search_querySet_single_leaf (e : RASearch) (querySet : MatType)
    (k : nat) (neighbors : Mat Z) (distances : Mat double) (junk : Junk)
    (x : X) (referenceSet : MatType) (root : Tree) :
  naive e = false -> singleMode e = true ->
  deref_referenceSet e = Some referenceSet ->
  referenceTree e = Some root -> IsLeaf root = true ->
  let o := Search_querySet e querySet k neighbors distances junk x in
  exists n,
    calls o =
      [EvRules (rule_args e referenceSet querySet false) n
         (mkMat k (length querySet)
            (replicate (k * length querySet) WorstDistance))] /\
    has_shape k (length querySet) n /\
    first_traversal (calls o) = None /\
    forall i, base_cases i (calls o) = [].
Proof.
  intros Hn Hs Hrs Hroot Hleaf o. subst o.
  rewrite Search_querySet_calls.
  unfold Search_querySet_traverse, is_dual. rewrite Hn, Hs. simpl.
  unfold single_search, bind, from_option. rewrite Hrs. simpl.
  unfold new_rules, call_rules. simpl.
  rewrite fill_set_size.
  destruct (RASearchRules_new _ _) as [r [ex|]]; simpl.
  - eexists. split; [reflexivity|].
    repeat split. apply set_size_wf.
  - rewrite Hroot. simpl. rewrite Hleaf. simpl.
    eexists. split; [reflexivity|].
    repeat split. apply set_size_wf.
Qed.

(** X12.  In single-tree mode a search that returns has started one
    traversal for each query point, in the order of the points, and has
    run no base case itself: with a query set when the reference root is
    not a leaf, and always when the reference set is searched against
    itself. *)
Theorem single_mode_traverses_each_query (e : RASearch) (k : nat)
    (neighbors : Mat Z) (distances : Mat double) (junk : Junk) (x : X) :
  naive e = false -> singleMode e = true ->
  (forall querySet root,
     let o := Search_querySet e querySet k neighbors distances junk x in
     referenceTree e = Some root -> IsLeaf root = false ->
     ended o = Ok tt ->
     traversed_queries (calls o) = seq 0 (length querySet) /\
     forall i, base_cases i (calls o) = []) /\
  (forall referenceSet,
     let o := Search_self e k neighbors distances junk x in
     deref_referenceSet e = Some referenceSet ->
     ended o = Ok tt ->
     traversed_queries (calls o) = seq 0 (length referenceSet) /\
     forall i, base_cases i (calls o) = []).
Proof.
  intros Hn Hs. split.
  - intros querySet root o Hroot Hleaf Hend. subst o.
    apply Search_querySet_ended_Ok in Hend.
    rewrite Search_querySet_calls.
    unfold Search_querySet_traverse, is_dual in *.
    rewrite Hn, Hs in *. simpl in *.
    match type of Hend with context [single_search ?a ?b ?w] =>
      destruct (single_search a b w) as [w1 r] eqn:Hrun
    end.
    simpl in *. subst r. unfold single_search in Hrun.
    apply bind_Ok in Hrun as (rs & wa & Ha & Hrun).
    unfold from_option in Ha.
    destruct (deref_referenceSet e) as [rs'|]; [|discriminate Ha].
    injection Ha as <- <-.
    apply bind_Ok in Hrun as ([] & wb & Hb & Hrun).
    match type of Hb with new_rules ?a ?w = _ =>
      pose proof (keeps_forest_new_rules a w) as Hf
    end.
    rewrite Hb in Hf. simpl in Hf.
    apply new_rules_Ok in Hb.
    apply bind_Ok in Hrun as (root' & wc & Hc & Hrun).
    rewrite Hf in Hc. simpl in Hc. rewrite Hroot in Hc.
    injection Hc as <- <-. rewrite Hleaf in Hrun.
    apply bind_Ok in Hrun as ([] & wd & Hd & Hrun).
    apply single_traversals_Ok in Hd as (evs & Htr & Hq & Hbc).
    unfold log_average in Hrun.
    destruct (length querySet =? 0)%nat; [discriminate Hrun|].
    injection Hrun as <-.
    rewrite Htr, Hb. simpl.
    split; [exact Hq | exact Hbc].
  - intros rs o Hrs Hend. subst o.
    apply (Search_self_ended_Ok _ rs) in Hend; [|exact Hrs].
    rewrite (Search_self_calls _ rs) by exact Hrs.
    unfold Search_self_traverse in *.
    match type of Hend with context [self_search ?a ?b ?c ?w] =>
      destruct (self_search a b c w) as [w1 r] eqn:Hrun
    end.
    simpl in *. subst r. unfold self_search in Hrun.
    rewrite Hn, Hs in Hrun.
    apply bind_Ok in Hrun as ([] & wb & Hb & Hrun).
    apply new_rules_Ok in Hb.
    apply single_traversals_Ok in Hrun as (evs & Htr & Hq & Hbc).
    rewrite Htr, Hb. simpl.
    split; [exact Hq | exact Hbc].
Qed.

(** *** More on serialization *)

Lemma Serialize_save_onto (e : RASearch) (a : Archive) :
  Serialize false e a =
  match Serialize false e [] with
  | Ok (e', entries) => Ok (e', a ++ entries)
  | Throw ex => Throw ex
  end.
Proof.
  destruct e. unfold Serialize, ar_bind, nvp, nvp_referenceSet. simpl.
  destruct naive0; simpl.
  - destruct (deref_referenceSet _); simpl; [|reflexivity].
    rewrite <- !app_assoc. reflexivity.
  - rewrite <- !app_assoc. reflexivity.
Qed.

Lemma Serialize_save_same (e e' : RASearch) (a a' : Archive) :
  Serialize false e a = Ok (e', a') -> e' = e.
Proof.
  destruct e. unfold Serialize, ar_bind, nvp, nvp_referenceSet. simpl.
  destruct naive0; simpl.
  - destruct (deref_referenceSet _); simpl; [|discriminate].
    intros [= <- _]. reflexivity.
  - intros [= <- _]. reflexivity.
Qed.

(** X17.  Saving changes nothing of the engine and nothing of what the
    archive already holds: it appends nine entries.  It fails only in
    naive mode, when the reference set cannot be read. *)
Theorem Serialize_save_appends (e : RASearch) (a : Archive) :
  match Serialize false e [] with
  | Ok (e', entries) =>
      e' = e /\ length entries = 9%nat /\
      Serialize false e a = Ok (e, a ++ entries)
  | Throw ex =>
      ex = null_pointer /\ naive e = true /\ deref_referenceSet e = None /\
      Serialize false e a = Throw null_pointer
  end.
Proof.
  rewrite (Serialize_save_onto e a).
  destruct (naive e) eqn:Hn.
  - destruct (deref_referenceSet e) as [m|] eqn:Hm.
    + rewrite (Serialize_saves_naive e m Hn Hm). repeat split.
    + destruct e. simpl in *. subst.
      unfold Serialize, ar_bind, nvp, nvp_referenceSet. simpl.
      rewrite Hm. repeat split.
  - rewrite (Serialize_saves_tree e Hn). repeat split.
Qed.

(** X18.  Loading overwrites every member: the engine it leaves and the
    rest of the archive do not depend on the engine loaded into.  Nine
    entries are read.  In naive mode the metric is the ninth entry; in
    tree mode no metric is read and the engine takes the metric of the
    tree it has loaded. *)
Theorem Serialize_load_overwrites (e1 e2 : RASearch) (a : Archive) :
  Serialize true e1 a = Serialize true e2 a /\
  forall e' rest, Serialize true e1 a = Ok (e', rest) ->
    rest = drop 9 a /\
    (naive e' = true ->
       exists n m, a !! 8%nat = Some (n, VMetric m) /\ metric e' = m) /\
    (naive e' = false ->
       exists t, referenceTree e' = Some t /\ metric e' = Metric t).
Proof.
  split; [reflexivity|].
  unfold Serialize. intros e' rest Hload.
  repeat match type of Hload with
         | ar_bind (nvp true _ _) _ _ = Ok _ =>
             let t := fresh "v" in let a' := fresh "a" in
             let H1 := fresh "H" in let n := fresh "n" in
             let w := fresh "w" in let Ha := fresh "Ha" in
             apply ar_bind_Ok in Hload as (t & a' & H1 & Hload);
             apply nvp_loads in H1 as (n & w & Ha & _); subst
         end.
  destruct v.
  - apply ar_bind_Ok in Hload as (p & a' & Hp & Hload).
    unfold nvp_referenceSet in Hp.
    destruct a0 as [|[n6 [ | | |m| | | ]] a6]; try discriminate Hp.
    injection Hp as <- <-.
    apply ar_bind_Ok in Hload as (mt & a' & H1 & Hload).
    apply nvp_loads in H1 as (n7 & w7 & -> & Hw7).
    destruct w7; try discriminate Hw7. injection Hw7 as ->.
    injection Hload as <- <-. simpl.
    split; [reflexivity|]. split; [intros _ | discriminate].
    eexists _, _. split; reflexivity.
  - apply ar_bind_Ok in Hload as (t & a' & H1 & Hload).
    apply nvp_loads in H1 as (n6 & w6 & -> & Hw6).
    apply ar_bind_Ok in Hload as (l & a'' & H1 & Hload).
    apply nvp_loads in H1 as (n7 & w7 & -> & Hw7).
    destruct t as [t|]; [|discriminate Hload].
    injection Hload as <- <-. simpl.
    split; [reflexivity|]. split; [discriminate | intros _].
    exists t. split; reflexivity.
Qed.

(** X19.  An engine as a constructor makes it can always be saved, and
    loading what was saved, into any engine, gives back its
    configuration, its reference tree, its index map and the points of
    its reference set. *)
Theorem constructed_engine_round_trip (referenceSetIn : MatType)
    (referenceTree0 : Tree) (naive0 singleMode0 : bool) (tau0 alpha0 : double)
    (sampleAtLeaves0 firstLeafExact0 : bool) (singleSampleLimit0 : nat)
    (metric0 : MetricType) (target : RASearch) :
  let restores e :=
    exists a e',
      Serialize false e [] = Ok (e, a) /\
      Serialize true target a = Ok (e', []) /\
      config e' = config e /\
      referenceTree e' = referenceTree e /\
      oldFromNewReferences e' = oldFromNewReferences e /\
      deref_referenceSet e' = deref_referenceSet e /\
      is_Some (deref_referenceSet e) in
  restores (fst (RASearch_fromSet referenceSetIn naive0 singleMode0 tau0
                   alpha0 sampleAtLeaves0 firstLeafExact0 singleSampleLimit0
                   metric0)) /\
  restores (RASearch_fromTree referenceTree0 singleMode0 tau0 alpha0
              sampleAtLeaves0 firstLeafExact0 singleSampleLimit0 metric0).
Proof.
  intros restores. subst restores. split.
  - unfold RASearch_fromSet. destruct naive0; simpl.
    + eexists _, _.
      split; [apply (Serialize_saves_naive _ referenceSetIn); reflexivity|].
      split; [unfold Serialize, ar_bind, nvp, nvp_referenceSet; simpl;
              reflexivity|].
      unfold deref_referenceSet. simpl. repeat split. eauto.
    + destruct (BuildTree referenceSetIn []) as [[t m] d]. simpl.
      eexists _, _.
      split; [apply Serialize_saves_tree; reflexivity|].
      split; [unfold Serialize, ar_bind, nvp, nvp_referenceSet; simpl;
              reflexivity|].
      unfold deref_referenceSet. simpl. repeat split. eauto.
  - eexists _, _.
    split; [apply Serialize_saves_tree; reflexivity|].
    split; [unfold Serialize, ar_bind, nvp, nvp_referenceSet; simpl;
            reflexivity|].
    unfold deref_referenceSet. simpl. repeat split. eauto.
Qed.

(** *** Ownership *)

Lemma Search_keeps_ownership (e : RASearch) (k : nat) (neighbors : Mat Z)
    (distances : Mat double) (junk : Junk) (x : X) :
  (forall querySet,
     ownership (self_out (Search_querySet e querySet k neighbors distances
                            junk x)) = ownership e) /\
  (forall queryTree,
     ownership (self_out (Search_queryTree e queryTree k neighbors distances
                            junk x)) = ownership e) /\
  ownership (self_out (Search_self e k neighbors distances junk x))
    = ownership e.
Proof.
  split; [|split].
  - intros querySet. rewrite Search_querySet_self_out. reflexivity.
  - intros queryTree.
    destruct (Search_queryTree_self_out e queryTree k neighbors distances
                junk x) as [t ->]. reflexivity.
  - destruct (Search_self_self_out e k neighbors distances junk x)
      as [t ->]. reflexivity.
Qed.

Lemma owns_one_thing_ownership (e e' : RASearch) :
  ownership e' = ownership e -> owns_one_thing e -> owns_one_thing e'.
Proof.
  unfold ownership, owns_one_thing. intros [= -> -> -> ->]. auto.
Qed.

Lemma in_use_owns_one_thing (e : RASearch) : in_use e -> owns_one_thing e.
Proof.
  induction 1 as [rs n sm t0 a0 sal fle ssl mt | t sm t0 a0 sal fle ssl mt
                 | e q k nb ds jk x _ IH | e q k nb ds jk x _ IH
                 | e k nb ds jk x _ IH | loading e a e' a' _ IH Hser].
  - unfold RASearch_fromSet.
    destruct n; [|destruct (BuildTree rs []) as [[t m] d]];
      split; simpl; intros; try discriminate; auto.
  - split; simpl; discriminate.
  - eapply owns_one_thing_ownership; [|exact IH].
    apply Search_keeps_ownership.
  - eapply owns_one_thing_ownership; [|exact IH].
    apply Search_keeps_ownership.
  - eapply owns_one_thing_ownership; [|exact IH].
    apply Search_keeps_ownership.
  - destruct loading.
    + destruct (Serialize_loads _ _ _ _ Hser) as [Hnaive Htree].
      destruct (naive e') eqn:Hn.
      * destruct (Hnaive eq_refl) as (n & m & _ & Hset & _ & Hso & Hto).
        split; [congruence | intros _; eauto].
      * destruct (Htree eq_refl) as (n & t & _ & _ & _ & _ & Hto & Hso).
        split; [auto | congruence].
    + apply Serialize_save_same in Hser. subst e'. exact IH.
Qed.

(** X20.  Destroying an engine made from a tree of the caller, or from a
    set in naive mode, deletes nothing; destroying one made from a set
    in another mode deletes the tree it built and nothing else.  A
    search changes neither the mode, nor the two ownership flags, nor
    what the reference set pointer points to. *)
Theorem destructor_deletes_what_the_constructor_built
    (referenceSetIn : MatType) (referenceTree0 : Tree) (singleMode0 : bool)
    (tau0 alpha0 : double) (sampleAtLeaves0 firstLeafExact0 : bool)
    (singleSampleLimit0 : nat) (metric0 : MetricType) :
  RASearch_destroy
    (RASearch_fromTree referenceTree0 singleMode0 tau0 alpha0
       sampleAtLeaves0 firstLeafExact0 singleSampleLimit0 metric0) = [] /\
  RASearch_destroy
    (fst (RASearch_fromSet referenceSetIn true singleMode0 tau0 alpha0
            sampleAtLeaves0 firstLeafExact0 singleSampleLimit0 metric0))
    = [] /\
  RASearch_destroy
    (fst (RASearch_fromSet referenceSetIn false singleMode0 tau0 alpha0
            sampleAtLeaves0 firstLeafExact0 singleSampleLimit0 metric0))
    = [delete_referenceTree (fst (fst (BuildTree referenceSetIn [])))] /\
  (forall e k neighbors distances junk x,
     (forall querySet,
        ownership (self_out (Search_querySet e querySet k neighbors
                               distances junk x)) = ownership e) /\
     (forall queryTree,
        ownership (self_out (Search_queryTree e queryTree k neighbors
                               distances junk x)) = ownership e) /\
     ownership (self_out (Search_self e k neighbors distances junk x))
       = ownership e).
Proof.
  repeat split; try reflexivity.
  - unfold RASearch_fromSet.
    destruct (BuildTree referenceSetIn []) as [[t m] d]. reflexivity.
  - apply Search_keeps_ownership.
  - apply Search_keeps_ownership.
  - apply Search_keeps_ownership.
Qed.

(** X21.  An engine in use deletes at most one object when destroyed: a
    reference set only in naive mode, and then a matrix of its own, never
    the data set inside a tree; a tree only outside naive mode, and then
    the tree it holds.  A loading [Serialize] deletes exactly what the
    destructor would. *)
Theorem engine_deletes_only_its_own (e : RASearch) :
  in_use e ->
  (length (RASearch_destroy e) <= 1)%nat /\
  (forall p, In (delete_referenceSet p) (RASearch_destroy e) ->
     naive e = true /\ exists m, p = AtMatrix m) /\
  (forall t, In (delete_referenceTree t) (RASearch_destroy e) ->
     naive e = false /\ referenceTree e = Some t) /\
  (forall naive', Serialize_deletes e naive' = RASearch_destroy e).
Proof.
  intros Huse. apply in_use_owns_one_thing in Huse as [Htree Hset].
  unfold Serialize_deletes, RASearch_destroy, owned_tree, owned_set.
  destruct (treeOwner e) eqn:Hto.
  - destruct (Htree eq_refl) as [Hn ->].
    destruct (referenceTree e) as [t|]; simpl.
    + split; [lia|]. split; [|split].
      * intros p [Hp|[]]. discriminate Hp.
      * intros t' [[= ->]|[]]. split; [exact Hn | reflexivity].
      * intros []; reflexivity.
    + split; [lia|]. split; [|split]; try (intros ? []).
      intros []; reflexivity.
  - destruct (setOwner e) eqn:Hso; simpl.
    + destruct (Hset eq_refl) as (Hn & m & Hm).
      split; [lia|]. split; [|split].
      * intros p [[= <-]|[]]. split; [exact Hn | eauto].
      * intros t [Hp|[]]. discriminate Hp.
      * intros []; reflexivity.
    + split; [lia|]. split; [|split]; try (intros ? []).
      intros []; reflexivity.
Qed.

(** *** What the final pass needs *)


(** *** Temporaries *)

Lemma delete_alive (a : nat) (h : Store) :
  a ∈ alive h ->
  delete (temporary a) h =
  Some (mkStore (next h) (filter (fun b => negb (b =? a)%nat) (alive h))).
Proof. intros Hin. unfold delete. rewrite decide_True by exact Hin. reflexivity. Qed.

Lemma filter_drop_head (a : nat) (l : list nat) :
  filter (fun b => negb (b =? a)%nat) (a :: l)
  = filter (fun b => negb (b =? a)%nat) l.
Proof. rewrite filter_cons. rewrite Nat.eqb_refl. reflexivity. Qed.

Lemma filter_keep_head (a b : nat) (l : list nat) :
  b <> a ->
  filter (fun b => negb (b =? a)%nat) (b :: l)
  = b :: filter (fun b => negb (b =? a)%nat) l.
Proof.
  intros Hne. rewrite filter_cons.
  apply Nat.eqb_neq in Hne. rewrite Hne. reflexivity.
Qed.

Lemma filter_fresh (a n : nat) (l : list nat) :
  Forall (fun b => (b < n)%nat) l -> (n <= a)%nat ->
  filter (fun b => negb (b =? a)%nat) l = l.
Proof.
  intros Hall Hle. induction Hall as [|b l Hb _ IH]; [reflexivity|].
  rewrite filter_keep_head by lia. rewrite IH. reflexivity.
Qed.

(** X22.  On the path where no collaborator throws, [Search(queryTree)]
    and [Search(k)] delete every temporary they allocate, and never the
    caller's matrices.  [Search(querySet)] does too, with one exception:
    in dual-tree mode with an owned tree that rearranges its data set,
    the neighbor matrix allocated first is replaced by a second one
    before it is used, and stays allocated. *)
Theorem Search_temporaries (e : RASearch) (h : Store) :
  store_ok h ->
  (exists h', Search_queryTree_temporaries e h = Some h' /\
     alive h' = alive h) /\
  (exists h', Search_self_temporaries e h = Some h' /\ alive h' = alive h) /\
  (exists h', Search_querySet_temporaries e h = Some h' /\
     alive h' =
       (if RearrangesDataset && is_dual e && treeOwner e
        then [S (next h)] else []) ++ alive h).
Proof.
  intros [Hnd Hlt].
  assert (Hfresh : forall a, (next h <= a)%nat ->
            filter (fun b => negb (b =? a)%nat) (alive h) = alive h).
  { intros a Ha. apply (filter_fresh a (next h)); assumption. }
  unfold Search_queryTree_temporaries, Search_self_temporaries,
    Search_querySet_temporaries, new.
  destruct RearrangesDataset, (treeOwner e), (is_dual e),
    (singleMode e || naive e); cbn -[delete filter];
    repeat (rewrite delete_alive
              by (cbn -[delete filter];
                  repeat first [apply list_elem_of_here
                               |apply list_elem_of_further]);
            cbn -[delete filter];
            repeat first [ rewrite filter_drop_head
                         | rewrite filter_keep_head by lia
                         | rewrite Hfresh by lia ]);
    repeat split; eexists; split; reflexivity.
Qed.

(** *** The arguments handed to the rules *)

Lemma rules_args_after_deref {A : Type} ex (o : option MatType)
    (args : MatType -> RuleArgs) (rest : MatType -> unit -> M A) w a n d :
  Forall not_rules (trace w) ->
  (forall rs u, appends not_rules (rest rs u)) ->
  In (EvRules a n d)
    (trace (fst (bind (from_option ex o)
                   (fun rs => bind (new_rules (args rs)) (rest rs)) w))) ->
  exists rs, o = Some rs /\ a = args rs.
Proof.
  intros Hpre Hrest. unfold bind at 1. unfold from_option.
  destruct o as [rs|]; simpl.
  - intros Hin. eapply rules_handed in Hin; [| exact Hpre | apply Hrest].
    exists rs. tauto.
  - intros Hin. rewrite Forall_forall in Hpre.
    apply list_elem_of_In, Hpre in Hin. discriminate Hin.
Qed.

Lemma appends_not_rules_naive_rest (i_max : nat) (k : nat) (e : RASearch)
    (n : nat) :
  appends not_rules
    (bind (obtain_distinct_samples (MinimumSamplesReqd n k (tau e) (alpha e)) n)
       (fun distinctSamples =>
          for_upto_M i_max
            (fun i => for_each_M (fun sample => base_case i sample)
                        distinctSamples))).
Proof.
  apply appends_bind;
    [apply appends_obtain_distinct_samples; reflexivity | intros l].
  apply appends_for_each; intros i; apply appends_for_each;
    intros z; apply appends_call_rules; reflexivity.
Qed.

Lemma appends_not_rules_log_average n : appends not_rules (log_average n).
Proof.
  unfold log_average.
  destruct (_ =? _)%nat; [apply appends_throw | apply appends_pure].
Qed.

(** X8.  The rules a search constructs get the engine's own reference
    set, metric and parameters.  With a query set they get that set, or
    in dual-tree mode the data set of the tree built from it, and are
    told the two sets differ; with a query tree they get its data set;
    when the reference set is searched against itself they get it on
    both sides and are told the sets are the same. *)
Theorem Search_rules_arguments (e : RASearch) (k : nat) (neighbors : Mat Z)
    (distances : Mat double) (junk : Junk) (x : X) :
  (forall querySet a n d,
     In (EvRules a n d)
       (calls (Search_querySet e querySet k neighbors distances junk x)) ->
     exists referenceSet,
       deref_referenceSet e = Some referenceSet /\
       a = rule_args e referenceSet
             (if is_dual e then Dataset (fst (fst (BuildTree querySet [])))
              else querySet) false) /\
  (forall queryTree a n d,
     In (EvRules a n d)
       (calls (Search_queryTree e queryTree k neighbors distances junk x)) ->
     exists referenceSet,
       deref_referenceSet e = Some referenceSet /\
       a = rule_args e referenceSet (Dataset queryTree) false) /\
  (forall referenceSet a n d,
     deref_referenceSet e = Some referenceSet ->
     In (EvRules a n d)
       (calls (Search_self e k neighbors distances junk x)) ->
     a = rule_args e referenceSet referenceSet true).
Proof.
  split; [|split].
  - intros querySet a n d. rewrite Search_querySet_calls.
    unfold Search_querySet_traverse.
    destruct (BuildTree querySet []) as [[tq m] q].
    destruct (is_dual e) eqn:Hd; simpl;
      destruct (naive e) eqn:Hn, (singleMode e) eqn:Hs;
      try (exfalso; unfold is_dual in Hd; rewrite Hn, Hs in Hd;
           discriminate Hd);
      match goal with |- context [?run (mkWorld ?r0 ?f0 ?t0)] =>
        match type of (run (mkWorld r0 f0 t0)) with
        | (World X * result unit)%type =>
            destruct (run (mkWorld r0 f0 t0)) as [w1 r] eqn:Hrun;
            apply (f_equal (fun p => trace (fst p))) in Hrun; simpl in Hrun;
            simpl; rewrite <- Hrun; clear Hrun
        end
      end.
    + unfold dual_search. apply rules_args_after_deref;
        [repeat constructor | intros rs _].
      apply appends_bind;
        [apply appends_dual_traverse; reflexivity
        | intros _; apply appends_not_rules_log_average].
    + unfold naive_search. apply rules_args_after_deref;
        [repeat constructor | intros rs _].
      apply appends_not_rules_naive_rest.
    + unfold naive_search. apply rules_args_after_deref;
        [repeat constructor | intros rs _].
      apply appends_not_rules_naive_rest.
    + unfold single_search. apply rules_args_after_deref;
        [repeat constructor | intros rs _].
      apply appends_bind;
        [intros w; exists []; simpl; rewrite app_nil_r; auto | intros root].
      destruct (IsLeaf root); [apply appends_pure|].
      apply appends_bind;
        [apply appends_for_each; intros i;
         apply appends_single_traverse; reflexivity
        | intros _; apply appends_not_rules_log_average].
  - intros queryTree a n d.
    destruct (singleMode e || naive e) eqn:Hmode.
    { unfold Search_queryTree. rewrite Hmode. simpl. contradiction. }
    rewrite Search_queryTree_calls by exact Hmode.
    unfold Search_queryTree_traverse.
    match goal with |- context [?run ?w0] =>
      match type of (run w0) with (World X * result unit)%type =>
        destruct (run w0) as [w1 r] eqn:Hrun;
        apply (f_equal (fun p => trace (fst p))) in Hrun; simpl in Hrun;
        simpl; rewrite <- Hrun; clear Hrun
      end end.
    apply rules_args_after_deref; [constructor | intros rs _].
    apply appends_dual_traverse. reflexivity.
  - intros referenceSet a n d Hset.
    rewrite (Search_self_calls e referenceSet) by exact Hset.
    unfold Search_self_traverse.
    match goal with |- context [self_search ?a1 ?a2 ?a3 ?w0] =>
      destruct (self_search a1 a2 a3 w0) as [w1 r] eqn:Hrun;
      apply (f_equal (fun p => trace (fst p))) in Hrun; simpl in Hrun;
      simpl; rewrite <- Hrun; clear Hrun
    end.
    unfold self_search. intros Hin.
    eapply rules_handed in Hin; [tauto | constructor | intros _].
    destruct (naive e); [|destruct (singleMode e)].
    + apply appends_bind;
        [apply appends_obtain_distinct_samples; reflexivity | intros l].
      apply appends_for_each; intros i; apply appends_for_each;
        intros z; apply appends_call_rules; reflexivity.
    + apply appends_for_each; intros i.
      apply appends_single_traverse; reflexivity.
    + apply appends_dual_traverse. reflexivity.
Qed.

(** *** Searches that map nothing *)

(** X23.  Where no index needs mapping, a search leaves its results as
    the rules and the traversal wrote them, and ends as the traversal
    ended: for every entry point when the tree type does not rearrange
    its data set; with a query tree, or against the reference set itself,
    also when the engine does not own its tree; with a query set, when it
    does not own its tree and is not in dual-tree mode. *)
Theorem Search_without_mapping (e : RASearch) (k : nat) (neighbors : Mat Z)
    (distances : Mat double) (junk : Junk) (x : X) :
  (forall querySet,
     let t := Search_querySet_traverse e querySet k neighbors distances junk x in
     let o := Search_querySet e querySet k neighbors distances junk x in
     RearrangesDataset && (is_dual e || treeOwner e) = false ->
     ended o = t_ended t /\ neighbors_out o = t_neighbors t /\
     distances_out o = t_distances t) /\
  (forall queryTree,
     let t := Search_queryTree_traverse e queryTree k neighbors distances junk x in
     let o := Search_queryTree e queryTree k neighbors distances junk x in
     singleMode e || naive e = false ->
     RearrangesDataset && treeOwner e = false ->
     ended o = t_ended t /\ neighbors_out o = t_neighbors t /\
     distances_out o = t_distances t) /\
  (forall referenceSet,
     let t := Search_self_traverse e referenceSet k neighbors distances junk x in
     let o := Search_self e k neighbors distances junk x in
     deref_referenceSet e = Some referenceSet ->
     RearrangesDataset && treeOwner e = false ->
     ended o = t_ended t /\ neighbors_out o = t_neighbors t /\
     distances_out o = t_distances t).
Proof.
  split; [|split].
  - intros querySet t o Hno. subst t o. unfold Search_querySet.
    rewrite Hno.
    destruct RearrangesDataset; simpl in *.
    + apply orb_false_elim in Hno as [-> ->]. simpl.
      destruct (t_ended _) as [[]|ex]; repeat split.
    + destruct (t_ended _) as [[]|ex]; repeat split.
  - intros queryTree t o Hmode Hno. subst t o. unfold Search_queryTree.
    rewrite Hmode, andb_comm, Hno.
    destruct (t_ended _) as [[]|ex]; repeat split.
  - intros rs t o Hrs Hno. subst t o. unfold Search_self.
    rewrite Hrs, Hno.
    destruct (t_ended _) as [[]|ex]; repeat split.
Qed.
End SearchFacts.

(** ** The empty-cluster policy *)

Section PolicyFacts.
Import KMeans.
Context `{M : Metric}.

Lemma for_upto_preserves {S : Type} (Q : S -> Prop) (n : nat)
    (body : nat -> S -> option S) (s s' : S) :
  (forall i t t', body i t = Some t' -> Q t -> Q t') ->
  Q s -> for_upto n body s = Some s' -> Q s'.
Proof.
  intros Hstep. revert s'. induction n as [|n IH]; intros s' Hs Hrun.
  - injection Hrun as <-. exact Hs.
  - rewrite for_upto_S in Hrun.
    destruct (for_upto n body s) as [t|]; [|discriminate].
    eapply Hstep; [exact Hrun | apply IH; [exact Hs | reflexivity]].
Qed.

Lemma max_scan_index (xs : list double) (i : nat) (best : double * nat) :
  snd (max_scan xs i best) = snd best \/
  (i <= snd (max_scan xs i best) < i + length xs)%nat.
Proof.
  revert i best. induction xs as [|x xs IH]; intros i best; simpl.
  - left. reflexivity.
  - destruct (IH (S i) (if d_gt x (fst best) then (x, i) else best))
      as [Heq | Hin].
    + rewrite Heq. destruct (d_gt x (fst best)); simpl; [right; lia | left; reflexivity].
    + right. lia.
Qed.

Lemma index_max_in_range (xs : list double) (i : nat) :
  index_max xs = Some i -> (i < length xs)%nat.
Proof.
  unfold index_max. destruct xs as [|x xs]; [discriminate|].
  intros [= <-].
  pose proof (max_scan_index (x :: xs) 0 (d_neg_infinity, 0%nat)) as Hin.
  simpl in *. lia.
Qed.

(** After the first step the object has one assignment for each point. *)
Lemma precalculated_assignments data oldCentroids clusterCounts metric iter s s1 :
  precalculated data oldCentroids clusterCounts metric iter s = Some s1 ->
  length (assignments s1) = length data.
Proof.
  unfold precalculated.
  destruct (negb (iter =? iteration s)%nat) eqn:Hiter; simpl.
  2: destruct (length (assignments s) =? length data)%nat eqn:Hlen; simpl.
  2: { intros [= <-]. apply Nat.eqb_eq. exact Hlen. }
  all: unfold Precalculate;
    match goal with |- context [for_upto ?n ?b ?s0] =>
      destruct (for_upto n b s0) as [[vs asg]|] eqn:Hloop; [|discriminate];
      apply (for_upto_preserves
               (fun va : list double * list nat =>
                  length (snd va) = length data)) in Hloop
    end.
  all: try (simpl; case_decide; [assumption | apply length_replicate]).
  all: try (intros i [vs0 asg0] [vs1 asg1] Hbody Hq; simpl in *;
            destruct (data !! i); simpl in Hbody; [|discriminate];
            destruct (oldCentroids !! _); simpl in Hbody; [|discriminate];
            destruct (vs0 !! _); simpl in Hbody; [|discriminate];
            injection Hbody as <- <-; rewrite length_insert; exact Hq).
  all: simpl in Hloop;
    match goal with |- context [for_upto ?n ?b ?s0] =>
      destruct (for_upto n b s0); simpl; [|discriminate]
    end; intros [= <-]; exact Hloop.
Qed.

Lemma total_insert (counts : list Z) (i : nat) (old new : Z) :
  counts !! i = Some old -> total (<[i := new]> counts) = total counts - old + new.
Proof.
  revert i. induction counts as [|c counts IH]; intros [|i] Hi; simpl in *;
    try discriminate.
  - injection Hi as ->. lia.
  - rewrite (IH i Hi). lia.
Qed.

(** Whenever [EmptyCluster] returns, it returns 1. *)
Lemma EmptyCluster_returns_1 (data : mat) (emptyCluster : nat)
    (oldCentroids newCentroids : mat) (clusterCounts : list Z)
    (metric : MetricType) (iter : nat) (s : State) (r : Returned) :
  EmptyCluster data emptyCluster oldCentroids newCentroids clusterCounts
    metric iter s = Some r ->
  ret r = 1.
Proof.
  unfold EmptyCluster. intros Hr.
  repeat match type of Hr with
         | (?o ≫= _) = Some _ =>
             destruct o as [?|]; simpl in Hr; [|discriminate Hr]
         | (let '(_, _) := ?p in _) = Some _ => destruct p; simpl in Hr
         end.
  injection Hr as <-. reflexivity.
Qed.

(** X1.  When a point of the cluster of largest variance has been found,
    and that cluster counts at least two points while [emptyCluster]
    counts none, [EmptyCluster] returns 1 having moved exactly that
    point. *)
Lemma EmptyCluster_moves_one_point (data : mat) (emptyCluster : nat)
    (oldCentroids newCentroids : mat) (clusterCounts : list Z)
    (metric : MetricType) (iter : nat) (s s1 : State)
    (maxVarCluster furthestPoint : nat) (maxDistance : double)
    (count : Z) (point col emptyCol : vec) :
  precalculated data oldCentroids clusterCounts metric iter s = Some s1 ->
  index_max (variances s1) = Some maxVarCluster ->
  furthest_scan data (assignments s1) metric (newCentroids !! maxVarCluster)
    maxVarCluster = Some (maxDistance, furthestPoint) ->
  data !! furthestPoint = Some point ->
  clusterCounts !! maxVarCluster = Some count -> 2 <= count < 2 ^ 64 ->
  clusterCounts !! emptyCluster = Some 0 ->
  (emptyCluster < length (variances s1))%nat ->
  newCentroids !! maxVarCluster = Some col -> length col = length point ->
  newCentroids !! emptyCluster = Some emptyCol ->
  length emptyCol = length point ->
  exists r,
    EmptyCluster data emptyCluster oldCentroids newCentroids clusterCounts
      metric iter s = Some r /\
    ret r = 1 /\
    clusterCounts' r !! maxVarCluster = Some (count - 1) /\
    clusterCounts' r !! emptyCluster = Some 1 /\
    (forall j, j <> maxVarCluster -> j <> emptyCluster ->
       clusterCounts' r !! j = clusterCounts !! j) /\
    total (clusterCounts' r) = total clusterCounts /\
    newCentroids' r !! emptyCluster = Some point /\
    variances (self r) !! emptyCluster = Some d_zero /\
    assignments (self r) = <[furthestPoint := emptyCluster]> (assignments s1).
Proof.
  intros Hs1 Hmax Hfar Hpoint Hcount Hrange Hempty Hev Hcol Hlen Hecol Helen.
  assert (Hne : emptyCluster <> maxVarCluster).
  { intros ->. rewrite Hcount in Hempty. injection Hempty as ->. lia. }
  assert (Hmv : (maxVarCluster < length (variances s1))%nat)
    by (apply index_max_in_range; exact Hmax).
  assert (Hp : (furthestPoint < length (assignments s1))%nat).
  { rewrite (precalculated_assignments _ _ _ _ _ _ _ Hs1).
    eapply lookup_lt_Some; exact Hpoint. }
  assert (Hw : wrap (count - 1) = count - 1)
    by (unfold wrap; apply Z.mod_small; lia).
  destruct (lookup_lt_is_Some_2 (variances s1) maxVarCluster Hmv) as [v Hv].
  unfold EmptyCluster. rewrite Hs1. simpl. rewrite Hmax. simpl.
  rewrite Hfar. simpl. rewrite Hcount. simpl. rewrite Hcol. simpl.
  rewrite Hpoint. simpl.
  unfold sub_scaled, scale, assign_col, store, mat, vec in *.
  rewrite length_map.
  repeat (first
    [ rewrite Hempty | rewrite Hecol | rewrite Hv
    | rewrite decide_True by assumption
    | rewrite list_lookup_insert_ne by congruence
    | rewrite list_lookup_insert_eq by (eapply lookup_lt_Some; eassumption) ];
    simpl).
  eexists. split; [reflexivity|]. simpl.
  assert (Hw1 : wrap (0 + 1) = 1) by reflexivity.
  rewrite Hw, Hw1.
  repeat split.
  - rewrite list_lookup_insert_ne by congruence.
    apply list_lookup_insert_eq. eapply lookup_lt_Some; exact Hcount.
  - apply list_lookup_insert_eq. rewrite length_insert.
    eapply lookup_lt_Some; exact Hempty.
  - intros j Hj1 Hj2.
    rewrite !list_lookup_insert_ne by congruence. reflexivity.
  - rewrite (total_insert _ emptyCluster 0 1).
    + rewrite (total_insert _ maxVarCluster count (count - 1) Hcount). lia.
    + rewrite list_lookup_insert_ne by congruence.
      exact Hempty.
  - apply list_lookup_insert_eq. rewrite length_insert.
    eapply lookup_lt_Some; exact Hecol.
  - rewrite list_lookup_insert_ne by congruence.
    apply list_lookup_insert_eq. exact Hev.
Qed.

(** A point that [furthest_scan] returns is assigned to the cluster
    searched, unless it is the initial [data.n_cols]. *)
Lemma furthest_scan_member (data : mat) (asg : list nat) (metric : MetricType)
    (centroid : option vec) (maxVarCluster : nat) (maxDistance : double)
    (furthestPoint : nat) :
  furthest_scan data asg metric centroid maxVarCluster
    = Some (maxDistance, furthestPoint) ->
  furthestPoint = length data \/
  ((furthestPoint < length data)%nat /\
   asg !! furthestPoint = Some maxVarCluster).
Proof.
  unfold furthest_scan. intros Hrun.
  apply (for_upto_preserves
           (fun df : double * nat =>
              snd df = length data \/
              ((snd df < length data)%nat /\
               asg !! snd df = Some maxVarCluster))) in Hrun;
    [exact Hrun | | left; reflexivity].
  intros i [d fp] [d' fp'] Hbody HQ. simpl in *.
  destruct (asg !! i) as [a|] eqn:Ha; simpl in Hbody; [|discriminate].
  destruct (a =? maxVarCluster)%nat eqn:Heq.
  - apply Nat.eqb_eq in Heq. subst a.
    destruct (data !! i) as [pt|] eqn:Hpt; simpl in Hbody; [|discriminate].
    destruct centroid as [c|]; simpl in Hbody; [|discriminate].
    destruct (d_gt _ d); injection Hbody as <- <-; [|exact HQ].
    right. split; [eapply lookup_lt_Some; exact Hpt | exact Ha].
  - injection Hbody as <- <-. exact HQ.
Qed.

(** X2.  [EmptyCluster] returns only when it has found a point: the
    cluster of largest variance then has a point assigned to it, and that
    point is the one whose assignment changes.  On a data set with no
    points, or when no point is assigned to that cluster, the call does
    not return. *)
Theorem EmptyCluster_needs_a_member (data : mat) (emptyCluster : nat)
    (oldCentroids newCentroids : mat) (clusterCounts : list Z)
    (metric : MetricType) (iter : nat) (s : State) (r : Returned) :
  EmptyCluster data emptyCluster oldCentroids newCentroids clusterCounts
    metric iter s = Some r ->
  exists s1 maxVarCluster furthestPoint,
    precalculated data oldCentroids clusterCounts metric iter s = Some s1 /\
    index_max (variances s1) = Some maxVarCluster /\
    (furthestPoint < length data)%nat /\
    assignments s1 !! furthestPoint = Some maxVarCluster /\
    assignments (self r)
      = <[furthestPoint := emptyCluster]> (assignments s1).
Proof.
  unfold EmptyCluster. intros Hr.
  destruct (precalculated _ _ _ _ _ _) as [s1|] eqn:Hpre;
    simpl in Hr; [|discriminate].
  destruct (index_max _) as [mv|] eqn:Hmax; simpl in Hr; [|discriminate].
  destruct (furthest_scan _ _ _ _ _) as [[d fp]|] eqn:Hscan;
    simpl in Hr; [|discriminate].
  destruct (clusterCounts !! mv) as [count|]; simpl in Hr; [|discriminate].
  destruct (newCentroids !! mv) as [col|]; simpl in Hr; [|discriminate].
  destruct (data !! fp) as [point|] eqn:Hpoint; simpl in Hr; [|discriminate].
  apply furthest_scan_member in Hscan.
  pose proof (lookup_lt_Some _ _ _ Hpoint) as Hlt.
  destruct Hscan as [Heq | [_ Hasg]]; [lia|].
  exists s1, mv, fp. repeat split; try assumption.
  repeat match type of Hr with
         | (?o ≫= _) = Some _ =>
             destruct o as [?|] eqn:?; simpl in Hr; [|discriminate Hr]
         end.
  injection Hr as <-. simpl.
  match goal with H : store (assignments s1) fp emptyCluster = Some _ |- _ =>
    unfold store in H; case_decide; [|discriminate];
    injection H as <-
  end.
  reflexivity.
Qed.

(** What a call that returns leaves in the object. *)
Lemma EmptyCluster_leaves (data : mat) (emptyCluster : nat)
    (oldCentroids newCentroids : mat) (clusterCounts : list Z)
    (metric : MetricType) (iter : nat) (s : State) (r : Returned) :
  EmptyCluster data emptyCluster oldCentroids newCentroids clusterCounts
    metric iter s = Some r ->
  iteration (self r) = iter /\
  exists s1 furthestPoint,
    precalculated data oldCentroids clusterCounts metric iter s = Some s1 /\
    assignments (self r)
      = <[furthestPoint := emptyCluster]> (assignments s1).
Proof.
  unfold EmptyCluster. intros Hr.
  destruct (precalculated _ _ _ _ _ _) as [s1|] eqn:Hpre;
    simpl in Hr; [|discriminate].
  repeat match type of Hr with
         | (?o ≫= _) = Some _ =>
             destruct o as [?|] eqn:?; simpl in Hr; [|discriminate Hr]
         | (let '(_, _) := ?p in _) = Some _ => destruct p; simpl in Hr
         end.
  injection Hr as <-. simpl. split; [reflexivity|].
  match goal with H : store (assignments s1) ?fp emptyCluster = Some _ |- _ =>
    unfold store in H; case_decide; [|discriminate];
    injection H as <-; exists s1, fp
  end.
  split; reflexivity.
Qed.

(** X3.  A call that returns leaves the object ready for the same
    iteration: the iteration number is stored and there is one assignment
    for each point, so a second call with that iteration number and that
    data does not recalculate, whatever old centroids and counts it is
    given, and its result does not depend on the old centroids. *)
Theorem EmptyCluster_precalculates_once (data : mat) (emptyCluster : nat)
    (oldCentroids newCentroids : mat) (clusterCounts : list Z)
    (metric : MetricType) (iter : nat) (s : State) (r : Returned) :
  EmptyCluster data emptyCluster oldCentroids newCentroids clusterCounts
    metric iter s = Some r ->
  iteration (self r) = iter /\
  length (assignments (self r)) = length data /\
  (forall oldCentroids' clusterCounts',
     precalculated data oldCentroids' clusterCounts' metric iter (self r)
       = Some (self r)) /\
  (forall emptyCluster' old1 old2 newCentroids' clusterCounts',
     EmptyCluster data emptyCluster' old1 newCentroids' clusterCounts'
       metric iter (self r) =
     EmptyCluster data emptyCluster' old2 newCentroids' clusterCounts'
       metric iter (self r)).
Proof.
  intros Hr.
  destruct (EmptyCluster_leaves _ _ _ _ _ _ _ _ _ Hr)
    as (Hiter & s1 & fp & Hpre & Hasg).
  assert (Hlen : length (assignments (self r)) = length data).
  { rewrite Hasg, length_insert.
    eapply precalculated_assignments. exact Hpre. }
  assert (Hsame : forall old' counts',
            precalculated data old' counts' metric iter (self r)
              = Some (self r)).
  { intros old' counts'. unfold precalculated.
    rewrite Hiter, Hlen, !Nat.eqb_refl. reflexivity. }
  repeat split; try assumption.
  intros ec' old1 old2 new' counts'. unfold EmptyCluster.
  rewrite !Hsame. reflexivity.
Qed.


(** [Precalculate] reads nothing of the object but its iteration number:
    every assignment is overwritten and the variances start from zero. *)
Lemma Precalculate_forgets (data oldCentroids : mat) (clusterCounts : list Z)
    (metric : MetricType) (s s' : State) :
  match Precalculate data oldCentroids clusterCounts metric s,
        Precalculate data oldCentroids clusterCounts metric s' with
  | Some a, Some b =>
      variances a = variances b /\ assignments a = assignments b
  | None, None => True
  | _, _ => False
  end.
Proof.
  unfold Precalculate.
  set (v0 := replicate (length oldCentroids) d_zero).
  set (a0 := if decide (length (assignments s) = length data)
             then assignments s
             else replicate (length data) (length oldCentroids)).
  set (a0' := if decide (length (assignments s') = length data)
              then assignments s'
              else replicate (length data) (length oldCentroids)).
  assert (Ha0 : length a0 = length data).
  { subst a0. case_decide; [assumption | apply length_replicate]. }
  assert (Ha0' : length a0' = length data).
  { subst a0'. case_decide; [assumption | apply length_replicate]. }
  match goal with |- context [for_upto _ ?b (v0, a0)] => set (body := b) end.
  assert (Hsim : forall i, (i <= length data)%nat ->
            match for_upto i body (v0, a0), for_upto i body (v0, a0') with
            | Some (v1, a1), Some (v2, a2) =>
                v1 = v2 /\ take i a1 = take i a2 /\
                length a1 = length data /\ length a2 = length data
            | None, None => True
            | _, _ => False
            end).
  { induction i as [|i IH]; intros Hi.
    - simpl. repeat split; assumption.
    - rewrite !for_upto_S.
      specialize (IH ltac:(lia)).
      destruct (for_upto i body (v0, a0)) as [[v1 a1]|],
               (for_upto i body (v0, a0')) as [[v2 a2]|];
        try contradiction; [|exact I].
      destruct IH as (<- & Htake & Hl1 & Hl2).
      subst body. simpl.
      destruct (data !! i) as [pt|]; simpl; [|exact I].
      destruct (oldCentroids !! _) as [cen|]; simpl; [|exact I].
      destruct (v1 !! _) as [v|]; simpl; [|exact I].
      rewrite !length_insert. repeat split; try assumption.
      match goal with |- take _ (<[i := ?c]> a1) = _ =>
        rewrite (take_S_r (<[i := c]> a1) i c),
                (take_S_r (<[i := c]> a2) i c)
          by (apply list_lookup_insert_eq; lia)
      end.
      rewrite !take_insert_ge by lia. rewrite Htake. reflexivity. }
  specialize (Hsim (length data) (Nat.le_refl _)).
  destruct (for_upto (length data) body (v0, a0)) as [[v1 a1]|],
           (for_upto (length data) body (v0, a0')) as [[v2 a2]|];
    try contradiction; [|exact I].
  destruct Hsim as (<- & Htake & Hl1 & Hl2).
  rewrite (take_ge a1), (take_ge a2) in Htake by lia. subst a2.
  destruct (for_upto (length clusterCounts) _ v1) as [vs'|]; simpl;
    [split; reflexivity | exact I].
Qed.

(** X5.  Two calls that both recalculate give the same result, whatever
    the object held before: a call with a new iteration number, or for a
    data set of another size, starts afresh. *)
Theorem EmptyCluster_recalculation_forgets (data : mat) (emptyCluster : nat)
    (oldCentroids newCentroids : mat) (clusterCounts : list Z)
    (metric : MetricType) (iter : nat) (s s' : State) :
  recalculates data iter s = true -> recalculates data iter s' = true ->
  EmptyCluster data emptyCluster oldCentroids newCentroids clusterCounts
    metric iter s =
  EmptyCluster data emptyCluster oldCentroids newCentroids clusterCounts
    metric iter s'.
Proof.
  unfold recalculates, EmptyCluster, precalculated. intros -> ->.
  pose proof (Precalculate_forgets data oldCentroids clusterCounts metric
                s s') as Hsame.
  destruct (Precalculate data oldCentroids clusterCounts metric s)
    as [[it1 v1 a1]|],
    (Precalculate data oldCentroids clusterCounts metric s')
    as [[it2 v2 a2]|]; try contradiction; [|reflexivity].
  simpl in Hsame. destruct Hsame as [<- <-]. reflexivity.
Qed.

(** X6.  Saving leaves the object as it is.  After loading, the next call
    on a data set with at least one point recalculates, even with the
    iteration number the object has on record, and its result does not
    depend on what the object held before the load. *)
Theorem Serialize_forces_recalculation (data : mat) (emptyCluster : nat)
    (oldCentroids newCentroids : mat) (clusterCounts : list Z)
    (metric : MetricType) (iter : nat) (s s' : State) :
  data <> [] ->
  Serialize false s = s /\
  recalculates data iter (Serialize true s) = true /\
  precalculated data oldCentroids clusterCounts metric (iteration s)
    (Serialize true s)
    = Precalculate data oldCentroids clusterCounts metric (Serialize true s) /\
  EmptyCluster data emptyCluster oldCentroids newCentroids clusterCounts
    metric iter (Serialize true s) =
  EmptyCluster data emptyCluster oldCentroids newCentroids clusterCounts
    metric iter (Serialize true s').
Proof.
  intros Hdata.
  assert (Hre : forall it st, recalculates data it (Serialize true st) = true).
  { intros it st. unfold recalculates, Serialize. simpl.
    destruct data; [contradiction|]. simpl. apply orb_true_r. }
  repeat split.
  - apply Hre.
  - unfold precalculated. fold (recalculates data (iteration s) (Serialize true s)).
    rewrite Hre. reflexivity.
  - unfold EmptyCluster, precalculated.
    fold (recalculates data iter (Serialize true s)).
    fold (recalculates data iter (Serialize true s')).
    rewrite !Hre.
    pose proof (Precalculate_forgets data oldCentroids clusterCounts metric
                  (Serialize true s) (Serialize true s')) as Hsame.
    destruct (Precalculate data oldCentroids clusterCounts metric
                (Serialize true s)) as [[it1 v1 a1]|],
      (Precalculate data oldCentroids clusterCounts metric
         (Serialize true s')) as [[it2 v2 a2]|];
      try contradiction; [|reflexivity].
    simpl in Hsame. destruct Hsame as [<- <-]. reflexivity.
Qed.
End PolicyFacts.

(** ** Runs of the search on concrete inputs *)

Import RANN Scenario.

(** The maps of the trees built over [points] and [queries]. *)
Lemma maps_are_permutations :
  is_permutation (oldFromNewReferences dual_engine) 4 /\
  is_permutation (partition_order queries) 2.
Proof.
  split; (split; [reflexivity|]; split;
          [apply (bool_decide_unpack (NoDup _)); vm_compute; exact I
          |repeat constructor; vm_compute; lia]).
Defined.

Lemma Search_index_remapping_witness :
  let e := dual_engine in
  (RearrangesDataset = true /\ treeOwner e = true) /\
  (let o := Search_querySet e queries 1 mat_empty mat_empty zeroed 0%nat in
   ended o = Ok tt /\
   keyed_by_original [1; 0]%nat [3; 2; 1; 0]%nat
     (mkMat 1 2 [0; 0]) (mkMat 1 2 [0%float; 0%float]) 1 2
     (neighbors_out o) (distances_out o)) /\
  (let o := Search_queryTree e used_queryTree 1 mat_empty mat_empty zeroed 0%nat in
   ended o = Ok tt /\
   keyed_by_original [0; 1]%nat [3; 2; 1; 0]%nat
     (mkMat 1 2 [0; 0]) (mkMat 1 2 [0%float; 0%float]) 1 2
     (neighbors_out o) (distances_out o)) /\
  (let o := Search_self e 1 mat_empty mat_empty zeroed 0%nat in
   ended o = Ok tt /\
   keyed_by_original [3; 2; 1; 0]%nat [3; 2; 1; 0]%nat
     (mkMat 1 4 [0; 0; 0; 0])
     (mkMat 1 4 [0%float; 0%float; 0%float; 0%float]) 1 4
     (neighbors_out o) (distances_out o)).
Proof.
  intros e. split; [split; reflexivity|].
  destruct (Search_index_remapping (C := stand_ins) e 1 mat_empty mat_empty
              zeroed 0%nat eq_refl eq_refl) as (Hset & Htree & Hself).
  assert (Hpos2 : holds_positions [3; 2; 1; 0]%nat (mkMat 1 2 [0; 0]) 1 2).
  { intros i j Hi Hj. destruct j; [|exfalso; lia].
    do 2 (destruct i as [|i]; [vm_compute; eauto|]). exfalso; lia. }
  assert (Hpos4 : holds_positions [3; 2; 1; 0]%nat
                    (mkMat 1 4 [0; 0; 0; 0]) 1 4).
  { intros i j Hi Hj. destruct j; [|exfalso; lia].
    do 4 (destruct i as [|i]; [vm_compute; eauto|]). exfalso; lia. }
  split; [|split].
  - destruct (Hset queries) as (Hend & Hkey & _).
    + reflexivity.
    + exact Hpos2.
    + intros _. split; [repeat split | apply maps_are_permutations].
    + split; [exact Hend | exact Hkey].
  - destruct (Htree used_queryTree) as (Hend & Hkey); try reflexivity.
    + exact Hpos2.
    + split; [exact Hend | exact Hkey].
  - destruct (Hself [[100%float]; [2%float]; [1%float]; [0%float]])
      as (Hend & Hkey); try reflexivity.
    + exact Hpos4.
    + repeat split.
    + apply maps_are_permutations.
    + split; [exact Hend | exact Hkey].
Defined.

Lemma Search_queryTree_invalid_mode_witness :
  (singleMode naive_engine = true \/ naive naive_engine = true) /\
  (let o := Search_queryTree naive_engine used_queryTree 1
              (mkMat 1 2 [7; 7]) mat_empty zeroed 0%nat in
   (exists what, ended o = Throw (invalid_argument what)) /\
   calls o = [] /\
   neighbors_out o = mkMat 1 2 [7; 7] /\ distances_out o = mat_empty /\
   query_out o = used_queryTree /\ self_out o = naive_engine /\
   state_out o = 0%nat).
Proof.
  split; [right; reflexivity|].
  apply (Search_queryTree_invalid_mode (C := stand_ins) naive_engine
           used_queryTree 1 (mkMat 1 2 [7; 7]) mat_empty zeroed 0%nat).
  right. reflexivity.
Defined.

Lemma Serialize_persists_one_of_set_and_tree_witness :
  (Serialize false dual_engine [] = Ok (dual_engine, saved_dual_engine) /\
   (naive dual_engine = false -> is_Some (referenceTree dual_engine))) /\
  (In "referenceTree" (names saved_dual_engine) /\
   ~ In "referenceSet" (names saved_dual_engine)) /\
  (exists e',
     Serialize true naive_engine saved_dual_engine = Ok (e', []) /\
     config e' = config dual_engine /\
     referenceTree e' = referenceTree dual_engine /\
     deref_referenceSet e' = deref_referenceSet dual_engine /\
     treeOwner e' = true /\ setOwner e' = false).
Proof.
  assert (Hsave : Serialize false dual_engine [] =
                  Ok (dual_engine, saved_dual_engine)) by reflexivity.
  assert (Htree : naive dual_engine = false ->
                  is_Some (referenceTree dual_engine))
    by (intros _; eexists; reflexivity).
  split; [split; assumption|].
  destruct (Serialize_persists_one_of_set_and_tree
              dual_engine naive_engine saved_dual_engine Hsave Htree)
    as ((_ & _ & _ & Hset & Htr & _) & (e' & Hload & Hcfg & _ & Hdata) & Hany).
  split.
  - split; [apply Htr; reflexivity|].
    intros Hin. apply Hset in Hin. discriminate Hin.
  - exists e'. split; [exact Hload|]. split; [exact Hcfg|].
    destruct (Hdata eq_refl) as (Ht & _ & Hview).
    split; [exact Ht|]. split; [exact Hview|].
    destruct (Hany saved_dual_engine e' [] Hload) as (_ & Hmode).
    assert (Hn : naive e' = false).
    { assert (Hfst : fst (fst (fst (fst (fst (fst (config e')))))) = false)
        by (rewrite Hcfg; reflexivity).
      exact Hfst. }
    destruct (Hmode Hn) as (n & t & _ & _ & _ & _ & Hown & Hset').
    split; assumption.
Defined.

Lemma reset_is_left_to_the_caller_witness :
  is_reset (ResetQueryTree used_queryTree) /\
  first_traversal
    (calls (Search_queryTree dual_engine used_queryTree 1 mat_empty mat_empty
              zeroed 0%nat))
  = Some (EvDualTraverse (Some used_queryTree) (referenceTree dual_engine)).
Proof.
  destruct (reset_is_left_to_the_caller (C := stand_ins))
    as (Hreset & Htree & _).
  split; [apply Hreset|].
  destruct (first_traversal _) as [ev|] eqn:Hev.
  - rewrite (Htree _ _ _ _ _ _ _ _ Hev). reflexivity.
  - vm_compute in Hev. discriminate Hev.
Defined.

(** C6, against the claim as stated: a dual-tree search with a query tree
    that has been searched with before starts its traversal from that tree
    as it is, five samples on record at the root. *)
Lemma Search_queryTree_traverses_used_tree :
  exists q r,
    first_traversal
      (calls (Search_queryTree dual_engine used_queryTree 1 mat_empty
                mat_empty zeroed 0%nat))
    = Some (EvDualTraverse (Some q) r) /\
    ~ is_reset q.
Proof.
  exists used_queryTree, (referenceTree dual_engine).
  split; [reflexivity|].
  intros Hreset. inversion Hreset as [|s l [_ Hsamples] _].
  discriminate Hsamples.
Qed.

(** C2, at a naive engine over four points whose sampling policy asks for
    one sample: the search of the reference set against itself draws that
    one sample and then runs the base case of every point on all four
    points; the search with a query set runs it on the sample only. *)
Theorem Search_self_naive_ignores_samples :
  let self := Search_self naive_engine 1 mat_empty mat_empty zeroed 0%nat in
  let other :=
    Search_querySet naive_engine queries 1 mat_empty mat_empty zeroed 0%nat in
  (ended self = Ok tt /\
   samples_drawn (calls self) = [[0]] /\
   map (fun i => base_cases i (calls self)) (seq 0 4) =
     replicate 4 [0; 1; 2; 3]) /\
  (ended other = Ok tt /\
   samples_drawn (calls other) = [[0]] /\
   map (fun i => base_cases i (calls other)) (seq 0 2) = replicate 2 [0]).
Proof. vm_compute. repeat split. Qed.

(** C3, at a naive engine over no points and a query set of two: no base
    case runs, the distance matrix comes back filled with the worst
    distance, and the neighbor matrix comes back with what the caller's
    matrix held before the call, which is not the index sentinel.  The
    search of a reference set against itself hands its rules a neighbor
    matrix filled with the sentinel; there, with an engine that owns a
    rearranging tree, a slot left at the sentinel is looked up in
    [oldFromNewReferences] by the final pass, out of its range. *)
Theorem Search_querySet_leaves_neighbors_unfilled :
  let o := Search_querySet naive_engine_no_points queries 1
             (mkMat 1 2 [7; 7]) mat_empty zeroed 0%nat in
  (ended o = Ok tt /\
   base_cases 0 (calls o) = [] /\ base_cases 1 (calls o) = [] /\
   distances_out o = mkMat 1 2 [DBL_MAX; DBL_MAX] /\
   neighbors_out o = mkMat 1 2 [7; 7] /\
   7 <> size_t_minus_one) /\
  (exists args d,
     head (calls (Search_self naive_engine 1 (mkMat 1 4 [7; 7; 7; 7])
                    mat_empty zeroed 0%nat))
     = Some (EvRules args (mkMat 1 4 (replicate 4 size_t_minus_one)) d)) /\
  (let t := Search_self_traverse single_engine points 2 mat_empty mat_empty
              zeroed 0%nat in
   t_ended t = Ok tt /\
   mat_get (t_neighbors t) 1 0 = Some size_t_minus_one /\
   vec_at (oldFromNewReferences single_engine) size_t_minus_one = None /\
   ended (Search_self single_engine 2 mat_empty mat_empty zeroed 0%nat)
     = Throw out_of_bounds).
Proof.
  split; [|split].
  - vm_compute. repeat split. discriminate.
  - eexists. eexists. vm_compute. reflexivity.
  - vm_compute. repeat split.
Qed.

(** C8, at the same engine: two runs with the same engine, query set,
    [k] and ambient state return different neighbor matrices when the
    caller's neighbor matrix held different values before, and, in
    single-tree mode with a fresh matrix each time, when the fresh memory
    of the temporary matrix held different values. *)
Theorem Search_querySet_depends_on_old_neighbors :
  let run old :=
    Search_querySet naive_engine_no_points queries 1 (mkMat 1 2 old)
      mat_empty zeroed 0%nat in
  let rerun junk :=
    Search_querySet single_engine queries 2 mat_empty mat_empty
      (mkJunk (fun _ _ => junk) (fun _ _ => 0%float)) 0%nat in
  (ended (run [7; 7]) = Ok tt /\ ended (run [9; 9]) = Ok tt /\
   state_out (run [7; 7]) = state_out (run [9; 9]) /\
   distances_out (run [7; 7]) = distances_out (run [9; 9]) /\
   neighbors_out (run [7; 7]) <> neighbors_out (run [9; 9])) /\
  (ended (rerun 0) = Ok tt /\ ended (rerun 1) = Ok tt /\
   state_out (rerun 0) = state_out (rerun 1) /\
   distances_out (rerun 0) = distances_out (rerun 1) /\
   neighbors_out (rerun 0) = mkMat 2 2 [3; 3; 3; 3] /\
   neighbors_out (rerun 1) = mkMat 2 2 [3; 2; 3; 2]).
Proof. vm_compute. repeat split. discriminate. Qed.

(** ** Runs of the empty-cluster policy *)

(** C10, where no point is found: two points equal to the second of two
    centroids, the first cluster empty.  All variances are 0, the cluster
    of largest variance is the first one, no point is assigned to it, the
    furthest point stays at [data.n_cols], and the call fails at
    [data.col(furthestPoint)] instead of returning 1. *)
Theorem EmptyCluster_without_a_furthest_point :
  let data := [[5%float]; [5%float]] in
  let centroids := [[0%float]; [5%float]] in
  let counts := [0; 2] in
  KMeans.precalculated data centroids counts tt 1 unused
    = Some (KMeans.mkState 0 [0%float; 0%float] [1; 1]%nat) /\
  KMeans.index_max [0%float; 0%float] = Some 0%nat /\
  KMeans.furthest_scan data [1; 1]%nat tt (centroids !! 0%nat) 0
    = Some (PrimFloat.opp DBL_MAX, 2%nat) /\
  data !! 2%nat = None /\
  KMeans.EmptyCluster data 0 centroids centroids counts tt 1 unused = None.
Proof. repeat split; reflexivity. Qed.

(** The same call where a point is found: three points, the second
    cluster empty. *)
Lemma EmptyCluster_moves_one_point_witness :
  let data := [[0%float]; [1%float]; [10%float]] in
  let old := [[0%float]; [50%float]] in
  let new := [[3.5%float]; [0%float]] in
  exists r,
    KMeans.EmptyCluster data 1 old new [3; 0] tt 1 unused = Some r /\
    KMeans.ret r = 1 /\
    KMeans.clusterCounts' r !! 0%nat = Some 2 /\
    KMeans.clusterCounts' r !! 1%nat = Some 1 /\
    KMeans.total (KMeans.clusterCounts' r) = 3 /\
    KMeans.newCentroids' r !! 1%nat = Some [10%float] /\
    KMeans.variances (KMeans.self r) !! 1%nat = Some 0%float /\
    KMeans.assignments (KMeans.self r) = [0; 0; 1]%nat.
Proof.
  intros data old new.
  destruct (EmptyCluster_moves_one_point (M := EuclideanDistance)
              data 1 old new [3; 0] tt 1 unused
              (@KMeans.mkState binary64 0
                 [PrimFloat.div 101%float 3%float; 0%float] [0; 0; 0]%nat)
              0 2 42.25%float 3 [10%float] [3.5%float] [0%float])
    as (r & Hrun & Hret & Hmv & He & _ & Htotal & Hcentroid & Hvar & Hasg);
    try reflexivity; try (simpl; lia).
  exists r. repeat split; assumption.
Defined.

(** Three points, the second cluster empty: the point found is the third. *)
Lemma EmptyCluster_needs_a_member_witness :
  exists r,
    KMeans.EmptyCluster three_points 1 two_centroids moved_centroids [3; 0]
      tt 1 unused = Some r /\
    exists s1 maxVarCluster furthestPoint,
      KMeans.precalculated three_points two_centroids [3; 0] tt 1 unused
        = Some s1 /\
      KMeans.index_max (KMeans.variances s1) = Some maxVarCluster /\
      (furthestPoint < 3)%nat /\
      KMeans.assignments s1 !! furthestPoint = Some maxVarCluster /\
      KMeans.assignments (KMeans.self r)
        = <[furthestPoint := 1%nat]> (KMeans.assignments s1).
Proof.
  eexists. split; [reflexivity|].
  apply (EmptyCluster_needs_a_member (M := EuclideanDistance) three_points 1
           two_centroids moved_centroids [3; 0] tt 1 unused).
  reflexivity.
Defined.

(** After that call, a call for the same iteration does not recalculate,
    even without centroids to recalculate from. *)
Lemma EmptyCluster_precalculates_once_witness :
  exists r,
    KMeans.EmptyCluster three_points 1 two_centroids moved_centroids [3; 0]
      tt 1 unused = Some r /\
    KMeans.iteration (KMeans.self r) = 1%nat /\
    KMeans.precalculated three_points [] [] tt 1 (KMeans.self r)
      = Some (KMeans.self r).
Proof.
  eexists. split; [reflexivity|].
  destruct (EmptyCluster_precalculates_once (M := EuclideanDistance)
              three_points 1 two_centroids moved_centroids [3; 0] tt 1 unused
              _ eq_refl) as (Hiter & _ & Hsame & _).
  split; [exact Hiter | apply Hsame].
Defined.


(** A fresh object and a stale one give the same result for a new
    iteration. *)
Lemma EmptyCluster_recalculation_forgets_witness :
  (KMeans.recalculates three_points 1 unused = true /\
   KMeans.recalculates three_points 1 stale = true) /\
  KMeans.EmptyCluster three_points 1 two_centroids moved_centroids [3; 0]
    tt 1 unused =
  KMeans.EmptyCluster three_points 1 two_centroids moved_centroids [3; 0]
    tt 1 stale.
Proof.
  split; [split; reflexivity|].
  apply (EmptyCluster_recalculation_forgets (M := EuclideanDistance));
    reflexivity.
Defined.

(** A stale object after a load, asked for the iteration it has on
    record. *)
Lemma Serialize_forces_recalculation_witness :
  three_points <> [] /\
  KMeans.recalculates three_points 7 (KMeans.Serialize true stale) = true /\
  KMeans.EmptyCluster three_points 1 two_centroids moved_centroids [3; 0]
    tt 7 (KMeans.Serialize true stale) =
  KMeans.EmptyCluster three_points 1 two_centroids moved_centroids [3; 0]
    tt 7 (KMeans.Serialize true unused).
Proof.
  assert (Hdata : three_points <> []) by discriminate.
  split; [exact Hdata|].
  destruct (Serialize_forces_recalculation (M := EuclideanDistance)
              three_points 1 two_centroids moved_centroids [3; 0] tt 7
              stale unused Hdata) as (_ & Hre & _ & Hsame).
  split; [exact Hre | exact Hsame].
Defined.

(** The naive engine over [points] after two searches. *)
Lemma naive_search_keeps_engine_witness :
  naive naive_engine = true /\
  self_out (Search_querySet naive_engine queries 1 mat_empty mat_empty
              zeroed 0%nat) = naive_engine /\
  self_out (Search_self naive_engine 1 mat_empty mat_empty zeroed 0%nat)
    = naive_engine.
Proof.
  split; [reflexivity|].
  destruct (naive_search_keeps_engine (C := stand_ins) naive_engine 1
              mat_empty mat_empty zeroed 0%nat eq_refl) as [Hset Hself].
  split; [apply (Hset queries) | apply Hself].
Defined.

(** The single-tree engine over [points], searched with no query point. *)
Lemma Search_querySet_no_queries_witness :
  (deref_referenceSet single_engine
     = Some [[100%float]; [2%float]; [1%float]; [0%float]] /\
   (forall a r, snd (RASearchRules_new a r) = None)) /\
  ended (Search_querySet single_engine [] 1 mat_empty mat_empty zeroed 0%nat)
    = Throw division_by_zero.
Proof.
  assert (Hrs : deref_referenceSet single_engine
                = Some [[100%float]; [2%float]; [1%float]; [0%float]])
    by reflexivity.
  assert (Hnew : forall a r, snd (RASearchRules_new a r) = None)
    by (intros a r; reflexivity).
  split; [split; assumption|].
  destruct (Search_querySet_no_queries (C := stand_ins) single_engine 1
              mat_empty mat_empty zeroed 0%nat _ Hrs Hnew)
    as (_ & Hsingle & _).
  apply Hsingle; try reflexivity.
  eexists. split; reflexivity.
Defined.

(** The engine over a tree that is one leaf. *)
Lemma Search_querySet_single_leaf_witness :
  (naive leaf_engine = false /\ singleMode leaf_engine = true /\
   IsLeaf leaf_tree = true) /\
  exists n,
    calls (Search_querySet leaf_engine queries 1 mat_empty mat_empty zeroed
             0%nat)
    = [EvRules (rule_args leaf_engine points queries false) n
         (mkMat 1 2 [DBL_MAX; DBL_MAX])].
Proof.
  split; [repeat split|].
  destruct (Search_querySet_single_leaf (C := stand_ins) leaf_engine queries
              1 mat_empty mat_empty zeroed 0%nat points leaf_tree
              eq_refl eq_refl eq_refl eq_refl eq_refl)
    as (n & Hcalls & _).
  exists n. exact Hcalls.
Defined.

(** The single-tree engine over [points]: two queries, then its own four
    points. *)
Lemma single_mode_traverses_each_query_witness :
  (naive single_engine = false /\ singleMode single_engine = true) /\
  traversed_queries
    (calls (Search_querySet single_engine queries 1 mat_empty mat_empty
              zeroed 0%nat)) = [0; 1]%nat /\
  traversed_queries
    (calls (Search_self single_engine 1 mat_empty mat_empty zeroed 0%nat))
    = [0; 1; 2; 3]%nat.
Proof.
  split; [split; reflexivity|].
  destruct (single_mode_traverses_each_query (C := stand_ins) single_engine
              1 mat_empty mat_empty zeroed 0%nat eq_refl eq_refl)
    as [Hset Hself].
  split.
  - refine (proj1 (Hset queries _ eq_refl eq_refl _)). reflexivity.
  - refine (proj1 (Hself _ eq_refl _)). reflexivity.
Defined.

(** The dual-tree engine built over [points] owns its tree. *)
Lemma engine_deletes_only_its_own_witness :
  in_use dual_engine /\
  (length (RASearch_destroy dual_engine) <= 1)%nat /\
  Serialize_deletes dual_engine true = RASearch_destroy dual_engine.
Proof.
  assert (Huse : in_use dual_engine) by apply made_fromSet.
  split; [exact Huse|].
  destruct (engine_deletes_only_its_own (C := stand_ins) dual_engine Huse)
    as (Hlen & _ & _ & Hload).
  split; [exact Hlen | apply Hload].
Defined.


(** From an empty store: the engine that owns its tree leaves one object
    behind, the engine over the caller's tree none. *)
Lemma Search_temporaries_witness :
  store_ok (mkStore 0 []) /\
  (exists h', Search_querySet_temporaries dual_engine (mkStore 0 []) = Some h' /\
     alive h' = [1%nat]) /\
  (exists h', Search_querySet_temporaries borrowing_engine (mkStore 0 [])
              = Some h' /\ alive h' = []).
Proof.
  assert (Hok : store_ok (mkStore 0 [])) by (split; constructor).
  split; [exact Hok|]. split.
  - destruct (Search_temporaries dual_engine _ Hok) as (_ & _ & Hset).
    exact Hset.
  - destruct (Search_temporaries borrowing_engine _ Hok) as (_ & _ & Hset).
    exact Hset.
Defined.

(** The naive engine over [points] with the two [queries]. *)
Lemma Search_querySet_naive_samples_witness :
  (naive naive_engine = true /\
   ended (Search_querySet naive_engine queries 1 mat_empty mat_empty zeroed
            0%nat) = Ok tt) /\
  exists samples,
    samples_drawn
      (calls (Search_querySet naive_engine queries 1 mat_empty mat_empty
                zeroed 0%nat)) = [samples] /\
    forall i, (i < 2)%nat ->
      base_cases i
        (calls (Search_querySet naive_engine queries 1 mat_empty mat_empty
                  zeroed 0%nat)) = samples.
Proof.
  split; [split; reflexivity|].
  destruct (Search_querySet_naive_samples (C := stand_ins) naive_engine
              queries 1 mat_empty mat_empty zeroed 0%nat eq_refl eq_refl)
    as (rs & samples & _ & _ & Hdrawn & Hbase).
  exists samples. split; [exact Hdrawn | exact Hbase].
Defined.

(** The engine over the caller's tree with the two [queries]. *)
Lemma Search_querySet_relocated_witness :
  (RearrangesDataset = true /\ treeOwner borrowing_engine = false /\
   is_dual borrowing_engine = true) /\
  (let o := Search_querySet borrowing_engine queries 1 mat_empty mat_empty
              zeroed 0%nat in
   ended o = Ok tt /\
   relocated [1; 0]%nat (mkMat 1 2 [0; 0]) (mkMat 1 2 [0%float; 0%float])
     1 2 (neighbors_out o) (distances_out o)).
Proof.
  split; [repeat split|].
  apply (Search_querySet_relocated (C := stand_ins) borrowing_engine queries
           1 mat_empty mat_empty zeroed 0%nat); try reflexivity.
  - repeat split.
  - repeat split.
  - apply maps_are_permutations.
Defined.

(** The matrices the dual-tree engine hands its rules when searched
    against itself. *)
Lemma Search_buffers_prepared_witness :
  exists a n d,
    head (calls (Search_self dual_engine 1 mat_empty mat_empty zeroed 0%nat))
      = Some (EvRules a n d) /\
    n = mkMat 1 4 (replicate 4 size_t_minus_one) /\
    d = mkMat 1 4 (replicate 4 DBL_MAX).
Proof.
  eexists _, _, _. split; [reflexivity|].
  destruct (Search_buffers_prepared (C := stand_ins) dual_engine 1 mat_empty
              mat_empty zeroed 0%nat) as (_ & _ & Hself).
  eapply (Hself [[100%float]; [2%float]; [1%float]; [0%float]]);
    [reflexivity | left; reflexivity].
Defined.

(** In dual-tree mode the rules get the points of the query tree, in its
    order. *)
Lemma Search_rules_arguments_witness :
  exists a n d,
    head (calls (Search_querySet dual_engine queries 1 mat_empty mat_empty
                   zeroed 0%nat)) = Some (EvBuildTree queries) /\
    In (EvRules a n d)
      (calls (Search_querySet dual_engine queries 1 mat_empty mat_empty
                zeroed 0%nat)) /\
    ra_querySet a = [[50%float]; [1.5%float]] /\ ra_sameSet a = false.
Proof.
  eexists _, _, _. split; [reflexivity|].
  assert (Hin : In (EvRules _ _ _)
                  (calls (Search_querySet dual_engine queries 1 mat_empty
                            mat_empty zeroed 0%nat)))
    by (right; left; reflexivity).
  split; [exact Hin|].
  destruct (Search_rules_arguments (C := stand_ins) dual_engine 1 mat_empty
              mat_empty zeroed 0%nat) as (Hset & _ & _).
  destruct (Hset queries _ _ _ Hin) as (rs & _ & ->).
  split; reflexivity.
Defined.

(** Loading the saved dual-tree engine into two different engines. *)
Lemma Serialize_load_overwrites_witness :
  exists e',
    Serialize true naive_engine saved_dual_engine = Ok (e', []) /\
    Serialize true dual_engine saved_dual_engine = Ok (e', []) /\
    exists t, referenceTree e' = Some t /\ metric e' = Metric t.
Proof.
  eexists. split; [vm_compute; reflexivity|].
  destruct (Serialize_load_overwrites naive_engine dual_engine
              saved_dual_engine) as [Hsame Hload].
  split; [rewrite <- Hsame; reflexivity|].
  refine (proj2 (proj2 (Hload _ [] eq_refl)) eq_refl).
Defined.

(** The engine over the caller's leaf maps nothing. *)
Lemma Search_without_mapping_witness :
  let t := Search_querySet_traverse leaf_engine queries 1 mat_empty mat_empty
             zeroed 0%nat in
  let o := Search_querySet leaf_engine queries 1 mat_empty mat_empty zeroed
             0%nat in
  RearrangesDataset && (is_dual leaf_engine || treeOwner leaf_engine) = false /\
  ended o = t_ended t /\ neighbors_out o = t_neighbors t /\
  distances_out o = t_distances t.
Proof.
  intros t o. split; [reflexivity|].
  destruct (Search_without_mapping (C := stand_ins) leaf_engine 1 mat_empty
              mat_empty zeroed 0%nat) as (Hset & _ & _).
  apply (Hset queries). reflexivity.
Defined.
